(** * Snake: the simulation engine of [client/src/game/engine/GameEngine.ts]

    A shallow embedding of the game engine, of the helpers it calls
    ([game/utils/helpers.ts]) and of the constants it reads
    ([game/utils/constants.ts]), followed by the properties of the
    engine that the specification states, and by further properties of
    the engine, of the helpers and of the two callers of the engine's
    statistics and directions (the store and the canvas).

    Conventions of the embedding.
    - Integer-valued JavaScript numbers (grid coordinates, score, lives,
      combo, level, millisecond timestamps of [Date.now()]) are [Z]; the
      two agree below 2^53.
    - Durations in fractional milliseconds ([deltaTime], the move
      accumulator, the move interval) are [Q]: the engine only adds them,
      compares them, doubles and halves them.
    - [calculateScore] multiplies by the literal [0.1], which no binary
      fraction equals: it is evaluated in IEEE-754 binary64 arithmetic,
      as JavaScript does, with the Standard Library's [SpecFloat].
    - [Math.random()] reads a source of samples that is threaded through
      the methods that draw from it; [Date.now()] is an argument [now] of
      the methods that read the clock, one reading for a call.
    - A method that can throw returns an [option].
    - The subscribers of the event bus are observers: [emitEvent] appends
      to the log [emitted].
    - The spatial hash grid and the frame-rate average are write-only for
      the engine (no method reads them back) and are left out of its
      state; the two classes are modelled on their own, in
      [SpatialHashGrid] and [MovingAverage].
    - The objects behind the snapshot getters, and what a snapshot shares
      with the engine, are modelled apart, in [Store]. *)

From Stdlib Require Import ZArith QArith Qround Qminmax Qabs Bool List String Lia Lqa.
From Stdlib Require Import Floats.SpecFloat.
From Stdlib Require Import Ascii DecimalString DecimalZ DecimalPos.
From stdpp Require Import list gmap strings.
Import ListNotations.

Open Scope Z_scope.

(* ===================================================================== *)
(** * JavaScript numbers: binary64 arithmetic for [calculateScore]        *)
(* ===================================================================== *)

Module JSNumber.

Definition prec : Z := 53.
Definition emax : Z := 1024.

Definition number := spec_float.

(** The binary64 value nearest to an integer. *)
Definition of_Z (z : Z) : number := binary_normalize prec emax z 0 false.

Definition mul (a b : number) : number := SFmul prec emax a b.
Definition add (a b : number) : number := SFadd prec emax a b.

(** The literal [0.1]: the binary64 value nearest to one tenth,
    3602879701896397 / 2^55. *)
Definition lit_0_1 : number := S754_finite false 7205759403792794 (-56).

(** [Math.floor] of a finite value, as an integer.  Infinities and NaN
    have no integer floor; they arise only beyond 1.7e308. *)
Definition Math_floor (a : number) : Z :=
  match a with
  | S754_zero _ => 0
  | S754_finite s m e =>
      let v := if s then Z.neg m else Z.pos m in
      if 0 <=? e then v * 2 ^ e else v / 2 ^ (- e)
  | S754_infinity _ => 0
  | S754_nan => 0
  end.

End JSNumber.

(* ===================================================================== *)
(** * Types ([game/types/index.ts])                                        *)
(* ===================================================================== *)

Record Position := mkPosition { px : Z; py : Z }.

(** [Direction] has fields [x], [y] in [-1 | 0 | 1]. *)
Record Direction := mkDirection { dx : Z; dy : Z }.

Inductive GameState := MENU | PLAYING | PAUSED | GAME_OVER | LOADING.

Inductive GameMode := CLASSIC | ARCADE | SURVIVAL | CHALLENGE | MULTIPLAYER.

Inductive Difficulty := EASY | NORMAL | HARD | INSANE.

Inductive Theme :=
  THEME_NEON | THEME_CLASSIC | RAINBOW | FIRE | ICE | MATRIX | CYBERPUNK.

Inductive PowerUpType :=
  SPEED | SLOW | GHOST | INVINCIBLE | DOUBLE_POINTS | SHRINK | MAGNET | FREEZE.

(** The result of [generateId]: the timestamp and the random sample the
    identifier string is printed from. *)
Definition Id : Type := Z * Q.

Record PowerUp := mkPowerUp {
  pu_id : Id;
  pu_type : PowerUpType;
  pu_position : Position;
  pu_lifetime : Z;
  pu_createdAt : Z
}.

Record ActivePowerUp := mkActivePowerUp {
  ap_type : PowerUpType;
  ap_duration : Z;
  ap_startTime : Z
}.

Inductive ObstacleType := STATIC | MOVING.

Record Obstacle := mkObstacle {
  ob_id : Id;
  ob_position : Position;
  ob_type : ObstacleType;
  ob_movingDirection : option Direction
}.

Inductive FoodType := FOOD_NORMAL | FOOD_BONUS | FOOD_GOLDEN.

Record Food := mkFood {
  food_position : Position;
  food_value : Z;
  food_type : FoodType
}.

Record Snake := mkSnake {
  segments : list Position;
  direction : Direction;
  nextDirection : Direction;
  snake_length : Z   (* the field [length] *)
}.

Record GameStats := mkGameStats {
  score : Z;
  level : Z;
  lives : Z;
  combo : Z;
  foodEaten : Z;
  powerUpsCollected : Z;
  timeElapsed : Q;
  highScore : Z
}.

Record GameConfig := mkGameConfig {
  gridSize : Z;
  cellSize : Z;
  initialSpeed : Z;
  speedIncrement : Z;
  maxSpeed : Z;
  difficulty : Difficulty;
  theme : Theme;
  mode : GameMode;
  soundEnabled : bool;
  musicEnabled : bool
}.

(** [CollisionResult]: the [type] tag with its [position] and [data]. *)
Inductive CollisionResult :=
  | CollNone
  | CollWall (position : Position)
  | CollSelf (position : Position)
  | CollFood (position : Position) (data : Food)
  | CollPowerup (position : Position) (data : PowerUp)
  | CollObstacle (position : Position) (data : Obstacle).

Inductive CollisionType :=
  | T_none | T_wall | T_self | T_obstacle | T_food | T_powerup.

Definition coll_type (c : CollisionResult) : CollisionType :=
  match c with
  | CollNone => T_none
  | CollWall _ => T_wall
  | CollSelf _ => T_self
  | CollFood _ _ => T_food
  | CollPowerup _ _ => T_powerup
  | CollObstacle _ _ => T_obstacle
  end.

Inductive GameEvent :=
  | FOOD_EATEN (position : Position) (points : Z)
  | POWER_UP_COLLECTED (powerUp : PowerUp)
  | COLLISION (collisionType : string)
  | LEVEL_UP (level : Z)
  | GAME_OVER_EVENT (stats : GameStats).

(* ===================================================================== *)
(** * Constants ([game/utils/constants.ts])                               *)
(* ===================================================================== *)

Record SpeedConfig := mkSpeedConfig {
  sc_initial : Z;
  sc_increment : Z;
  sc_min : Z
}.

Definition SPEED_CONFIG (d : Difficulty) : SpeedConfig :=
  match d with
  | EASY => mkSpeedConfig 150 3 80
  | NORMAL => mkSpeedConfig 100 4 50
  | HARD => mkSpeedConfig 70 5 30
  | INSANE => mkSpeedConfig 40 3 15
  end.

Definition INITIAL_SNAKE_LENGTH : Z := 3.
Definition COMBO_TIME_WINDOW : Z := 2000.
Definition MAX_COMBO : Z := 20.
Definition POWER_UP_DURATION : Z := 5000.
Definition POWER_UP_SPAWN_CHANCE : Q := 2 # 10.
Definition BASE_FOOD_SCORE : Z := 10.
Definition LEVEL_UP_THRESHOLD : Z := 100.

Definition INITIAL_LIVES (d : Difficulty) : Z :=
  match d with
  | EASY => 5
  | NORMAL => 3
  | HARD => 2
  | INSANE => 1
  end.

Record ObstacleConfig := mkObstacleConfig {
  oc_count : Z;
  oc_movingChance : Q
}.

Definition OBSTACLE_CONFIG (m : GameMode) : ObstacleConfig :=
  match m with
  | CLASSIC => mkObstacleConfig 0 0
  | ARCADE => mkObstacleConfig 5 (3 # 10)
  | SURVIVAL => mkObstacleConfig 8 (5 # 10)
  | CHALLENGE => mkObstacleConfig 10 (4 # 10)
  | MULTIPLAYER => mkObstacleConfig 6 (3 # 10)
  end.

Module DIRECTIONS.
Definition UP : Direction := mkDirection 0 (-1).
Definition DOWN : Direction := mkDirection 0 1.
Definition LEFT : Direction := mkDirection (-1) 0.
Definition RIGHT : Direction := mkDirection 1 0.
End DIRECTIONS.

(* ===================================================================== *)
(** * Helpers ([game/utils/helpers.ts])                                   *)
(* ===================================================================== *)

Definition positionsEqual (pos1 pos2 : Position) : bool :=
  (px pos1 =? px pos2) && (py pos1 =? py pos2).

Definition isInBounds (pos : Position) (gridSize : Z) : bool :=
  (px pos >=? 0) && (px pos <? gridSize) && (py pos >=? 0) && (py pos <? gridSize).

Definition areOppositeDirections (dir1 dir2 : Direction) : bool :=
  (dx dir1 =? - dx dir2) && (dy dir1 =? - dy dir2).

(** [Math.floor(baseScore * combo * (1 + level * 0.1))], in binary64. *)
Definition calculateScore (baseScore combo level : Z) : Z :=
  JSNumber.Math_floor
    (JSNumber.mul
       (JSNumber.mul (JSNumber.of_Z baseScore) (JSNumber.of_Z combo))
       (JSNumber.add (JSNumber.of_Z 1)
          (JSNumber.mul (JSNumber.of_Z level) JSNumber.lit_0_1))).

(** [Math.floor(score / threshold) + 1]. *)
Definition calculateLevel (score threshold : Z) : Z :=
  score / threshold + 1.

(* ===================================================================== *)
(** * The sources of [Math.random()]                                      *)
(* ===================================================================== *)

(** The samples still to be drawn: [samples] numbered from [cursor]. *)
Record RandomSource := mkRandomSource {
  samples : nat -> Q;
  cursor : nat
}.

(** The fractional part: every sample is read into [0, 1). *)
Definition frac (q : Q) : Q := q - inject_Z (Qfloor q).

(** Computations that draw random samples, and that may throw. *)
Definition M (A : Type) : Type := RandomSource -> option (A * RandomSource).

Definition ret {A : Type} (a : A) : M A := fun r => Some (a, r).

Definition bind {A B : Type} (m : M A) (k : A -> M B) : M B :=
  fun r => match m r with
           | Some (a, r') => k a r'
           | None => None
           end.

(** A [TypeError] of the run time. *)
Definition throw {A : Type} : M A := fun _ => None.

Declare Scope engine_scope.
Delimit Scope engine_scope with engine.
Notation "'let*' x ':=' m 'in' k" := (bind m (fun x => k))
  (at level 10, x name, m at level 100, k at level 200) : engine_scope.
Open Scope engine_scope.

(** The source once one sample has been drawn. *)
Definition advance (r : RandomSource) : RandomSource :=
  mkRandomSource (samples r) (S (cursor r)).

Definition Math_random : M Q :=
  fun r => Some (frac (samples r (cursor r)), advance r).

(** [Math.floor(Math.random() * n)] *)
Definition randomIndex (n : nat) : M nat :=
  let* u := Math_random in
  ret (Z.to_nat (Qfloor (u * inject_Z (Z.of_nat n)))).

(** [array[Math.floor(Math.random() * array.length)]]; the index is in
    range because the sample is below one. *)
Definition randomItem {A : Type} (array : list A) : M A :=
  let* i := randomIndex (List.length array) in
  match nth_error array i with
  | Some a => ret a
  | None => throw
  end.

(** [generateId()]: [Date.now()] and one sample. *)
Definition generateId (now : Z) : M Id :=
  let* u := Math_random in
  ret (now, u).

Definition id_eqb (a b : Id) : bool :=
  (fst a =? fst b) && Qeq_bool (snd a) (snd b).

(* ===================================================================== *)
(** * The engine ([game/engine/GameEngine.ts])                            *)
(* ===================================================================== *)

Record Engine := mkEngine {
  state : GameState;
  config : GameConfig;
  snake : Snake;
  food : option Food;
  powerUps : list PowerUp;
  obstacles : list Obstacle;
  activePowerUp : option ActivePowerUp;
  stats : GameStats;
  lastFoodTime : Z;
  moveAccumulator : Q;
  currentSpeed : Q;
  frameCount : Z;
  emitted : list GameEvent   (* what [emitEvent] delivered, oldest first *)
}.

(** ** Field updates *)

Definition set_state (v : GameState) (e : Engine) : Engine :=
  mkEngine v (config e) (snake e) (food e) (powerUps e) (obstacles e)
    (activePowerUp e) (stats e) (lastFoodTime e) (moveAccumulator e)
    (currentSpeed e) (frameCount e) (emitted e).

Definition set_snake (v : Snake) (e : Engine) : Engine :=
  mkEngine (state e) (config e) v (food e) (powerUps e) (obstacles e)
    (activePowerUp e) (stats e) (lastFoodTime e) (moveAccumulator e)
    (currentSpeed e) (frameCount e) (emitted e).

Definition set_food (v : option Food) (e : Engine) : Engine :=
  mkEngine (state e) (config e) (snake e) v (powerUps e) (obstacles e)
    (activePowerUp e) (stats e) (lastFoodTime e) (moveAccumulator e)
    (currentSpeed e) (frameCount e) (emitted e).

Definition set_powerUps (v : list PowerUp) (e : Engine) : Engine :=
  mkEngine (state e) (config e) (snake e) (food e) v (obstacles e)
    (activePowerUp e) (stats e) (lastFoodTime e) (moveAccumulator e)
    (currentSpeed e) (frameCount e) (emitted e).

Definition set_obstacles (v : list Obstacle) (e : Engine) : Engine :=
  mkEngine (state e) (config e) (snake e) (food e) (powerUps e) v
    (activePowerUp e) (stats e) (lastFoodTime e) (moveAccumulator e)
    (currentSpeed e) (frameCount e) (emitted e).

Definition set_activePowerUp (v : option ActivePowerUp) (e : Engine) : Engine :=
  mkEngine (state e) (config e) (snake e) (food e) (powerUps e) (obstacles e)
    v (stats e) (lastFoodTime e) (moveAccumulator e)
    (currentSpeed e) (frameCount e) (emitted e).

Definition set_stats (v : GameStats) (e : Engine) : Engine :=
  mkEngine (state e) (config e) (snake e) (food e) (powerUps e) (obstacles e)
    (activePowerUp e) v (lastFoodTime e) (moveAccumulator e)
    (currentSpeed e) (frameCount e) (emitted e).

Definition set_lastFoodTime (v : Z) (e : Engine) : Engine :=
  mkEngine (state e) (config e) (snake e) (food e) (powerUps e) (obstacles e)
    (activePowerUp e) (stats e) v (moveAccumulator e)
    (currentSpeed e) (frameCount e) (emitted e).

Definition set_moveAccumulator (v : Q) (e : Engine) : Engine :=
  mkEngine (state e) (config e) (snake e) (food e) (powerUps e) (obstacles e)
    (activePowerUp e) (stats e) (lastFoodTime e) v
    (currentSpeed e) (frameCount e) (emitted e).

Definition set_currentSpeed (v : Q) (e : Engine) : Engine :=
  mkEngine (state e) (config e) (snake e) (food e) (powerUps e) (obstacles e)
    (activePowerUp e) (stats e) (lastFoodTime e) (moveAccumulator e)
    v (frameCount e) (emitted e).

Definition set_frameCount (v : Z) (e : Engine) : Engine :=
  mkEngine (state e) (config e) (snake e) (food e) (powerUps e) (obstacles e)
    (activePowerUp e) (stats e) (lastFoodTime e) (moveAccumulator e)
    (currentSpeed e) v (emitted e).

Definition set_segments (v : list Position) (s : Snake) : Snake :=
  mkSnake v (direction s) (nextDirection s) (snake_length s).

Definition set_direction (v : Direction) (s : Snake) : Snake :=
  mkSnake (segments s) v (nextDirection s) (snake_length s).

Definition set_nextDirection (v : Direction) (s : Snake) : Snake :=
  mkSnake (segments s) (direction s) v (snake_length s).

Definition set_score (v : Z) (s : GameStats) : GameStats :=
  mkGameStats v (level s) (lives s) (combo s) (foodEaten s)
    (powerUpsCollected s) (timeElapsed s) (highScore s).

Definition set_level (v : Z) (s : GameStats) : GameStats :=
  mkGameStats (score s) v (lives s) (combo s) (foodEaten s)
    (powerUpsCollected s) (timeElapsed s) (highScore s).

Definition set_lives (v : Z) (s : GameStats) : GameStats :=
  mkGameStats (score s) (level s) v (combo s) (foodEaten s)
    (powerUpsCollected s) (timeElapsed s) (highScore s).

Definition set_combo (v : Z) (s : GameStats) : GameStats :=
  mkGameStats (score s) (level s) (lives s) v (foodEaten s)
    (powerUpsCollected s) (timeElapsed s) (highScore s).

Definition set_foodEaten (v : Z) (s : GameStats) : GameStats :=
  mkGameStats (score s) (level s) (lives s) (combo s) v
    (powerUpsCollected s) (timeElapsed s) (highScore s).

Definition set_powerUpsCollected (v : Z) (s : GameStats) : GameStats :=
  mkGameStats (score s) (level s) (lives s) (combo s) (foodEaten s)
    v (timeElapsed s) (highScore s).

Definition set_timeElapsed (v : Q) (s : GameStats) : GameStats :=
  mkGameStats (score s) (level s) (lives s) (combo s) (foodEaten s)
    (powerUpsCollected s) v (highScore s).

(** [emitEvent]: deliver to the subscribers. *)
Definition emitEvent (ev : GameEvent) (e : Engine) : Engine :=
  mkEngine (state e) (config e) (snake e) (food e) (powerUps e) (obstacles e)
    (activePowerUp e) (stats e) (lastFoodTime e) (moveAccumulator e)
    (currentSpeed e) (frameCount e) (emitted e ++ [ev]).

(** ** Construction and reset *)

(** [Array.from({ length: INITIAL_SNAKE_LENGTH }, (_, i) => ({ x: center - i, y: center }))] *)
Definition initialSegments (gridSize : Z) : list Position :=
  let center := gridSize / 2 in
  List.map (fun i => mkPosition (center - Z.of_nat i) center)
    (seq 0 (Z.to_nat INITIAL_SNAKE_LENGTH)).

Definition initialSnake (gridSize : Z) : Snake :=
  mkSnake (initialSegments gridSize) DIRECTIONS.RIGHT DIRECTIONS.RIGHT
    INITIAL_SNAKE_LENGTH.

(** [new GameEngine(config)] *)
Definition constructor (cfg : GameConfig) : Engine :=
  {| state := MENU;
     config := cfg;
     snake := initialSnake (gridSize cfg);
     food := None;
     powerUps := [];
     obstacles := [];
     activePowerUp := None;
     stats := mkGameStats 0 1 (INITIAL_LIVES (difficulty cfg)) 1 0 0 0 0;
     lastFoodTime := 0;
     moveAccumulator := 0;
     currentSpeed := inject_Z (sc_initial (SPEED_CONFIG (difficulty cfg)));
     frameCount := 0;
     emitted := [] |}.

Definition reset (now : Z) (e : Engine) : Engine :=
  {| state := state e;
     config := config e;
     snake := initialSnake (gridSize (config e));
     food := None;
     powerUps := [];
     obstacles := [];
     activePowerUp := None;
     stats := mkGameStats 0 1 (INITIAL_LIVES (difficulty (config e))) 1 0 0 0
                (highScore (stats e));
     lastFoodTime := now;
     moveAccumulator := 0;
     currentSpeed :=
       inject_Z (sc_initial (SPEED_CONFIG (difficulty (config e))));
     frameCount := frameCount e;
     emitted := emitted e |}.

(** ** Collision classification *)

(** The loop over [this.obstacles]. *)
Definition checkObstacles (e : Engine) (pos : Position) : CollisionResult :=
  match find (fun o => positionsEqual pos (ob_position o)) (obstacles e) with
  | Some obstacle => CollObstacle pos obstacle
  | None => CollNone
  end.

(** The loop over [this.powerUps], then the obstacles. *)
Definition checkPowerUps (e : Engine) (pos : Position) : CollisionResult :=
  match find (fun p => positionsEqual pos (pu_position p)) (powerUps e) with
  | Some powerUp => CollPowerup pos powerUp
  | None => checkObstacles e pos
  end.

Definition checkCollision (e : Engine) (pos : Position) : CollisionResult :=
  if negb (isInBounds pos (gridSize (config e))) then CollWall pos
  else if existsb (fun segment => positionsEqual pos segment) (segments (snake e))
  then CollSelf pos
  else
    match food e with
    | Some f =>
        if positionsEqual pos (food_position f) then CollFood pos f
        else checkPowerUps e pos
    | None => checkPowerUps e pos
    end.

(** [((pos.x % gridSize) + gridSize) % gridSize]: [%] truncates, as [Z.rem]
    does.  (On a grid of size 0 the source computes [NaN]; the grids of
    the game have a positive size.) *)
Definition wrapPosition (e : Engine) (pos : Position) : Position :=
  let g := gridSize (config e) in
  mkPosition (Z.rem (Z.rem (px pos) g + g) g) (Z.rem (Z.rem (py pos) g + g) g).

(** ** What a cell holds: the conditions the classifier tests *)

Definition atWall (e : Engine) (pos : Position) : Prop :=
  ~ (0 <= px pos < gridSize (config e) /\ 0 <= py pos < gridSize (config e)).

Definition atSelf (e : Engine) (pos : Position) : Prop :=
  In pos (segments (snake e)).

Definition atFood (e : Engine) (pos : Position) : Prop :=
  exists f, food e = Some f /\ food_position f = pos.

Definition atPowerUp (e : Engine) (pos : Position) : Prop :=
  exists p, In p (powerUps e) /\ pu_position p = pos.

Definition atObstacle (e : Engine) (pos : Position) : Prop :=
  exists o, In o (obstacles e) /\ ob_position o = pos.

(** ** Spawning *)

Definition Qltb (a b : Q) : bool := negb (Qle_bool b a).

Definition occupied (e : Engine) (pos : Position) : bool :=
  existsb (fun s => positionsEqual s pos) (segments (snake e))
  || match food e with
     | Some f => positionsEqual (food_position f) pos
     | None => false
     end
  || existsb (fun p => positionsEqual (pu_position p) pos) (powerUps e)
  || existsb (fun o => positionsEqual (ob_position o) pos) (obstacles e).

(** The two nested loops, [x] outside and [y] inside. *)
Definition getAvailablePositions (e : Engine) : list Position :=
  let n := Z.to_nat (gridSize (config e)) in
  flat_map
    (fun x =>
       flat_map
         (fun y =>
            let pos := mkPosition (Z.of_nat x) (Z.of_nat y) in
            if occupied e pos then [] else [pos])
         (seq 0 n))
    (seq 0 n).

Definition spawnFood (e : Engine) : M Engine :=
  let availablePositions := getAvailablePositions e in
  match availablePositions with
  | [] => ret e
  | _ :: _ =>
      let* position := randomItem availablePositions in
      let* rand := Math_random in
      ret (if Qltb rand (5 # 100)
           then set_food (Some (mkFood position 100 FOOD_GOLDEN)) e
           else if Qltb rand (2 # 10)
           then set_food (Some (mkFood position 50 FOOD_BONUS)) e
           else set_food (Some (mkFood position BASE_FOOD_SCORE FOOD_NORMAL)) e)
  end.

(** [Object.values(PowerUpType)], in declaration order. *)
Definition PowerUpType_values : list PowerUpType :=
  [SPEED; SLOW; GHOST; INVINCIBLE; DOUBLE_POINTS; SHRINK; MAGNET; FREEZE].

Definition spawnPowerUp (now : Z) (e : Engine) : M Engine :=
  if (3 <=? List.length (powerUps e))%nat then ret e
  else
    let availablePositions := getAvailablePositions e in
    match availablePositions with
    | [] => ret e
    | _ :: _ =>
        let* position := randomItem availablePositions in
        let* type := randomItem PowerUpType_values in
        let* id := generateId now in
        ret (set_powerUps
               (powerUps e ++ [mkPowerUp id type position 10000 now]) e)
    end.

Definition getRandomDirection : M Direction :=
  randomItem [DIRECTIONS.UP; DIRECTIONS.DOWN; DIRECTIONS.LEFT; DIRECTIONS.RIGHT].

(** The body of the [for] loop of [generateObstacles], [count] times or
    until no position is available. *)
Fixpoint generateObstaclesLoop (count : nat) (now : Z) (e : Engine) : M Engine :=
  match count with
  | O => ret e
  | S count' =>
      let availablePositions := getAvailablePositions e in
      match availablePositions with
      | [] => ret e
      | _ :: _ =>
          let* position := randomItem availablePositions in
          let* u := Math_random in
          let isMoving := Qltb u (oc_movingChance (OBSTACLE_CONFIG (mode (config e)))) in
          let* id := generateId now in
          let* movingDirection :=
            (if isMoving
             then let* d := getRandomDirection in ret (Some d)
             else ret None) in
          generateObstaclesLoop count' now
            (set_obstacles
               (obstacles e ++
                  [mkObstacle id position (if isMoving then MOVING else STATIC)
                     movingDirection]) e)
      end
  end.

Definition generateObstacles (now : Z) (e : Engine) : M Engine :=
  let obstacleConfig := OBSTACLE_CONFIG (mode (config e)) in
  let count := Z.min (oc_count obstacleConfig + level (stats e) - 1) 15 in
  generateObstaclesLoop (Z.to_nat count) now (set_obstacles [] e).

(** ** Scoring and levels *)

Definition levelUp (now : Z) (newLevel : Z) (e : Engine) : M Engine :=
  let e1 := set_stats (set_level newLevel (stats e)) e in
  let speedConfig := SPEED_CONFIG (difficulty (config e1)) in
  let e2 :=
    set_currentSpeed
      (inject_Z (Z.max (sc_initial speedConfig - (newLevel - 1) * sc_increment speedConfig)
                   (sc_min speedConfig))) e1 in
  let* e3 := generateObstacles now e2 in
  ret (emitEvent (LEVEL_UP newLevel) e3).

(** The combo after a pickup at [now]. *)
Definition updateCombo (now : Z) (e : Engine) : Z :=
  if now - lastFoodTime e <? COMBO_TIME_WINDOW
  then Z.min (combo (stats e) + 1) MAX_COMBO
  else 1.

Definition eatFood (now : Z) (e : Engine) : M Engine :=
  match food e with
  | None => ret e
  | Some f =>
      (* Update combo *)
      let e1 := set_stats (set_combo (updateCombo now e) (stats e)) e in
      let e2 := set_lastFoodTime now e1 in
      (* Calculate and add score *)
      let baseScore := food_value f in
      let points := calculateScore baseScore (combo (stats e2)) (level (stats e2)) in
      let e3 := set_stats (set_score (score (stats e2) + points) (stats e2)) e2 in
      let e4 := set_stats (set_foodEaten (foodEaten (stats e3) + 1) (stats e3)) e3 in
      let e5 := emitEvent (FOOD_EATEN (food_position f) points) e4 in
      (* Check level up *)
      let newLevel := calculateLevel (score (stats e5)) LEVEL_UP_THRESHOLD in
      let* e6 := (if newLevel >? level (stats e5)
                  then levelUp now newLevel e5 else ret e5) in
      (* Spawn new food *)
      let* e7 := spawnFood e6 in
      (* Maybe spawn power-up (arcade mode) *)
      match mode (config e7) with
      | ARCADE =>
          let* u := Math_random in
          if Qltb u POWER_UP_SPAWN_CHANCE then spawnPowerUp now e7 else ret e7
      | _ => ret e7
      end
  end.

(** ** Power-ups *)

Definition PowerUpType_eqb (a b : PowerUpType) : bool :=
  match a, b with
  | SPEED, SPEED | SLOW, SLOW | GHOST, GHOST | INVINCIBLE, INVINCIBLE
  | DOUBLE_POINTS, DOUBLE_POINTS | SHRINK, SHRINK | MAGNET, MAGNET
  | FREEZE, FREEZE => true
  | _, _ => false
  end.

(** [this.activePowerUp?.type === t] *)
Definition activeTypeIs (t : PowerUpType) (e : Engine) : bool :=
  match activePowerUp e with
  | Some a => PowerUpType_eqb (ap_type a) t
  | None => false
  end.

Definition collectPowerUp (now : Z) (powerUp : PowerUp) (e : Engine) : Engine :=
  let e1 :=
    set_stats (set_powerUpsCollected (powerUpsCollected (stats e) + 1) (stats e)) e in
  (* Remove from array *)
  let e2 :=
    set_powerUps
      (List.filter (fun p => negb (id_eqb (pu_id p) (pu_id powerUp))) (powerUps e1)) e1 in
  (* Activate power-up *)
  let e3 :=
    set_activePowerUp
      (Some (mkActivePowerUp (pu_type powerUp) POWER_UP_DURATION now)) e2 in
  (* Apply immediate effects *)
  let e4 :=
    match pu_type powerUp with
    | DOUBLE_POINTS => set_stats (set_score (score (stats e3) * 2) (stats e3)) e3
    | SHRINK =>
        let len := List.length (segments (snake e3)) in
        if (3 <? len)%nat
        then set_snake
               (set_segments
                  (firstn (Z.to_nat ((Z.of_nat len + 1) / 2)) (segments (snake e3)))
                  (snake e3)) e3
        else e3
    | SPEED => set_currentSpeed (Qmax (currentSpeed e3 * (1 # 2)) 20) e3
    | SLOW => set_currentSpeed (Qmin (currentSpeed e3 * 2) 300) e3
    | _ => e3
    end in
  emitEvent (POWER_UP_COLLECTED powerUp) e4.

Definition updatePowerUps (now : Z) (e : Engine) : Engine :=
  (* Update power-up lifetimes *)
  let e1 :=
    set_powerUps
      (List.filter (fun p => now - pu_createdAt p <? pu_lifetime p) (powerUps e)) e in
  (* Update active power-up *)
  match activePowerUp e1 with
  | Some a =>
      let elapsed := now - ap_startTime a in
      if elapsed >=? ap_duration a then
        let initial := inject_Z (sc_initial (SPEED_CONFIG (difficulty (config e1)))) in
        let e2 :=
          match ap_type a with
          | SPEED => set_currentSpeed (Qmin (currentSpeed e1 * 2) initial) e1
          | SLOW => set_currentSpeed (Qmax (currentSpeed e1 * (1 # 2)) initial) e1
          | _ => e1
          end in
        set_activePowerUp None e2
      else e1
  | None => e1
  end.

(** ** Moving obstacles *)

Definition reverseDirection (d : Direction) : Direction :=
  mkDirection (- dx d) (- dy d).

Definition set_ob_position (v : Position) (o : Obstacle) : Obstacle :=
  mkObstacle (ob_id o) v (ob_type o) (ob_movingDirection o).

Definition set_ob_movingDirection (v : option Direction) (o : Obstacle) : Obstacle :=
  mkObstacle (ob_id o) (ob_position o) (ob_type o) v.

(** The body of the loop of [updateObstacles] for one obstacle. *)
Definition updateObstacle (e : Engine) (obstacle : Obstacle) : Obstacle :=
  match ob_type obstacle, ob_movingDirection obstacle with
  | MOVING, Some d =>
      let newPos :=
        mkPosition (px (ob_position obstacle) + dx d)
                   (py (ob_position obstacle) + dy d) in
      if negb (isInBounds newPos (gridSize (config e)))
      then (* Bounce off walls *)
        set_ob_movingDirection (Some (reverseDirection d)) obstacle
      else
        let occupied :=
          existsb (fun s => positionsEqual s newPos) (segments (snake e))
          || match food e with
             | Some f => positionsEqual (food_position f) newPos
             | None => false
             end in
        if negb occupied
        then set_ob_position newPos obstacle
        else set_ob_movingDirection (Some (reverseDirection d)) obstacle
  | _, _ => obstacle
  end.

Definition updateObstacles (e : Engine) : Engine :=
  set_obstacles (List.map (updateObstacle e) (obstacles e)) e.

(** ** Death *)

Definition resetSnakePosition (e : Engine) : Engine :=
  set_snake
    (set_nextDirection DIRECTIONS.RIGHT
       (set_direction DIRECTIONS.RIGHT
          (set_segments (initialSegments (gridSize (config e))) (snake e)))) e.

Definition gameOver (e : Engine) : Engine :=
  let e1 := set_state GAME_OVER e in
  emitEvent (GAME_OVER_EVENT (stats e1)) e1.

Definition handleDeath (e : Engine) : Engine :=
  let e1 := set_stats (set_lives (lives (stats e) - 1) (stats e)) e in
  let e2 := emitEvent (COLLISION "death") e1 in
  if lives (stats e2) <=? 0
  then gameOver e2
  else resetSnakePosition e2.

(** ** The logical step *)

Definition CollisionType_eqb (a b : CollisionType) : bool :=
  match a, b with
  | T_none, T_none | T_wall, T_wall | T_self, T_self
  | T_obstacle, T_obstacle | T_food, T_food | T_powerup, T_powerup => true
  | _, _ => false
  end.

Definition updateGameLogic (now : Z) (e : Engine) : M Engine :=
  (* Update direction *)
  let e1 := set_snake (set_direction (nextDirection (snake e)) (snake e)) e in
  (* Calculate new head position *)
  match segments (snake e1) with
  | [] => throw   (* [currentHead] is [undefined] *)
  | currentHead :: _ =>
      let newHead :=
        mkPosition (px currentHead + dx (direction (snake e1)))
                   (py currentHead + dy (direction (snake e1))) in
      (* Handle wall collision based on power-ups *)
      let collision := checkCollision e1 newHead in
      let isWall := CollisionType_eqb (coll_type collision) T_wall in
      if isWall && negb (activeTypeIs GHOST e1) then ret (handleDeath e1)
      else
        let newHead := if isWall then wrapPosition e1 newHead else newHead in
        (* Check self collision *)
        if CollisionType_eqb (coll_type collision) T_self
           && negb (activeTypeIs INVINCIBLE e1)
        then ret (handleDeath e1)
        else
          (* Check obstacle collision *)
          if CollisionType_eqb (coll_type collision) T_obstacle
             && negb (activeTypeIs INVINCIBLE e1)
             && negb (activeTypeIs GHOST e1)
          then ret (handleDeath e1)
          else
            (* Move snake *)
            let e2 :=
              set_snake (set_segments (newHead :: segments (snake e1)) (snake e1)) e1 in
            (* Check food collision *)
            let* e3 :=
              (match collision with
               | CollFood _ _ => eatFood now e2
               | _ =>
                   ret (set_snake
                          (set_segments (removelast (segments (snake e2))) (snake e2))
                          e2)
               end) in
            (* Check power-up collision *)
            match collision with
            | CollPowerup _ powerUp => ret (collectPowerUp now powerUp e3)
            | _ => ret e3
            end
  end.

(** ** The stages of the logical step *)

(** The engine once the queued direction is applied ("Update direction"). *)
Definition turn (e : Engine) : Engine :=
  set_snake (set_direction (nextDirection (snake e)) (snake e)) e.

(** The candidate new head: one cell from [currentHead] in the queued
    direction. *)
Definition candidateHead (e : Engine) (currentHead : Position) : Position :=
  mkPosition (px currentHead + dx (nextDirection (snake e)))
             (py currentHead + dy (nextDirection (snake e))).

(** The collisions on which [updateGameLogic] calls [handleDeath]. *)
Definition lethal (e : Engine) (collision : CollisionResult) : bool :=
  match coll_type collision with
  | T_wall => negb (activeTypeIs GHOST e)
  | T_self => negb (activeTypeIs INVINCIBLE e)
  | T_obstacle => negb (activeTypeIs INVINCIBLE e) && negb (activeTypeIs GHOST e)
  | _ => false
  end.

(** The snake after a move to [head] without growth, and after a move
    with growth. *)
Definition moved (e : Engine) (head : Position) : Engine :=
  set_snake
    (mkSnake (head :: removelast (segments (snake e)))
       (nextDirection (snake e)) (nextDirection (snake e))
       (snake_length (snake e))) e.

Definition grown (e : Engine) (head : Position) : Engine :=
  set_snake
    (mkSnake (head :: segments (snake e))
       (nextDirection (snake e)) (nextDirection (snake e))
       (snake_length (snake e))) e.

(** ** The public methods *)

Definition GameState_eqb (a b : GameState) : bool :=
  match a, b with
  | MENU, MENU | PLAYING, PLAYING | PAUSED, PAUSED
  | GAME_OVER, GAME_OVER | LOADING, LOADING => true
  | _, _ => false
  end.

Definition init (now : Z) (e : Engine) : M Engine :=
  let* e1 := spawnFood (reset now e) in
  generateObstacles now e1.

Definition update (deltaTime : Q) (now : Z) (e : Engine) : M Engine :=
  if negb (GameState_eqb (state e) PLAYING) then ret e
  else
    let e1 := set_stats (set_timeElapsed (timeElapsed (stats e) + deltaTime) (stats e)) e in
    let e2 := set_moveAccumulator (moveAccumulator e1 + deltaTime) e1 in
    (* Update at fixed timestep based on current speed *)
    let* e3 :=
      (if Qle_bool (currentSpeed e2) (moveAccumulator e2)
       then updateGameLogic now (set_moveAccumulator 0 e2)
       else ret e2) in
    (* Update power-ups *)
    let e4 := updatePowerUps now e3 in
    (* Update moving obstacles *)
    let e5 := if Z.rem (frameCount e4) 10 =? 0 then updateObstacles e4 else e4 in
    ret (set_frameCount (frameCount e5 + 1) e5).

Definition changeDirection (d : Direction) (e : Engine) : Engine :=
  (* Prevent 180-degree turns *)
  if negb (areOppositeDirections d (direction (snake e)))
  then set_snake (set_nextDirection d (snake e)) e
  else e.

Definition getState (e : Engine) : GameState := state e.

Definition setState (s : GameState) (e : Engine) : Engine := set_state s e.

(** What a reader finds in the object [getSnake()] returns, at the time
    it is returned: the fields of [this.snake]. *)
Definition getSnake (e : Engine) : Snake :=
  mkSnake (segments (snake e)) (direction (snake e)) (nextDirection (snake e))
    (snake_length (snake e)).

Definition getStats (e : Engine) : GameStats := stats e.

(** ** Reachable states *)

(** The states a client can bring an engine to with its public methods,
    at any times and with any random samples. *)
Inductive reachable : Engine -> Prop :=
  | reachable_new (cfg : GameConfig) :
      reachable (constructor cfg)
  | reachable_init (now : Z) (e e' : Engine) (r r' : RandomSource) :
      reachable e -> init now e r = Some (e', r') -> reachable e'
  | reachable_update (deltaTime : Q) (now : Z) (e e' : Engine)
      (r r' : RandomSource) :
      reachable e -> update deltaTime now e r = Some (e', r') -> reachable e'
  | reachable_changeDirection (d : Direction) (e : Engine) :
      reachable e -> reachable (changeDirection d e)
  | reachable_setState (s : GameState) (e : Engine) :
      reachable e -> reachable (setState s e).

(** ** The calls between two pickups *)

(** What the combo rule reads and writes: the count of pickups, the combo
    and the time of the last pickup. *)
Definition comboClock (e : Engine) : Z * Z * Z :=
  (foodEaten (stats e), combo (stats e), lastFoodTime e).

(** [idle e e']: a client brings the engine from [e] to [e'] with ticks in
    which no food is eaten and with [changeDirection] and [setState]. *)
Inductive idle : Engine -> Engine -> Prop :=
  | idle_done (e : Engine) : idle e e
  | idle_update (deltaTime : Q) (now : Z) (e : Engine) (r : RandomSource)
      (e1 : Engine) (r1 : RandomSource) (e2 : Engine) :
      update deltaTime now e r = Some (e1, r1) ->
      foodEaten (stats e1) = foodEaten (stats e) ->
      idle e1 e2 -> idle e e2
  | idle_changeDirection (d : Direction) (e e2 : Engine) :
      idle (changeDirection d e) e2 -> idle e e2
  | idle_setState (s : GameState) (e e2 : Engine) :
      idle (setState s e) e2 -> idle e e2.

(* ===================================================================== *)
(** * Objects and references: what the snapshot getters share             *)
(* ===================================================================== *)

(** The getters copy with the spread syntax, [{ ...this.snake }] and
    [[...this.powerUps]]: what a reader can do to the engine through a
    snapshot depends on which objects the copy shares with the engine.
    This part models the objects of the engine as a store of records and
    arrays that hold primitive values and references. *)

Module Store.

Local Open Scope string_scope.
Local Open Scope list_scope.

Abbreviation loc := nat (only parsing).

(** Primitive values. *)
Inductive prim :=
  | PUndefined
  | PNull
  | PNum (q : Q)
  | PStr (s : string)
  | PBool (b : bool).

Inductive val :=
  | VPrim (p : prim)
  | VRef (l : loc).

Inductive obj :=
  | ORec (fields : list (string * val))   (* an object and its own fields *)
  | OArr (elems : list val).               (* an array *)

(** The address of an object is its index; allocation appends. *)
Abbreviation heap := (list obj) (only parsing).

Definition alloc (o : obj) (h : heap) : loc * heap :=
  (List.length h, h ++ [o]).

Definition VNum (z : Z) : val := VPrim (PNum (inject_Z z)).
Definition VStr (s : string) : val := VPrim (PStr s).
Definition VNull : val := VPrim PNull.
Definition VUndefined : val := VPrim PUndefined.

(** [o.f] and [o.f = v] on the fields of a record. *)
Fixpoint getField (f : string) (fs : list (string * val)) : val :=
  match fs with
  | [] => VUndefined
  | (g, v) :: fs' => if String.eqb f g then v else getField f fs'
  end.

Fixpoint setField (f : string) (v : val) (fs : list (string * val))
  : list (string * val) :=
  match fs with
  | [] => [(f, v)]
  | (g, w) :: fs' =>
      if String.eqb f g then (g, v) :: fs' else (g, w) :: setField f v fs'
  end.

(** [a[i] = v]: in range it replaces, beyond the end it extends. *)
Definition setIndex (i : nat) (v : val) (vs : list val) : list val :=
  if (i <? List.length vs)%nat then <[i := v]> vs
  else vs ++ repeat VUndefined (i - List.length vs) ++ [v].

Definition obj_vals (o : obj) : list val :=
  match o with
  | ORec fs => List.map snd fs
  | OArr vs => vs
  end.

(** ** The objects of a new engine *)

Definition Difficulty_str (d : Difficulty) : string :=
  match d with
  | EASY => "easy" | NORMAL => "normal" | HARD => "hard" | INSANE => "insane"
  end.

Definition Theme_str (t : Theme) : string :=
  match t with
  | THEME_NEON => "neon" | THEME_CLASSIC => "classic" | RAINBOW => "rainbow"
  | FIRE => "fire" | ICE => "ice" | MATRIX => "matrix"
  | CYBERPUNK => "cyberpunk"
  end.

Definition GameMode_str (m : GameMode) : string :=
  match m with
  | CLASSIC => "classic" | ARCADE => "arcade" | SURVIVAL => "survival"
  | CHALLENGE => "challenge" | MULTIPLAYER => "multiplayer"
  end.

Definition Direction_obj (d : Direction) : obj :=
  ORec [("x", VNum (dx d)); ("y", VNum (dy d))].

Definition Position_obj (p : Position) : obj :=
  ORec [("x", VNum (px p)); ("y", VNum (py p))].

(** The module constant [DIRECTIONS]: UP, DOWN, LEFT, RIGHT at the
    addresses 0 to 3. *)
Definition globals : heap :=
  [Direction_obj DIRECTIONS.UP; Direction_obj DIRECTIONS.DOWN;
   Direction_obj DIRECTIONS.LEFT; Direction_obj DIRECTIONS.RIGHT].

Definition DIRECTIONS_RIGHT : loc := 3%nat.

Definition GameConfig_obj (cfg : GameConfig) : obj :=
  ORec [("gridSize", VNum (gridSize cfg));
        ("cellSize", VNum (cellSize cfg));
        ("initialSpeed", VNum (initialSpeed cfg));
        ("speedIncrement", VNum (speedIncrement cfg));
        ("maxSpeed", VNum (maxSpeed cfg));
        ("difficulty", VStr (Difficulty_str (difficulty cfg)));
        ("theme", VStr (Theme_str (theme cfg)));
        ("mode", VStr (GameMode_str (mode cfg)));
        ("soundEnabled", VPrim (PBool (soundEnabled cfg)));
        ("musicEnabled", VPrim (PBool (musicEnabled cfg)))].

Definition GameStats_obj (s : GameStats) : obj :=
  ORec [("score", VNum (score s));
        ("level", VNum (level s));
        ("lives", VNum (lives s));
        ("combo", VNum (combo s));
        ("foodEaten", VNum (foodEaten s));
        ("powerUpsCollected", VNum (powerUpsCollected s));
        ("timeElapsed", VPrim (PNum (timeElapsed s)));
        ("highScore", VNum (highScore s))].

(** Allocate one object per element, in order. *)
Fixpoint allocAll (os : list obj) (h : heap) : list loc * heap :=
  match os with
  | [] => ([], h)
  | o :: os' =>
      let (l, h1) := alloc o h in
      let (ls, h2) := allocAll os' h1 in
      (l :: ls, h2)
  end.

(** [new GameEngine(config)] where [config] is a fresh object literal,
    as the game component passes it: the store afterwards, and the
    address of the engine.  The snake's two directions are the one
    object [DIRECTIONS.RIGHT]; [this.config] is the caller's object. *)
Definition construct (cfg : GameConfig) : heap * loc :=
  let (configRef, h1) := alloc (GameConfig_obj cfg) globals in
  let (powerUpsRef, h2) := alloc (OArr []) h1 in
  let (obstaclesRef, h3) := alloc (OArr []) h2 in
  let (cells, h4) :=
    allocAll (List.map Position_obj (initialSegments (gridSize cfg))) h3 in
  let (segmentsRef, h5) := alloc (OArr (List.map VRef cells)) h4 in
  let (snakeRef, h6) :=
    alloc (ORec [("segments", VRef segmentsRef);
                 ("direction", VRef DIRECTIONS_RIGHT);
                 ("nextDirection", VRef DIRECTIONS_RIGHT);
                 ("length", VNum INITIAL_SNAKE_LENGTH)]) h5 in
  let (statsRef, h7) := alloc (GameStats_obj (stats (constructor cfg))) h6 in
  let (this, h8) :=
    alloc (ORec [("state", VStr "menu");
                 ("config", VRef configRef);
                 ("snake", VRef snakeRef);
                 ("food", VNull);
                 ("powerUps", VRef powerUpsRef);
                 ("obstacles", VRef obstaclesRef);
                 ("activePowerUp", VNull);
                 ("stats", VRef statsRef);
                 ("lastFoodTime", VNum 0);
                 ("moveAccumulator", VNum 0);
                 ("currentSpeed",
                  VNum (sc_initial (SPEED_CONFIG (difficulty cfg))));
                 ("frameCount", VNum 0)]) h7 in
  (h8, this).

(** ** The getters *)

(** [this.f] *)
Definition thisField (h : heap) (this : loc) (f : string) : val :=
  match h !! this with
  | Some (ORec fs) => getField f fs
  | _ => VUndefined
  end.

(** [{ ...v }] for a record [v]: a new record with the same fields. *)
Definition spreadObject (h : heap) (v : val) : option (val * heap) :=
  match v with
  | VRef l =>
      match h !! l with
      | Some (ORec fs) => let (s, h') := alloc (ORec fs) h in Some (VRef s, h')
      | _ => None
      end
  | VPrim _ => None
  end.

(** [[...v]] for an array [v]: a new array with the same elements. *)
Definition spreadArray (h : heap) (v : val) : option (val * heap) :=
  match v with
  | VRef l =>
      match h !! l with
      | Some (OArr vs) => let (s, h') := alloc (OArr vs) h in Some (VRef s, h')
      | _ => None
      end
  | VPrim _ => None
  end.

(** [v ? { ...v } : null], for [v] an object, [null] or [undefined]. *)
Definition spreadOrNull (h : heap) (v : val) : option (val * heap) :=
  match v with
  | VPrim PNull | VPrim PUndefined => Some (VNull, h)
  | _ => spreadObject h v
  end.

Definition getSnake (h : heap) (this : loc) : option (val * heap) :=
  spreadObject h (thisField h this "snake").

Definition getFood (h : heap) (this : loc) : option (val * heap) :=
  spreadOrNull h (thisField h this "food").

Definition getPowerUps (h : heap) (this : loc) : option (val * heap) :=
  spreadArray h (thisField h this "powerUps").

Definition getObstacles (h : heap) (this : loc) : option (val * heap) :=
  spreadArray h (thisField h this "obstacles").

Definition getActivePowerUp (h : heap) (this : loc) : option (val * heap) :=
  spreadOrNull h (thisField h this "activePowerUp").

Definition getStats (h : heap) (this : loc) : option (val * heap) :=
  spreadObject h (thisField h this "stats").

Definition getConfig (h : heap) (this : loc) : option (val * heap) :=
  spreadObject h (thisField h this "config").

Inductive getter :=
  | GSnake | GFood | GPowerUps | GObstacles | GActivePowerUp | GStats | GConfig.

Definition get (g : getter) : heap -> loc -> option (val * heap) :=
  match g with
  | GSnake => getSnake
  | GFood => getFood
  | GPowerUps => getPowerUps
  | GObstacles => getObstacles
  | GActivePowerUp => getActivePowerUp
  | GStats => getStats
  | GConfig => getConfig
  end.

(** The field of the engine a getter copies. *)
Definition source (g : getter) : string :=
  match g with
  | GSnake => "snake"
  | GFood => "food"
  | GPowerUps => "powerUps"
  | GObstacles => "obstacles"
  | GActivePowerUp => "activePowerUp"
  | GStats => "stats"
  | GConfig => "config"
  end.

(** ** What a reader does with a snapshot *)

Inductive key :=
  | KField (f : string)
  | KIndex (i : nat).

Definition path := list key.

(** [v.k], [undefined] where there is nothing to read. *)
Definition readKey (h : heap) (v : val) (k : key) : val :=
  match v with
  | VRef l =>
      match h !! l, k with
      | Some (ORec fs), KField f => getField f fs
      | Some (OArr vs), KIndex i => nth i vs VUndefined
      | _, _ => VUndefined
      end
  | VPrim _ => VUndefined
  end.

(** [root.k1.k2...] *)
Fixpoint resolve (h : heap) (root : val) (p : path) : val :=
  match p with
  | [] => root
  | k :: p' => resolve h (readKey h root k) p'
  end.

(** The right-hand side of an assignment: a primitive literal, or a
    value read from the snapshot. *)
Inductive rhs :=
  | RLit (c : prim)
  | RPath (p : path).

Definition evalRhs (h : heap) (root : val) (r : rhs) : val :=
  match r with
  | RLit c => VPrim c
  | RPath p => resolve h root p
  end.

(** Object and array expressions over such right-hand sides, and
    literals of primitives. *)
Inductive objexpr :=
  | ERec (fields : list (string * rhs))
  | EArr (elems : list rhs).

Definition evalObj (h : heap) (root : val) (e : objexpr) : obj :=
  match e with
  | ERec fs => ORec (List.map (fun fr => (fst fr, evalRhs h root (snd fr))) fs)
  | EArr rs => OArr (List.map (evalRhs h root) rs)
  end.

Inductive objlit :=
  | LRec (fields : list (string * prim))
  | LArr (elems : list prim).

Definition objOfLit (o : objlit) : obj :=
  match o with
  | LRec fs => ORec (List.map (fun fc => (fst fc, VPrim (snd fc))) fs)
  | LArr cs => OArr (List.map VPrim cs)
  end.

(** The statements of a reader, on the snapshot [snap] and what is
    reached from it along a path [p]. *)
Inductive mutation :=
  | MSet (p : path) (k : key) (r : rhs)        (* [snap.p[k] = r] *)
  | MSetNew (p : path) (k : key) (o : objlit)  (* [snap.p[k] = { ... }] *)
  | MPush (p : path) (r : rhs)                 (* [snap.p.push(r)] *)
  | MPop (p : path)                            (* [snap.p.pop()] *)
  | MWrite (p : path) (e : objexpr).           (* any other update in place:
                                                  [snap.p] then holds [e] *)

Definition target (m : mutation) : path :=
  match m with
  | MSet p _ _ | MSetNew p _ _ | MPush p _ | MPop p | MWrite p _ => p
  end.

(** [o[k] = v] *)
Definition updateKey (k : key) (v : val) (o : obj) : obj :=
  match o, k with
  | ORec fs, KField f => ORec (setField f v fs)
  | OArr vs, KIndex i => OArr (setIndex i v vs)
  | _, _ => o
  end.

Definition pushVal (v : val) (o : obj) : obj :=
  match o with
  | OArr vs => OArr (vs ++ [v])
  | ORec _ => o
  end.

Definition popVal (o : obj) : obj :=
  match o with
  | OArr vs => OArr (removelast vs)
  | ORec _ => o
  end.

(** Update in place the object a value refers to; a statement on
    anything else throws and changes nothing. *)
Definition modify (h : heap) (v : val) (f : obj -> obj) : heap :=
  match v with
  | VRef l =>
      match h !! l with
      | Some o => <[l := f o]> h
      | None => h
      end
  | VPrim _ => h
  end.

Definition apply (snap : val) (h : heap) (m : mutation) : heap :=
  match m with
  | MSet p k r =>
      modify h (resolve h snap p) (updateKey k (evalRhs h snap r))
  | MSetNew p k o =>
      match resolve h snap p with
      | VRef l =>
          match h !! l with
          | Some _ =>
              let (fresh, h') := alloc (objOfLit o) h in
              modify h' (VRef l) (updateKey k (VRef fresh))
          | None => h
          end
      | VPrim _ => h
      end
  | MPush p r => modify h (resolve h snap p) (pushVal (evalRhs h snap r))
  | MPop p => modify h (resolve h snap p) popVal
  | MWrite p e => modify h (resolve h snap p) (fun _ => evalObj h snap e)
  end.

Definition run (snap : val) (ms : list mutation) (h : heap) : heap :=
  fold_left (apply snap) ms h.

(** ** The state of the engine *)

(** What is read from a value down to a depth: the state of the engine
    is what is read from [this]. *)
#[local] Unset Elimination Schemes.
Inductive tree :=
  | TPrim (c : prim)
  | TRec (fields : list (string * tree))
  | TArr (elems : list tree)
  | TDeeper
  | TDangling.
#[local] Set Elimination Schemes.

Fixpoint observe (depth : nat) (h : heap) (v : val) : tree :=
  match v with
  | VPrim c => TPrim c
  | VRef l =>
      match depth with
      | O => TDeeper
      | S d =>
          match h !! l with
          | Some (ORec fs) =>
              TRec (List.map (fun fv => (fst fv, observe d h (snd fv))) fs)
          | Some (OArr vs) => TArr (List.map (observe d h) vs)
          | None => TDangling
          end
      end
  end.

(** ** Well-formed stores *)

Definition below (n : nat) (v : val) : Prop :=
  match v with
  | VRef l => (l < n)%nat
  | VPrim _ => True
  end.

(** No object refers beyond the store. *)
Definition closed (h : heap) : Prop :=
  Forall (fun o => Forall (below (List.length h)) (obj_vals o)) h.

Definition isPrim (v : val) : Prop :=
  match v with
  | VPrim _ => True
  | VRef _ => False
  end.

(** The object a field of the engine refers to holds primitives only,
    as the types [GameStats], [GameConfig] and [ActivePowerUp] say. *)
Definition flatField (h : heap) (this : loc) (f : string) : Prop :=
  forall l o, thisField h this f = VRef l -> h !! l = Some o ->
              Forall isPrim (obj_vals o).

End Store.

(** ** Independence of a snapshot *)

(** A snapshot is independent of the engine when no statements of a
    reader on it change what is read from [this], at any depth. *)
Definition independent (g : Store.getter) (h : Store.heap) (this : Store.loc) : Prop :=
  forall snap h1,
    Store.get g h this = Some (snap, h1) ->
    forall (ms : list Store.mutation) (depth : nat),
      Store.observe depth (Store.run snap ms h1) (Store.VRef this)
      = Store.observe depth h (Store.VRef this).

(** A store agrees with [h] on the objects of [h], which all lie below
    [n]. *)
Definition agree (n : nat) (h h' : Store.heap) : Prop :=
  (n <= List.length h')%nat /\ forall l, (l < n)%nat -> h' !! l = h !! l.

(** A value is primitive or refers to an object allocated at or after
    [n]. *)
Definition fresh (n : nat) (v : Store.val) : Prop :=
  match v with
  | Store.VRef l => (n <= l)%nat
  | Store.VPrim _ => True
  end.

(** The objects allocated at or after [n] refer to such objects only. *)
Definition separate (n : nat) (h : Store.heap) : Prop :=
  forall l o, (n <= l)%nat -> h !! l = Some o -> Forall (fresh n) (Store.obj_vals o).

(* ===================================================================== *)
(** * Sample states                                                       *)
(* ===================================================================== *)

(** The configuration the game component builds, for a difficulty and a
    mode, on the 25 x 25 grid. *)
Definition sampleConfig (d : Difficulty) (m : GameMode) : GameConfig :=
  mkGameConfig 25 16 100 5 20 d THEME_NEON m true true.

Definition noSamples : RandomSource := mkRandomSource (fun _ => 0%Q) 0.

(** A cell that holds both the food and an obstacle. *)
Definition crowdedCell : Engine :=
  set_obstacles [mkObstacle (0, 0%Q) (mkPosition 5 5) STATIC None]
    (set_food (Some (mkFood (mkPosition 5 5) 10 FOOD_NORMAL))
       (constructor (sampleConfig NORMAL ARCADE))).

(** The last life, and an obstacle on the cell in front of the snake. *)
Definition obstacleAhead : Engine :=
  set_obstacles [mkObstacle (0, 0%Q) (mkPosition 13 12) STATIC None]
    (constructor (sampleConfig INSANE CLASSIC)).

(** A ghost snake about to leave the grid on the right, and the food on
    the cell it wraps to. *)
Definition ghostAtEdge : Engine :=
  set_activePowerUp (Some (mkActivePowerUp GHOST POWER_UP_DURATION 0))
    (set_food (Some (mkFood (mkPosition 0 12) 10 FOOD_NORMAL))
       (set_snake
          (mkSnake [mkPosition 24 12; mkPosition 23 12; mkPosition 22 12]
             DIRECTIONS.RIGHT DIRECTIONS.RIGHT INITIAL_SNAKE_LENGTH)
          (constructor (sampleConfig NORMAL ARCADE)))).

(** A new engine set to play. *)
Definition playing : Engine :=
  setState PLAYING (constructor (sampleConfig NORMAL CLASSIC)).

Definition speedPowerUp : PowerUp :=
  mkPowerUp (0, 0%Q) SPEED (mkPosition 13 12) 10000 0.

(** A short game: a normal, classic engine is initialised at time 1000
    with samples that put the food on the cell in front of the snake, and
    the next food on the cell after it; it is set to play and ticked after
    100 ms. *)
Definition mealSamples : RandomSource :=
  mkRandomSource (fun n => nth n [669 # 1244; 1 # 2; 717 # 1242; 1 # 2]%Q 0%Q) 0.

Definition mealRun : option (Engine * RandomSource) :=
  (let* e1 := init 1000 (constructor (sampleConfig NORMAL CLASSIC)) in
   update 100 1100 (setState PLAYING e1)) mealSamples.

(** The states of that game: before the first tick, after it, and after
    a second tick 100 ms later. *)
Definition orNew (o : option (Engine * RandomSource)) : Engine * RandomSource :=
  match o with
  | Some er => er
  | None => (constructor (sampleConfig NORMAL CLASSIC), noSamples)
  end.

Definition served : Engine * RandomSource :=
  let er := orNew (init 1000 (constructor (sampleConfig NORMAL CLASSIC)) mealSamples) in
  (setState PLAYING (fst er), snd er).

Definition firstMeal : Engine * RandomSource :=
  orNew (update 100 1100 (fst served) (snd served)).

Definition secondMeal : Engine * RandomSource :=
  orNew (update 100 1200 (fst firstMeal) (snd firstMeal)).

(** An arcade game: five obstacles in the first column, the food on the
    cell in front of the snake, and after the meal a shrink power-up on
    the cell after it, picked up by the second tick. *)
Definition shrinkSamples : RandomSource :=
  mkRandomSource
    (fun n =>
       nth n [669 # 1244; 1 # 2;
              0; 1 # 2; 0;  0; 1 # 2; 0;  0; 1 # 2; 0;  0; 1 # 2; 0;  0; 1 # 2; 0;
              1 # 2; 1 # 2; 0; 705 # 1230; 11 # 16; 0]%Q 0%Q) 0.

Definition shrinkRun : option (Engine * RandomSource) :=
  (let* e1 := init 1000 (constructor (sampleConfig NORMAL ARCADE)) in
   let* e2 := update 100 1100 (setState PLAYING e1) in
   update 100 1200 e2) shrinkSamples.

(** The store and the engine of a new normal, classic game. *)
Definition sampleStore : Store.heap * Store.loc :=
  Store.construct (sampleConfig NORMAL CLASSIC).

(* ===================================================================== *)
(** * Further vocabulary of the properties                                *)
(* ===================================================================== *)

(** A cell of the grid. *)
Definition onGrid (e : Engine) (pos : Position) : Prop :=
  0 <= px pos < gridSize (config e) /\ 0 <= py pos < gridSize (config e).

(** A cell of the grid that holds no snake segment, no food and no
    power-up. *)
Definition clearOfOthers (e : Engine) (pos : Position) : Prop :=
  onGrid e pos /\ ~ atSelf e pos /\ ~ atFood e pos /\ ~ atPowerUp e pos.

(** A field of obstacles on such cells, no two on one cell; a moving
    obstacle has one of the four directions, a static one has none. *)
Definition wellPlaced (e : Engine) (os : list Obstacle) : Prop :=
  NoDup (List.map ob_position os)
  /\ Forall (fun o => clearOfOthers e (ob_position o)) os.

Definition isUnitDirection (d : Direction) : Prop :=
  d = DIRECTIONS.UP \/ d = DIRECTIONS.DOWN \/ d = DIRECTIONS.LEFT
  \/ d = DIRECTIONS.RIGHT.

Definition wellTyped (o : Obstacle) : Prop :=
  match ob_type o with
  | MOVING => exists d, ob_movingDirection o = Some d /\ isUnitDirection d
  | STATIC => ob_movingDirection o = None
  end.

(** The cell one step from an obstacle in a direction. *)
Definition cellAhead (o : Obstacle) (d : Direction) : Position :=
  mkPosition (px (ob_position o) + dx d) (py (ob_position o) + dy d).

(** What one round of [updateObstacles] may do to an obstacle: nothing to
    one that does not move; a step to the cell ahead when that cell is on
    the grid and holds neither the snake nor the food; a reversal of the
    direction, in place, otherwise. *)
Definition obstacleRound (e : Engine) (o o' : Obstacle) : Prop :=
  match ob_type o, ob_movingDirection o with
  | MOVING, Some d =>
      (o' = set_ob_position (cellAhead o d) o
       /\ onGrid e (cellAhead o d)
       /\ ~ atSelf e (cellAhead o d)
       /\ ~ atFood e (cellAhead o d))
      \/ (o' = set_ob_movingDirection (Some (reverseDirection d)) o
          /\ (~ onGrid e (cellAhead o d)
              \/ atSelf e (cellAhead o d)
              \/ atFood e (cellAhead o d)))
  | _, _ => o' = o
  end.

(** The 10 x 10 grid with one obstacle at its right edge, heading right. *)
Definition edgeObstacle : Engine :=
  set_obstacles
    [mkObstacle (0, 0%Q) (mkPosition 9 5) MOVING (Some DIRECTIONS.RIGHT)]
    (constructor (mkGameConfig 10 16 100 5 20 NORMAL THEME_NEON ARCADE true true)).

(** ** The stages of a tick *)

(** The engine once [update] has added [deltaTime] to the elapsed time and
    to the move accumulator. *)
Definition clocked (deltaTime : Q) (e : Engine) : Engine :=
  set_moveAccumulator (moveAccumulator e + deltaTime)
    (set_stats (set_timeElapsed (timeElapsed (stats e) + deltaTime) (stats e)) e).

(** What [update] does after the logical step: the power-ups, the
    obstacles on every tenth frame, the frame count. *)
Definition afterStep (now : Z) (e : Engine) : Engine :=
  let e4 := updatePowerUps now e in
  let e5 := if Z.rem (frameCount e4) 10 =? 0 then updateObstacles e4 else e4 in
  set_frameCount (frameCount e5 + 1) e5.

(** The engine a meal scores on: combo, time of the meal, score and count
    of meals written, the event emitted. *)
Definition scored (now : Z) (f : Food) (e : Engine) : Engine :=
  let points := calculateScore (food_value f) (updateCombo now e) (level (stats e)) in
  emitEvent (FOOD_EATEN (food_position f) points)
    (set_stats
       (mkGameStats (score (stats e) + points) (level (stats e)) (lives (stats e))
          (updateCombo now e) (foodEaten (stats e) + 1)
          (powerUpsCollected (stats e)) (timeElapsed (stats e))
          (highScore (stats e)))
       (set_lastFoodTime now e)).

(** ** States reached with given directions *)

(** The states a client can bring an engine to when every direction it
    passes to [changeDirection] satisfies [D]. *)
Inductive reachableBy (D : Direction -> Prop) : Engine -> Prop :=
  | reachableBy_new (cfg : GameConfig) :
      reachableBy D (constructor cfg)
  | reachableBy_init (now : Z) (e e' : Engine) (r r' : RandomSource) :
      reachableBy D e -> init now e r = Some (e', r') -> reachableBy D e'
  | reachableBy_update (deltaTime : Q) (now : Z) (e e' : Engine)
      (r r' : RandomSource) :
      reachableBy D e -> update deltaTime now e r = Some (e', r') ->
      reachableBy D e'
  | reachableBy_changeDirection (d : Direction) (e : Engine) :
      D d -> reachableBy D e -> reachableBy D (changeDirection d e)
  | reachableBy_setState (s : GameState) (e : Engine) :
      reachableBy D e -> reachableBy D (setState s e).

(* ===================================================================== *)
(** * More of the helpers ([game/utils/helpers.ts])                       *)
(* ===================================================================== *)

(** [Math.max(min, Math.min(max, value))], on finite numbers. *)
Definition clamp (value min max : Q) : Q := Qmax min (Qmin max value).

(** [value >= min && value <= max] *)
Definition inRange (value min max : Q) : bool :=
  Qle_bool min value && Qle_bool value max.

Definition manhattanDistance (pos1 pos2 : Position) : Z :=
  Z.abs (px pos1 - px pos2) + Z.abs (py pos1 - py pos2).

(** The object literal draws [x] first, then [y]. *)
Definition getRandomPosition (gridSize : Z) : M Position :=
  let* u := Math_random in
  let* v := Math_random in
  ret (mkPosition (Qfloor (u * inject_Z gridSize)) (Qfloor (v * inject_Z gridSize))).

(** [[shuffled[i], shuffled[j]] = [shuffled[j], shuffled[i]]]: both reads,
    then both writes.  A read out of range gives [undefined], which an
    array of [T] does not hold: the computation stops there. *)
Definition swap {A : Type} (shuffled : list A) (i j : nat) : M (list A) :=
  match shuffled !! j, shuffled !! i with
  | Some b, Some a => ret (<[j := a]> (<[i := b]> shuffled))
  | _, _ => throw
  end.

(** The [for] loop of [shuffleArray], from index [i] down to 1. *)
Fixpoint shuffleLoop {A : Type} (i : nat) (shuffled : list A) : M (list A) :=
  match i with
  | O => ret shuffled
  | S i' =>
      let* j := randomIndex (i + 1) in
      let* shuffled' := swap shuffled i j in
      shuffleLoop i' shuffled'
  end.

Definition shuffleArray {A : Type} (array : list A) : M (list A) :=
  shuffleLoop (List.length array - 1) array.

(** ** The board *)

(** Every piece on a cell of the grid; the food on a cell that holds no
    power-up and no obstacle; no two power-ups on one cell. *)
Definition placed (e : Engine) : Prop :=
  Forall (onGrid e) (segments (snake e))
  /\ (forall f, food e = Some f ->
        onGrid e (food_position f)
        /\ ~ atPowerUp e (food_position f)
        /\ ~ atObstacle e (food_position f))
  /\ Forall (fun p => onGrid e (pu_position p)) (powerUps e)
  /\ NoDup (List.map pu_position (powerUps e))
  /\ Forall (fun o => onGrid e (ob_position o)) (obstacles e).

(** ** A restart *)

(** The engine [e] with what [reset] leaves alone taken from [src]: the
    state, the frame count, the high score and the event log. *)
Definition carryOver (src e : Engine) : Engine :=
  mkEngine (state src) (config e) (snake e) (food e) (powerUps e) (obstacles e)
    (activePowerUp e)
    (mkGameStats (score (stats e)) (level (stats e)) (lives (stats e))
       (combo (stats e)) (foodEaten (stats e)) (powerUpsCollected (stats e))
       (timeElapsed (stats e)) (highScore (stats src)))
    (lastFoodTime e) (moveAccumulator e) (currentSpeed e) (frameCount src)
    (emitted src).

Definition carryOverM (src : Engine) (o : option (Engine * RandomSource)) :
    option (Engine * RandomSource) :=
  match o with
  | Some (e, r) => Some (carryOver src e, r)
  | None => None
  end.

(* ===================================================================== *)
(** * Position keys and the spatial hash grid ([helpers.ts])              *)
(* ===================================================================== *)

(** [`${n}`] for an integer [n]: its decimal numeral, with [-] before a
    negative one. *)
Definition String_of_number (n : Z) : string :=
  NilZero.string_of_int (Z.to_int n).

(** [`${pos.x},${pos.y}`] *)
Definition hashPosition (pos : Position) : string :=
  String.append (String_of_number (px pos))
    (String "," (String_of_number (py pos))).

(** [key.split(',')]: the pieces between the commas, at least one. *)
Fixpoint split_comma (key : string) : list string :=
  match key with
  | EmptyString => [EmptyString]
  | String c rest =>
      if Ascii.eqb c "," then EmptyString :: split_comma rest
      else match split_comma rest with
           | piece :: pieces => String c piece :: pieces
           | [] => [String c EmptyString]
           end
  end.

(** A string without a comma. *)
Fixpoint noComma (s : string) : bool :=
  match s with
  | EmptyString => true
  | String c rest => negb (Ascii.eqb c ",") && noComma rest
  end.

(** [Number(s)] for the strings that denote an integer in plain decimal
    digits, with or without a leading [-], and for the empty string,
    which denotes 0.  [None] stands for every other outcome: [NaN], a
    fraction, or a numeral in a form not read here (a leading [+], an
    exponent, a radix prefix, white space). *)
Definition Number (s : string) : option Z :=
  match s with
  | EmptyString => Some 0
  | _ => option_map Z.of_int (NilZero.int_of_string s)
  end.

(** [const [x, y] = key.split(',').map(Number)]: the first two pieces; a
    missing piece is [undefined].  [None] when [x] or [y] is not an
    integer read by [Number]. *)
Definition unhashPosition (key : string) : option Position :=
  match List.map Number (split_comma key) with
  | Some x :: Some y :: _ => Some (mkPosition x y)
  | _ => None
  end.

#[global] Instance Position_eq_dec : EqDecision Position.
Proof. solve_decision. Defined.

(** The class [SpatialHashGrid]: the cells by key, each a set of object
    identifiers, and the position of each object. *)
Module SpatialHashGrid.

Record t := mk {
  grid : gmap string (gset string);
  objectPositions : gmap string Position
}.

(** The fields' initial values. *)
Definition new : t := mk ∅ ∅.

Definition insert (id : string) (position : Position) (g : t) : t :=
  let key := hashPosition position in
  let cells :=
    match grid g !! key with
    | Some _ => grid g
    | None => <[key := ∅]> (grid g)
    end in
  let cell := default ∅ (cells !! key) in
  mk (<[key := cell ∪ {[id]}]> cells) (<[id := position]> (objectPositions g)).

Definition remove (id : string) (g : t) : t :=
  match objectPositions g !! id with
  | Some position =>
      let key := hashPosition position in
      mk (match grid g !! key with
          | Some cell => <[key := cell ∖ {[id]}]> (grid g)
          | None => grid g
          end)
         (delete id (objectPositions g))
  | None => g
  end.

Definition update (id : string) (newPosition : Position) (g : t) : t :=
  insert id newPosition (remove id g).

Definition query (position : Position) (g : t) : gset string :=
  default ∅ (grid g !! hashPosition position).

(** The offsets [-radius, ..., radius] of the two loops. *)
Definition offsets (radius : Z) : list Z :=
  List.map (fun i => Z.of_nat i - radius) (seq 0 (Z.to_nat (2 * radius + 1))).

Definition queryRadius (position : Position) (radius : Z) (g : t) : gset string :=
  foldl
    (fun results dx =>
       foldl
         (fun results dy =>
            results ∪ query (mkPosition (px position + dx) (py position + dy)) g)
         results (offsets radius))
    ∅ (offsets radius).

Definition clear (g : t) : t := mk ∅ ∅.

Definition getAllObjects (g : t) : gmap string Position := objectPositions g.

(** The grid and the positions agree: an object is in the cell of a
    position exactly when that is its position. *)
Definition consistent (g : t) : Prop :=
  forall (id : string) (position : Position),
    id ∈ query position g <-> objectPositions g !! id = Some position.

End SpatialHashGrid.

(* ===================================================================== *)
(** * The moving average ([helpers.ts])                                   *)
(* ===================================================================== *)

(** The class [MovingAverage], in binary64 arithmetic. *)
Module MovingAverage.

Definition sub (a b : JSNumber.number) : JSNumber.number :=
  SFsub JSNumber.prec JSNumber.emax a b.

Definition div (a b : JSNumber.number) : JSNumber.number :=
  SFdiv JSNumber.prec JSNumber.emax a b.

Record t := mk {
  values : list JSNumber.number;
  sum : JSNumber.number;
  windowSize : Z
}.

Definition new (windowSize : Z) : t := mk [] (JSNumber.of_Z 0) windowSize.

Definition getAverage (m : t) : JSNumber.number :=
  if (0 <? List.length (values m))%nat
  then div (sum m) (JSNumber.of_Z (Z.of_nat (List.length (values m))))
  else JSNumber.of_Z 0.

(** [add] returns the average; the object after the call comes with it. *)
Definition add (value : JSNumber.number) (m : t) : JSNumber.number * t :=
  let values1 := values m ++ [value] in
  let sum1 := JSNumber.add (sum m) value in
  let m1 :=
    if windowSize m <? Z.of_nat (List.length values1)
    then match values1 with
         | removed :: rest => mk rest (sub sum1 removed) (windowSize m)
         | [] => mk values1 sum1 (windowSize m)
         end
    else mk values1 sum1 (windowSize m) in
  (getAverage m1, m1).

Definition reset (m : t) : t := mk [] (JSNumber.of_Z 0) (windowSize m).

(** The object after a run of [add]s. *)
Definition addAll (vs : list JSNumber.number) (m : t) : t :=
  foldl (fun m v => snd (add v m)) m vs.

End MovingAverage.

(* ===================================================================== *)
(** * Formatting ([helpers.ts])                                           *)
(* ===================================================================== *)

(** [s.padStart(2, '0')] *)
Definition padStart2 (s : string) : string :=
  match String.length s with
  | 0%nat => String "0" (String "0" EmptyString)
  | 1%nat => String "0" s
  | _ => s
  end.

(** [formatTime], on whole milliseconds. *)
Definition formatTime (ms : Z) : string :=
  let seconds := ms / 1000 in
  let minutes := seconds / 60 in
  let remainingSeconds := Z.rem seconds 60 in
  String.append (padStart2 (String_of_number minutes))
    (String ":" (padStart2 (String_of_number remainingSeconds))).

(* ===================================================================== *)
(** * The callers: the store and the canvas                               *)
(* ===================================================================== *)

(** The store of [store/gameStore.ts]: the game state and mode, the
    statistics of the current game and the all-time totals.  (The
    settings, the achievements and the leaderboard are not modelled; the
    actions below do not read them.) *)
Module GameStore.

Record AllTimeStats := mkAllTimeStats {
  gamesPlayed : Z;
  totalScore : Z;
  totalFoodEaten : Z;
  totalPowerUps : Z;
  totalTimePlayed : Q
}.

Record t := mk {
  gameState : GameState;
  gameMode : GameMode;
  currentStats : GameStats;
  allTimeStats : AllTimeStats
}.

Definition initialCurrentStats : GameStats := mkGameStats 0 1 3 1 0 0 0 0.

Definition initialAllTimeStats : AllTimeStats := mkAllTimeStats 0 0 0 0 0.

Definition initial : t :=
  mk MENU CLASSIC initialCurrentStats initialAllTimeStats.

(** A [Partial<GameStats>]: the keys that are present. *)
Record PartialGameStats := mkPartialGameStats {
  p_score : option Z;
  p_level : option Z;
  p_lives : option Z;
  p_combo : option Z;
  p_foodEaten : option Z;
  p_powerUpsCollected : option Z;
  p_timeElapsed : option Q;
  p_highScore : option Z
}.

(** The whole of a [GameStats], as [getStats()] returns it. *)
Definition whole (s : GameStats) : PartialGameStats :=
  mkPartialGameStats (Some (score s)) (Some (level s)) (Some (lives s))
    (Some (combo s)) (Some (foodEaten s)) (Some (powerUpsCollected s))
    (Some (timeElapsed s)) (Some (highScore s)).

(** [{ ...currentStats, ...newStats }] *)
Definition spread (stats : GameStats) (newStats : PartialGameStats) : GameStats :=
  mkGameStats
    (default (score stats) (p_score newStats))
    (default (level stats) (p_level newStats))
    (default (lives stats) (p_lives newStats))
    (default (combo stats) (p_combo newStats))
    (default (foodEaten stats) (p_foodEaten newStats))
    (default (powerUpsCollected stats) (p_powerUpsCollected newStats))
    (default (timeElapsed stats) (p_timeElapsed newStats))
    (default (highScore stats) (p_highScore newStats)).

Definition set_highScore (v : Z) (s : GameStats) : GameStats :=
  mkGameStats (score s) (level s) (lives s) (combo s) (foodEaten s)
    (powerUpsCollected s) (timeElapsed s) v.

Definition setGameState (gameState : GameState) (st : t) : t :=
  mk gameState (gameMode st) (currentStats st) (allTimeStats st).

Definition setGameMode (gameMode : GameMode) (st : t) : t :=
  mk (gameState st) gameMode (currentStats st) (allTimeStats st).

Definition updateCurrentStats (newStats : PartialGameStats) (st : t) : t :=
  let updatedStats := spread (currentStats st) newStats in
  (* Update high score *)
  let updatedStats :=
    if score updatedStats >? highScore updatedStats
    then set_highScore (score updatedStats) updatedStats
    else updatedStats in
  mk (gameState st) (gameMode st) updatedStats (allTimeStats st).

Definition updateAllTimeStats (gameStats : GameStats) (st : t) : t :=
  mk (gameState st) (gameMode st) (currentStats st)
    (mkAllTimeStats
       (gamesPlayed (allTimeStats st) + 1)
       (totalScore (allTimeStats st) + score gameStats)
       (totalFoodEaten (allTimeStats st) + foodEaten gameStats)
       (totalPowerUps (allTimeStats st) + powerUpsCollected gameStats)
       (totalTimePlayed (allTimeStats st) + timeElapsed gameStats)).

Definition resetProgress (st : t) : t :=
  mk (gameState st) (gameMode st) initialCurrentStats initialAllTimeStats.

Definition resetGame (st : t) : t :=
  mk MENU (gameMode st) initialCurrentStats (allTimeStats st).

(** The states the actions lead to. *)
Inductive reachable : t -> Prop :=
  | reachable_initial : reachable initial
  | reachable_setGameState (s : GameState) (st : t) :
      reachable st -> reachable (setGameState s st)
  | reachable_setGameMode (m : GameMode) (st : t) :
      reachable st -> reachable (setGameMode m st)
  | reachable_updateCurrentStats (newStats : PartialGameStats) (st : t) :
      reachable st -> reachable (updateCurrentStats newStats st)
  | reachable_updateAllTimeStats (gameStats : GameStats) (st : t) :
      reachable st -> reachable (updateAllTimeStats gameStats st)
  | reachable_resetProgress (st : t) :
      reachable st -> reachable (resetProgress st)
  | reachable_resetGame (st : t) :
      reachable st -> reachable (resetGame st).

End GameStore.

(** The handlers of [components/game/GameCanvas.tsx] that drive the
    engine. *)
Module GameCanvas.

Local Open Scope string_scope.

(** The own properties of [KEY_MAPPINGS]. *)
Definition KEY_MAPPINGS (key : string) : option Direction :=
  if String.eqb key "ArrowUp" then Some DIRECTIONS.UP
  else if String.eqb key "ArrowDown" then Some DIRECTIONS.DOWN
  else if String.eqb key "ArrowLeft" then Some DIRECTIONS.LEFT
  else if String.eqb key "ArrowRight" then Some DIRECTIONS.RIGHT
  else if String.eqb key "w" then Some DIRECTIONS.UP
  else if String.eqb key "W" then Some DIRECTIONS.UP
  else if String.eqb key "s" then Some DIRECTIONS.DOWN
  else if String.eqb key "S" then Some DIRECTIONS.DOWN
  else if String.eqb key "a" then Some DIRECTIONS.LEFT
  else if String.eqb key "A" then Some DIRECTIONS.LEFT
  else if String.eqb key "d" then Some DIRECTIONS.RIGHT
  else if String.eqb key "D" then Some DIRECTIONS.RIGHT
  else None.

(** The names [KEY_MAPPINGS[key]] finds on [Object.prototype]: what it
    returns for them is not a direction. *)
Definition inherited (key : string) : bool :=
  existsb (String.eqb key)
    ["constructor"; "hasOwnProperty"; "isPrototypeOf"; "propertyIsEnumerable";
     "toLocaleString"; "toString"; "valueOf"; "__proto__";
     "__defineGetter__"; "__defineSetter__"; "__lookupGetter__";
     "__lookupSetter__"]%list.

(** [handleKeyDown] for [event.key]: [None] where [changeDirection] would
    be passed something that is not a direction. *)
Definition handleKeyDown (key : string) (e : Engine) : option Engine :=
  if inherited key then None
  else
    let e1 :=
      match KEY_MAPPINGS key with
      | Some direction => changeDirection direction e
      | None => e
      end in
    (* Handle pause *)
    Some (if String.eqb key " " || String.eqb key "Escape"
          then match getState e1 with
               | PLAYING => setState PAUSED e1
               | PAUSED => setState PLAYING e1
               | _ => e1
               end
          else e1).

(** The direction of a swipe by [(dx, dy)], if it is long enough. *)
Definition swipeDirection (dx dy : Q) : option Direction :=
  let threshold := 30%Q in
  if Qltb threshold (Qabs dx) || Qltb threshold (Qabs dy)
  then Some (if Qltb (Qabs dy) (Qabs dx)
             then (if Qltb 0 dx then mkDirection 1 0 else mkDirection (-1) 0)
             else (if Qltb 0 dy then mkDirection 0 1 else mkDirection 0 (-1)))
  else None.

(** [handleTouchEnd] after a touch that started [(dx, dy)] away. *)
Definition handleTouchEnd (dx dy : Q) (e : Engine) : Engine :=
  match swipeDirection dx dy with
  | Some direction => changeDirection direction e
  | None => e
  end.

(** The engine under the canvas: created, initialised and set to play
    when the canvas mounts, then driven by the frames of the game loop,
    the keys and the swipes. *)
Inductive driven (cfg : GameConfig) : Engine -> Prop :=
  | driven_mount (now : Z) (e : Engine) (r r' : RandomSource) :
      init now (constructor cfg) r = Some (e, r') ->
      driven cfg (setState PLAYING e)
  | driven_gameLoop (deltaTime : Q) (now : Z) (e e' : Engine)
      (r r' : RandomSource) :
      driven cfg e -> update deltaTime now e r = Some (e', r') ->
      driven cfg e'
  | driven_keyDown (key : string) (e e' : Engine) :
      driven cfg e -> handleKeyDown key e = Some e' -> driven cfg e'
  | driven_touchEnd (dx dy : Q) (e : Engine) :
      driven cfg e -> driven cfg (handleTouchEnd dx dy e).

End GameCanvas.

(** The configuration and the three states of a game under way. *)
Definition underWay (cfg : GameConfig) (e : Engine) : Prop :=
  config e = cfg
  /\ (state e = PLAYING \/ state e = PAUSED \/ state e = GAME_OVER).

(** The engine when the listeners of FOOD_EATEN are called: in the tick
    that moves the head onto the food, once the meal is scored. *)
Definition heard (deltaTime : Q) (now : Z) (f : Food) (head : Position)
    (e : Engine) : Engine :=
  scored now f (grown (set_moveAccumulator 0 (clocked deltaTime e)) head).

(** The bounds of the move interval: at least the smaller of 20 ms and
    the floor of the difficulty, at most 300 ms. *)
Definition intervalInRange (e : Engine) : Prop :=
  (inject_Z (Z.min 20 (sc_min (SPEED_CONFIG (difficulty (config e)))))
   <= currentSpeed e)%Q
  /\ (currentSpeed e <= 300)%Q.

(* ===================================================================== *)
(** * The event bus of the engine ([on], [emitEvent])                     *)
(* ===================================================================== *)

(** [eventCallbacks]: for each event type the set of its callbacks, in
    the order they were added.  A callback is known by the identity of
    its function object, a number here.  The callbacks themselves are
    taken not to subscribe or unsubscribe while they are being called. *)
Module EventBus.

Abbreviation t := (gmap string (list nat)) (only parsing).

Definition new : t := ∅.

(** [Set.prototype.add] *)
Definition add (callback : nat) (callbacks : list nat) : list nat :=
  if existsb (Nat.eqb callback) callbacks then callbacks
  else callbacks ++ [callback].

(** [Set.prototype.delete] *)
Definition delete (callback : nat) (callbacks : list nat) : list nat :=
  List.filter (fun c => negb (Nat.eqb callback c)) callbacks.

Definition on (eventType : string) (callback : nat) (b : t) : t :=
  let b1 :=
    match b !! eventType with
    | Some _ => b
    | None => <[eventType := []]> b
    end in
  <[eventType := add callback (default [] (b1 !! eventType))]> b1.

(** The function [on] returns. *)
Definition unsubscribe (eventType : string) (callback : nat) (b : t) : t :=
  match b !! eventType with
  | Some callbacks => <[eventType := delete callback callbacks]> b
  | None => b
  end.

(** The callbacks [emitEvent] calls for an event of a type, in order. *)
Definition emitEvent (type : string) (b : t) : list nat :=
  default [] (b !! type).

(** The buses [on] and the functions it returns lead to. *)
Inductive reachable : t -> Prop :=
  | reachable_new : reachable new
  | reachable_on (eventType : string) (callback : nat) (b : t) :
      reachable b -> reachable (on eventType callback b)
  | reachable_unsubscribe (eventType : string) (callback : nat) (b : t) :
      reachable b -> reachable (unsubscribe eventType callback b).

End EventBus.

(* ===================================================================== *)
(** * The score formula of the specification                              *)
(* ===================================================================== *)

(** The score formula as the specification writes it,
    [floor(foodValue * combo * (1 + level * 0.1))], over the rationals:
    the tenth is exact here, where [calculateScore] multiplies by the
    binary64 number nearest to it. *)
Definition score_delta (foodValue combo level : Z) : Z :=
  Qfloor (inject_Z foodValue * inject_Z combo * (1 + inject_Z level * (1 # 10))).

(** The values [spawnFood] gives a food. *)
Definition foodValues : list Z := [100; 50; BASE_FOOD_SCORE].

(** [calculateScore] gives the value of the formula, or one less. *)
Definition oneShortAtMost (foodValue combo level : Z) : bool :=
  (score_delta foodValue combo level - 1 <=? calculateScore foodValue combo level)
  && (calculateScore foodValue combo level <=? score_delta foodValue combo level).

(** The integers from 1 to [n]. *)
Definition upTo (n : nat) : list Z := map Z.of_nat (seq 1 n).

(** A normal, classic game in which the snake eats on each of its first
    four steps.  The samples put three golden foods and then a normal one
    on the cells in front of the snake; the obstacles of the level-ups to
    3, 7 and 13 (two, six and twelve of them) go to the first free cells
    of the first column.  The game is initialised at 1000, set to play and
    ticked every 100 ms. *)
Definition comboSamples : RandomSource :=
  mkRandomSource
    (fun n =>
       nth n [669 # 1244; 0;
              0; 1 # 2; 0;  0; 1 # 2; 0;
              713 # 1238; 0;
              0; 1 # 2; 0;  0; 1 # 2; 0;  0; 1 # 2; 0;
              0; 1 # 2; 0;  0; 1 # 2; 0;  0; 1 # 2; 0;
              753 # 1228; 0;
              0; 1 # 2; 0;  0; 1 # 2; 0;  0; 1 # 2; 0;
              0; 1 # 2; 0;  0; 1 # 2; 0;  0; 1 # 2; 0;
              0; 1 # 2; 0;  0; 1 # 2; 0;  0; 1 # 2; 0;
              0; 1 # 2; 0;  0; 1 # 2; 0;  0; 1 # 2; 0;
              789 # 1214; 1 # 2]%Q 0%Q) 0.

Definition comboServed : Engine * RandomSource :=
  let er := orNew (init 1000 (constructor (sampleConfig NORMAL CLASSIC)) comboSamples) in
  (setState PLAYING (fst er), snd er).

Definition comboMeal1 : Engine * RandomSource :=
  orNew (update 100 1100 (fst comboServed) (snd comboServed)).

Definition comboMeal2 : Engine * RandomSource :=
  orNew (update 100 1200 (fst comboMeal1) (snd comboMeal1)).

Definition comboMeal3 : Engine * RandomSource :=
  orNew (update 100 1300 (fst comboMeal2) (snd comboMeal2)).

Definition comboMeal4 : Engine * RandomSource :=
  orNew (update 100 1400 (fst comboMeal3) (snd comboMeal3)).

(* ===================================================================== *)
(** * Properties: helpers                                                 *)
(* ===================================================================== *)

(** Split a conjunction into all its conjuncts; case on the condition of
    a conditional in the goal. *)
Ltac split_conj := repeat match goal with |- _ /\ _ => split end.

Ltac case_cond :=
  match goal with |- context [if ?c then _ else _] => destruct c end.

Lemma positionsEqual_eq (a b : Position) :
  positionsEqual a b = true <-> a = b.
Proof.
  destruct a as [ax ay], b as [bx by_]. unfold positionsEqual. cbn.
  rewrite andb_true_iff, !Z.eqb_eq. split.
  - intros [-> ->]. reflexivity.
  - intros H. inversion H. split; reflexivity.
Qed.

Lemma positionsEqual_refl (a : Position) : positionsEqual a a = true.
Proof. apply positionsEqual_eq. reflexivity. Qed.

Lemma positionsEqual_neq (a b : Position) :
  positionsEqual a b = false <-> a <> b.
Proof.
  rewrite <- positionsEqual_eq. destruct (positionsEqual a b); split; intros H;
    congruence.
Qed.

Lemma isInBounds_spec (pos : Position) (g : Z) :
  isInBounds pos g = true <-> (0 <= px pos < g /\ 0 <= py pos < g).
Proof.
  unfold isInBounds. rewrite !andb_true_iff, !Z.geb_le, !Z.ltb_lt. lia.
Qed.

(* ===================================================================== *)
(** * Collision classification                                            *)
(* ===================================================================== *)

Lemma atWall_isInBounds (e : Engine) (pos : Position) :
  isInBounds pos (gridSize (config e)) = false <-> atWall e pos.
Proof.
  unfold atWall. rewrite <- isInBounds_spec.
  destruct (isInBounds pos (gridSize (config e))); split; congruence.
Qed.

Lemma atSelf_existsb (e : Engine) (pos : Position) :
  existsb (fun segment => positionsEqual pos segment) (segments (snake e)) = true
  <-> atSelf e pos.
Proof.
  unfold atSelf. rewrite existsb_exists. split.
  - intros [s [Hin Heq]]. apply positionsEqual_eq in Heq. subst s. exact Hin.
  - intros Hin. exists pos. split; [exact Hin | apply positionsEqual_refl].
Qed.

Lemma atFood_positionsEqual (e : Engine) (pos : Position) (f : Food) :
  food e = Some f ->
  positionsEqual pos (food_position f) = true <-> atFood e pos.
Proof.
  intros Hf. unfold atFood. rewrite positionsEqual_eq. split.
  - intros ->. exists f. split; [exact Hf | reflexivity].
  - intros [f' [Hf' Hpos]]. rewrite Hf in Hf'. injection Hf' as <-.
    symmetry. exact Hpos.
Qed.

Lemma find_powerUp_some (e : Engine) (pos : Position) (p : PowerUp) :
  find (fun p => positionsEqual pos (pu_position p)) (powerUps e) = Some p ->
  atPowerUp e pos.
Proof.
  intros H. apply find_some in H. destruct H as [Hin Heq].
  apply positionsEqual_eq in Heq. exists p. split; [exact Hin | congruence].
Qed.

Lemma find_powerUp_none (e : Engine) (pos : Position) :
  find (fun p => positionsEqual pos (pu_position p)) (powerUps e) = None ->
  ~ atPowerUp e pos.
Proof.
  intros H [p [Hin Hpos]].
  pose proof (find_none _ _ H p Hin) as Hne. cbn in Hne.
  rewrite <- Hpos, positionsEqual_refl in Hne. discriminate.
Qed.

Lemma find_obstacle_some (e : Engine) (pos : Position) (o : Obstacle) :
  find (fun o => positionsEqual pos (ob_position o)) (obstacles e) = Some o ->
  atObstacle e pos.
Proof.
  intros H. apply find_some in H. destruct H as [Hin Heq].
  apply positionsEqual_eq in Heq. exists o. split; [exact Hin | congruence].
Qed.

Lemma find_obstacle_none (e : Engine) (pos : Position) :
  find (fun o => positionsEqual pos (ob_position o)) (obstacles e) = None ->
  ~ atObstacle e pos.
Proof.
  intros H [o [Hin Hpos]].
  pose proof (find_none _ _ H o Hin) as Hne. cbn in Hne.
  rewrite <- Hpos, positionsEqual_refl in Hne. discriminate.
Qed.

(** The tail of the classifier, once wall, self and food are excluded. *)
Lemma checkPowerUps_type (e : Engine) (pos : Position) :
  (coll_type (checkPowerUps e pos) = T_powerup /\ atPowerUp e pos)
  \/ (coll_type (checkPowerUps e pos) = T_obstacle
      /\ ~ atPowerUp e pos /\ atObstacle e pos)
  \/ (coll_type (checkPowerUps e pos) = T_none
      /\ ~ atPowerUp e pos /\ ~ atObstacle e pos).
Proof.
  unfold checkPowerUps, checkObstacles.
  destruct (find _ (powerUps e)) as [p|] eqn:Hp.
  - left. split; [reflexivity | eapply find_powerUp_some; eassumption].
  - apply find_powerUp_none in Hp.
    destruct (find _ (obstacles e)) as [o|] eqn:Ho.
    + right; left. repeat split; try assumption.
      eapply find_obstacle_some; eassumption.
    + right; right. repeat split; try assumption.
      apply find_obstacle_none; assumption.
Qed.

(** C1.  The collision classifier returns, for every candidate head
    position, the first classification that applies in the order wall,
    self, food, power-up, obstacle, none: each tag is returned exactly
    when its condition holds and no earlier one does.  In particular a
    cell that holds the food or a power-up is never classified as
    obstacle, whatever obstacle shares it. *)
Theorem checkCollision_first_applicable (e : Engine) (pos : Position) :
  let t := coll_type (checkCollision e pos) in
  (t = T_wall <-> atWall e pos)
  /\ (t = T_self <-> ~ atWall e pos /\ atSelf e pos)
  /\ (t = T_food <-> ~ atWall e pos /\ ~ atSelf e pos /\ atFood e pos)
  /\ (t = T_powerup <->
      ~ atWall e pos /\ ~ atSelf e pos /\ ~ atFood e pos /\ atPowerUp e pos)
  /\ (t = T_obstacle <->
      ~ atWall e pos /\ ~ atSelf e pos /\ ~ atFood e pos /\ ~ atPowerUp e pos
      /\ atObstacle e pos)
  /\ (t = T_none <->
      ~ atWall e pos /\ ~ atSelf e pos /\ ~ atFood e pos /\ ~ atPowerUp e pos
      /\ ~ atObstacle e pos)
  /\ (atFood e pos \/ atPowerUp e pos -> t <> T_obstacle).
Proof.
  cbv zeta. unfold checkCollision.
  destruct (isInBounds pos (gridSize (config e))) eqn:Hb; cbn [negb].
  2:{ apply atWall_isInBounds in Hb. cbn.
      repeat split; intros; try discriminate; try tauto. }
  assert (Hw : ~ atWall e pos).
  { intros Hw. apply atWall_isInBounds in Hw. congruence. }
  destruct (existsb _ (segments (snake e))) eqn:Hs.
  { apply atSelf_existsb in Hs. cbn.
    repeat split; intros; try discriminate; try tauto. }
  assert (Hs' : ~ atSelf e pos).
  { intros H. apply atSelf_existsb in H. congruence. }
  assert (Htail : forall (Hf : ~ atFood e pos),
    let t := coll_type (checkPowerUps e pos) in
    (t = T_wall <-> atWall e pos)
    /\ (t = T_self <-> ~ atWall e pos /\ atSelf e pos)
    /\ (t = T_food <-> ~ atWall e pos /\ ~ atSelf e pos /\ atFood e pos)
    /\ (t = T_powerup <->
        ~ atWall e pos /\ ~ atSelf e pos /\ ~ atFood e pos /\ atPowerUp e pos)
    /\ (t = T_obstacle <->
        ~ atWall e pos /\ ~ atSelf e pos /\ ~ atFood e pos /\ ~ atPowerUp e pos
        /\ atObstacle e pos)
    /\ (t = T_none <->
        ~ atWall e pos /\ ~ atSelf e pos /\ ~ atFood e pos /\ ~ atPowerUp e pos
        /\ ~ atObstacle e pos)
    /\ (atFood e pos \/ atPowerUp e pos -> t <> T_obstacle)).
  { intros Hf. cbv zeta.
    destruct (checkPowerUps_type e pos) as [[-> Hp] | [[-> [Hp Ho]] | [-> [Hp Ho]]]];
      repeat split; intros; try discriminate; try tauto. }
  destruct (food e) as [f|] eqn:Hfood.
  - destruct (positionsEqual pos (food_position f)) eqn:Hpf.
    + assert (Hf : atFood e pos) by (eapply atFood_positionsEqual; eassumption).
      cbn. repeat split; intros; try discriminate; try tauto.
    + apply Htail. intros Hf.
      eapply atFood_positionsEqual in Hf; [|eassumption]. congruence.
  - apply Htail. intros [f [Hf _]]. congruence.
Qed.

(** C1 on a cell that holds the food and an obstacle. *)
Lemma checkCollision_first_applicable_witness :
  coll_type (checkCollision crowdedCell (mkPosition 5 5)) <> T_obstacle.
Proof.
  apply (checkCollision_first_applicable crowdedCell (mkPosition 5 5)).
  left. exists (mkFood (mkPosition 5 5) 10 FOOD_NORMAL).
  split; reflexivity.
Defined.

(* ===================================================================== *)
(** * Random draws stay in range                                          *)
(* ===================================================================== *)

Lemma frac_bounds (q : Q) : (0 <= frac q /\ frac q < 1)%Q.
Proof.
  unfold frac. pose proof (Qfloor_le q) as Hlo. pose proof (Qlt_floor q) as Hhi.
  rewrite inject_Z_plus in Hhi. split.
  - apply (Qplus_le_l _ _ (inject_Z (Qfloor q))). ring_simplify. exact Hlo.
  - apply (Qplus_lt_l _ _ (inject_Z (Qfloor q))). ring_simplify.
    first [exact Hhi | rewrite Qplus_comm; exact Hhi].
Qed.

Lemma Math_random_eq (r : RandomSource) :
  Math_random r = Some (frac (samples r (cursor r)), advance r).
Proof. reflexivity. Qed.

Lemma scaled_sample_bounds (u : Q) (n : nat) :
  (0 <= u)%Q -> (u < 1)%Q -> (0 < n)%nat ->
  (Z.to_nat (Qfloor (u * inject_Z (Z.of_nat n))) < n)%nat.
Proof.
  intros Hlo Hhi Hn.
  assert (Hn' : (0 < inject_Z (Z.of_nat n))%Q).
  { rewrite <- (Zlt_Qlt 0). lia. }
  assert (H0 : 0 <= Qfloor (u * inject_Z (Z.of_nat n))).
  { change 0 with (Qfloor 0). apply Qfloor_resp_le.
    apply Qmult_le_0_compat; [exact Hlo | apply Qlt_le_weak; exact Hn']. }
  assert (H1 : Qfloor (u * inject_Z (Z.of_nat n)) < Z.of_nat n).
  { rewrite Zlt_Qlt. eapply Qle_lt_trans; [apply Qfloor_le|].
    rewrite <- (Qmult_1_l (inject_Z (Z.of_nat n))) at 2.
    apply Qmult_lt_compat_r; assumption. }
  lia.
Qed.

Lemma randomIndex_lt (n : nat) (r : RandomSource) :
  (0 < n)%nat ->
  exists i, randomIndex n r = Some (i, advance r) /\ (i < n)%nat.
Proof.
  intros Hn. unfold randomIndex, bind, ret. rewrite Math_random_eq.
  eexists. split; [reflexivity|].
  destruct (frac_bounds (samples r (cursor r))) as [Hlo Hhi].
  apply scaled_sample_bounds; assumption.
Qed.

Lemma randomItem_total {A : Type} (array : list A) (r : RandomSource) :
  array <> [] ->
  exists a, randomItem array r = Some (a, advance r) /\ In a array.
Proof.
  intros Hne. unfold randomItem, bind.
  destruct (randomIndex_lt (List.length array) r) as [i [Hi Hlt]].
  { destruct array; [congruence | cbn; lia]. }
  rewrite Hi.
  destruct (nth_error array i) as [a|] eqn:Hnth.
  - exists a. split; [reflexivity | eapply nth_error_In; eassumption].
  - apply nth_error_None in Hnth. lia.
Qed.

Lemma generateId_eq (now : Z) (r : RandomSource) :
  generateId now r = Some ((now, frac (samples r (cursor r))), advance r).
Proof. reflexivity. Qed.

(* ===================================================================== *)
(** * The methods that draw samples return, and what they leave alone     *)
(* ===================================================================== *)

Lemma bind_Some {A B : Type} (m : M A) (k : A -> M B) (r r' : RandomSource) (a : A) :
  m r = Some (a, r') -> bind m k r = k a r'.
Proof. intros H. unfold bind. rewrite H. reflexivity. Qed.

Lemma set_food_same (e : Engine) : set_food (food e) e = e.
Proof. destruct e; reflexivity. Qed.

Lemma set_powerUps_same (e : Engine) : set_powerUps (powerUps e) e = e.
Proof. destruct e; reflexivity. Qed.

Lemma set_obstacles_same (e : Engine) : set_obstacles (obstacles e) e = e.
Proof. destruct e; reflexivity. Qed.

(** [spawnFood] returns and writes [food] only; the food it leaves is
    [null] only if it already was. *)
Lemma spawnFood_frame (e : Engine) (r : RandomSource) :
  exists fd r',
    spawnFood e r = Some (set_food fd e, r')
    /\ (food e <> None -> fd <> None).
Proof.
  unfold spawnFood.
  destruct (getAvailablePositions e) as [|p0 ps] eqn:Hav.
  - exists (food e), r. rewrite set_food_same. split; [reflexivity | tauto].
  - destruct (randomItem_total (p0 :: ps) r) as [position [Hpos _]]; [discriminate|].
    rewrite (bind_Some _ _ _ _ _ Hpos).
    rewrite (bind_Some _ _ _ _ _ (Math_random_eq _)). unfold ret.
    destruct (Qltb _ (5 # 100)); [|destruct (Qltb _ (2 # 10))];
      eexists; eexists; (split; [reflexivity | discriminate]).
Qed.

(** [spawnPowerUp] returns and writes [powerUps] only. *)
Lemma spawnPowerUp_frame (now : Z) (e : Engine) (r : RandomSource) :
  exists ps r', spawnPowerUp now e r = Some (set_powerUps ps e, r').
Proof.
  unfold spawnPowerUp.
  destruct (3 <=? List.length (powerUps e))%nat.
  { exists (powerUps e), r. rewrite set_powerUps_same. reflexivity. }
  destruct (getAvailablePositions e) as [|p0 ps] eqn:Hav.
  { exists (powerUps e), r. rewrite set_powerUps_same. reflexivity. }
  destruct (randomItem_total (p0 :: ps) r) as [position [Hpos _]]; [discriminate|].
  rewrite (bind_Some _ _ _ _ _ Hpos).
  destruct (randomItem_total PowerUpType_values (advance r)) as [type [Hty _]];
    [discriminate|].
  rewrite (bind_Some _ _ _ _ _ Hty).
  rewrite (bind_Some _ _ _ _ _ (generateId_eq _ _)).
  eexists; eexists; reflexivity.
Qed.

Lemma getRandomDirection_total (r : RandomSource) :
  exists d, getRandomDirection r = Some (d, advance r).
Proof.
  destruct (randomItem_total
              [DIRECTIONS.UP; DIRECTIONS.DOWN; DIRECTIONS.LEFT; DIRECTIONS.RIGHT] r)
    as [d [Hd _]]; [discriminate|].
  exists d. exact Hd.
Qed.

(** [generateObstacles] returns and writes [obstacles] only. *)
Lemma generateObstaclesLoop_frame (count : nat) (now : Z) :
  forall (e : Engine) (r : RandomSource),
  exists os r', generateObstaclesLoop count now e r = Some (set_obstacles os e, r').
Proof.
  induction count as [|count IH]; intros e r.
  - exists (obstacles e), r. rewrite set_obstacles_same. reflexivity.
  - cbn [generateObstaclesLoop].
    destruct (getAvailablePositions e) as [|p0 ps] eqn:Hav.
    { exists (obstacles e), r. rewrite set_obstacles_same. reflexivity. }
    destruct (randomItem_total (p0 :: ps) r) as [position [Hpos _]]; [discriminate|].
    rewrite (bind_Some _ _ _ _ _ Hpos).
    rewrite (bind_Some _ _ _ _ _ (Math_random_eq _)).
    rewrite (bind_Some _ _ _ _ _ (generateId_eq _ _)).
    destruct (Qltb _ _).
    + destruct (getRandomDirection_total (advance (advance (advance r)))) as [d Hd].
      rewrite (bind_Some _ _ _ _ _
                 (bind_Some _ (fun d => ret (Some d)) _ _ _ Hd)).
      match goal with
      | |- context [generateObstaclesLoop count now ?e1 ?r1] =>
          destruct (IH e1 r1) as [os [r' Hrec]]; rewrite Hrec
      end.
      exists os, r'. reflexivity.
    + rewrite (bind_Some (ret None) _ _ _ None eq_refl).
      match goal with
      | |- context [generateObstaclesLoop count now ?e1 ?r1] =>
          destruct (IH e1 r1) as [os [r' Hrec]]; rewrite Hrec
      end.
      exists os, r'. reflexivity.
Qed.

Lemma generateObstacles_frame (now : Z) (e : Engine) (r : RandomSource) :
  exists os r', generateObstacles now e r = Some (set_obstacles os e, r').
Proof.
  unfold generateObstacles.
  destruct (generateObstaclesLoop_frame
              (Z.to_nat (Z.min (oc_count (OBSTACLE_CONFIG (mode (config e)))
                                + level (stats e) - 1) 15))
              now (set_obstacles [] e) r) as [os [r' H]].
  exists os, r'. rewrite H. reflexivity.
Qed.

(** The move interval of a level. *)
Lemma levelUp_frame (now newLevel : Z) (e : Engine) (r : RandomSource) :
  exists os r',
    levelUp now newLevel e r =
    Some (emitEvent (LEVEL_UP newLevel)
            (set_obstacles os
               (set_currentSpeed
                  (inject_Z
                     (Z.max (sc_initial (SPEED_CONFIG (difficulty (config e)))
                             - (newLevel - 1)
                               * sc_increment (SPEED_CONFIG (difficulty (config e))))
                        (sc_min (SPEED_CONFIG (difficulty (config e))))))
                  (set_stats (set_level newLevel (stats e)) e))), r').
Proof.
  unfold levelUp.
  match goal with
  | |- context [generateObstacles now ?e1] =>
      destruct (generateObstacles_frame now e1 r) as [os [r' H]]
  end.
  exists os, r'. rewrite (bind_Some _ _ _ _ _ H). reflexivity.
Qed.

(** [eatFood] with a live food: it returns; what it writes and what it
    leaves alone. *)
Lemma eatFood_frame (now : Z) (e : Engine) (r : RandomSource) (f : Food) :
  food e = Some f ->
  let points := calculateScore (food_value f) (updateCombo now e) (level (stats e)) in
  exists e' r',
    eatFood now e r = Some (e', r')
    /\ snake e' = snake e
    /\ state e' = state e
    /\ config e' = config e
    /\ activePowerUp e' = activePowerUp e
    /\ moveAccumulator e' = moveAccumulator e
    /\ frameCount e' = frameCount e
    /\ lastFoodTime e' = now
    /\ combo (stats e') = updateCombo now e
    /\ score (stats e') = score (stats e) + points
    /\ foodEaten (stats e') = foodEaten (stats e) + 1
    /\ lives (stats e') = lives (stats e)
    /\ powerUpsCollected (stats e') = powerUpsCollected (stats e)
    /\ timeElapsed (stats e') = timeElapsed (stats e)
    /\ highScore (stats e') = highScore (stats e)
    /\ food e' <> None
    /\ (exists tail,
          emitted e' = emitted e ++ FOOD_EATEN (food_position f) points :: tail).
Proof.
  intros Hf points. unfold eatFood. rewrite Hf.
  assert (Hfd : forall (e6 : Engine) (r6 : RandomSource),
    food e6 <> None ->
    exists e' r',
      bind (spawnFood e6)
        (fun e7 =>
           match mode (config e7) with
           | ARCADE =>
               bind Math_random
                 (fun u => if Qltb u POWER_UP_SPAWN_CHANCE
                           then spawnPowerUp now e7 else ret e7)
           | _ => ret e7
           end) r6 = Some (e', r')
      /\ food e' <> None
      /\ exists ps, e' = set_powerUps ps (set_food (food e') e6)).
  { intros e6 r6 Hne.
    destruct (spawnFood_frame e6 r6) as [fd [r7 [Hsp Hfd]]].
    rewrite (bind_Some _ _ _ _ _ Hsp). specialize (Hfd Hne).
    assert (Hstay : exists ps,
              set_food fd e6 = set_powerUps ps (set_food (food (set_food fd e6)) e6)).
    { exists (powerUps e6). destruct e6; reflexivity. }
    destruct (mode (config (set_food fd e6)));
      try (exists (set_food fd e6), r7; split; [reflexivity | split; [exact Hfd | exact Hstay]]).
    rewrite (bind_Some _ _ _ _ _ (Math_random_eq _)).
    destruct (Qltb _ _).
    - destruct (spawnPowerUp_frame now (set_food fd e6) (advance r7)) as [ps [r8 Hpu]].
      rewrite Hpu. eexists; eexists. split; [reflexivity|].
      split; [exact Hfd | exists ps; reflexivity].
    - exists (set_food fd e6), (advance r7).
      split; [reflexivity | split; [exact Hfd | exact Hstay]]. }
  cbv zeta.
  match goal with
  | |- context [if ?c then levelUp now ?nl ?e5 else _] =>
      destruct c;
      [ destruct (levelUp_frame now nl e5 r) as [os [r6 Hlv]];
        rewrite (bind_Some _ _ _ _ _ Hlv)
      | rewrite (bind_Some (ret e5) _ r r e5 eq_refl) ]
  end.
  - match goal with
    | |- context [bind (spawnFood ?e6) _ ?r6] =>
        destruct (Hfd e6 r6) as [e' [r' [Hrun [Hne [ps Hshape]]]]];
        [cbn; rewrite Hf; discriminate|]
    end.
    exists e', r'. split; [exact Hrun|]. rewrite Hshape. cbn.
    repeat split; try reflexivity.
    + rewrite Hshape in Hne. exact Hne.
    + eexists. rewrite <- app_assoc. reflexivity.
  - match goal with
    | |- context [bind (spawnFood ?e6) _ ?r6] =>
        destruct (Hfd e6 r6) as [e' [r' [Hrun [Hne [ps Hshape]]]]];
        [cbn; rewrite Hf; discriminate|]
    end.
    exists e', r'. split; [exact Hrun|]. rewrite Hshape. cbn.
    repeat split; try reflexivity.
    + rewrite Hshape in Hne. exact Hne.
    + eexists. reflexivity.
Qed.

(* ===================================================================== *)
(** * Death                                                               *)
(* ===================================================================== *)

Lemma initialSegments_eq (g : Z) :
  initialSegments g =
  [mkPosition (g / 2) (g / 2); mkPosition (g / 2 - 1) (g / 2);
   mkPosition (g / 2 - 2) (g / 2)].
Proof.
  unfold initialSegments.
  change (Z.to_nat INITIAL_SNAKE_LENGTH) with 3%nat. cbn [seq List.map].
  repeat f_equal; lia.
Qed.

(** What [handleDeath] does to each field. *)
Lemma handleDeath_respawn (e : Engine) :
  0 < lives (stats e) - 1 ->
  handleDeath e =
  emitEvent (COLLISION "death")
    (set_snake
       (mkSnake (initialSegments (gridSize (config e))) DIRECTIONS.RIGHT
          DIRECTIONS.RIGHT (snake_length (snake e)))
       (set_stats (set_lives (lives (stats e) - 1) (stats e)) e)).
Proof.
  intros H. unfold handleDeath. cbn.
  destruct (lives (stats e) - 1 <=? 0) eqn:Hl; [apply Z.leb_le in Hl; lia|].
  reflexivity.
Qed.

Lemma handleDeath_gameOver (e : Engine) :
  lives (stats e) - 1 <= 0 ->
  handleDeath e =
  emitEvent (GAME_OVER_EVENT (set_lives (lives (stats e) - 1) (stats e)))
    (emitEvent (COLLISION "death")
       (set_state GAME_OVER
          (set_stats (set_lives (lives (stats e) - 1) (stats e)) e))).
Proof.
  intros H. unfold handleDeath. cbn.
  destruct (lives (stats e) - 1 <=? 0) eqn:Hl; [|apply Z.leb_gt in Hl; lia].
  unfold gameOver, emitEvent. cbn. rewrite <- app_assoc. reflexivity.
Qed.

(** On a lethal collision the logical step is [handleDeath], after the
    queued direction is applied. *)
Lemma updateGameLogic_lethal (now : Z) (e : Engine) (r : RandomSource)
    (currentHead : Position) (rest : list Position) :
  segments (snake e) = currentHead :: rest ->
  lethal (turn e) (checkCollision (turn e) (candidateHead e currentHead)) = true ->
  updateGameLogic now e r = Some (handleDeath (turn e), r).
Proof.
  intros Hseg Hlethal. unfold updateGameLogic. fold (turn e).
  replace (segments (snake (turn e))) with (currentHead :: rest) by (symmetry; exact Hseg).
  change (mkPosition (px currentHead + dx (direction (snake (turn e))))
            (py currentHead + dy (direction (snake (turn e)))))
    with (candidateHead e currentHead).
  unfold lethal in Hlethal.
  destruct (coll_type (checkCollision (turn e) (candidateHead e currentHead)));
    cbn [CollisionType_eqb andb] in *; try discriminate.
  - rewrite Hlethal. reflexivity.
  - rewrite Hlethal. reflexivity.
  - rewrite Hlethal. reflexivity.
Qed.

(** C2.  On any lethal collision, lives is decremented by exactly one and
    no other statistic changes; obstacles, food and power-ups stay.  If
    lives remain, the snake is back on the three centered cells facing
    right and the state of play is unchanged; if none remain, the engine
    is in the GameOver state and has emitted a GAME_OVER event carrying
    the statistics as the death left them. *)
Theorem lethal_collision_policy (now : Z) (e : Engine) (r : RandomSource)
    (currentHead : Position) (rest : list Position) :
  segments (snake e) = currentHead :: rest ->
  lethal (turn e) (checkCollision (turn e) (candidateHead e currentHead)) = true ->
  exists e',
    updateGameLogic now e r = Some (e', r)
    /\ lives (stats e') = lives (stats e) - 1
    /\ stats e' = set_lives (lives (stats e) - 1) (stats e)
    /\ obstacles e' = obstacles e
    /\ food e' = food e
    /\ powerUps e' = powerUps e
    /\ (0 < lives (stats e') ->
        let c := gridSize (config e) / 2 in
        segments (snake e') =
          [mkPosition c c; mkPosition (c - 1) c; mkPosition (c - 2) c]
        /\ direction (snake e') = DIRECTIONS.RIGHT
        /\ nextDirection (snake e') = DIRECTIONS.RIGHT
        /\ state e' = state e
        /\ emitted e' = emitted e ++ [COLLISION "death"])
    /\ (lives (stats e') <= 0 ->
        state e' = GAME_OVER
        /\ emitted e' =
             emitted e ++ [COLLISION "death"; GAME_OVER_EVENT (stats e')]).
Proof.
  intros Hseg Hlethal.
  exists (handleDeath (turn e)).
  split; [apply (updateGameLogic_lethal now e r currentHead rest Hseg Hlethal)|].
  destruct (Z_le_gt_dec (lives (stats e) - 1) 0) as [Hle | Hgt].
  - rewrite handleDeath_gameOver by exact Hle. cbn.
    split_conj; try reflexivity.
    + intros H. lia.
    + intros _. split; [reflexivity|]. rewrite <- app_assoc. reflexivity.
  - rewrite handleDeath_respawn by (cbn; lia). cbn.
    split_conj; try reflexivity.
    + intros _. repeat split; try reflexivity. apply initialSegments_eq.
    + intros H. lia.
Qed.

(** C2 on the last life. *)
Lemma lethal_collision_policy_witness :
  exists e',
    updateGameLogic 0 obstacleAhead noSamples = Some (e', noSamples)
    /\ lives (stats e') = 0
    /\ state e' = GAME_OVER
    /\ emitted e' = [COLLISION "death"; GAME_OVER_EVENT (stats e')].
Proof.
  destruct (lethal_collision_policy 0 obstacleAhead noSamples
              (mkPosition 12 12) [mkPosition 11 12; mkPosition 10 12]
              eq_refl eq_refl)
    as (e' & Hrun & Hlives & _ & _ & _ & _ & _ & Hover).
  exists e'. split; [exact Hrun|]. split; [exact Hlives|].
  apply Hover. rewrite Hlives. cbn. lia.
Defined.

(* ===================================================================== *)
(** * The ghost effect at the wall                                        *)
(* ===================================================================== *)

(** On a positive grid size, [((x % g) + g) % g] is [x] modulo [g]. *)
Lemma wrap_coordinate_mod (x g : Z) :
  0 < g -> Z.rem (Z.rem x g + g) g = x mod g.
Proof.
  intros Hg.
  assert (Hr : - g < Z.rem x g < g).
  { pose proof (Z.rem_bound_pos x g) as Hp.
    pose proof (Z.rem_bound_pos_neg x g) as Hnp.
    destruct (Z_le_gt_dec 0 x); lia. }
  rewrite Z.rem_mod_nonneg by lia.
  pose proof (Z.quot_rem' x g) as Hq.
  apply (Z.mod_unique_pos x g (x ÷ g - 1 + (Z.rem x g + g) / g)).
  - apply Z.mod_pos_bound. lia.
  - pose proof (Z.div_mod (Z.rem x g + g) g ltac:(lia)) as Hdm. nia.
Qed.

Lemma removelast_cons_length {A : Type} (a : A) (l : list A) :
  List.length (removelast (a :: l)) = List.length l.
Proof.
  revert a. induction l as [|b l IH]; intros a; [reflexivity|].
  change (removelast (a :: b :: l)) with (a :: removelast (b :: l)).
  cbn [List.length]. rewrite IH. reflexivity.
Qed.

(** With the ghost effect active, a step into the wall is a normal move
    to the wrapped cell: nothing is read at that cell. *)
Lemma updateGameLogic_ghost_wall (now : Z) (e : Engine) (r : RandomSource)
    (currentHead : Position) (rest : list Position) :
  segments (snake e) = currentHead :: rest ->
  activeTypeIs GHOST e = true ->
  coll_type (checkCollision (turn e) (candidateHead e currentHead)) = T_wall ->
  updateGameLogic now e r =
  Some (set_snake
          (mkSnake
             (wrapPosition e (candidateHead e currentHead)
                :: removelast (currentHead :: rest))
             (nextDirection (snake e)) (nextDirection (snake e))
             (snake_length (snake e))) e, r).
Proof.
  intros Hseg Hghost Hwall. unfold updateGameLogic. fold (turn e).
  replace (segments (snake (turn e))) with (currentHead :: rest)
    by (symmetry; exact Hseg).
  change (mkPosition (px currentHead + dx (direction (snake (turn e))))
            (py currentHead + dy (direction (snake (turn e)))))
    with (candidateHead e currentHead).
  change (activeTypeIs GHOST (turn e)) with (activeTypeIs GHOST e).
  rewrite Hghost.
  destruct (checkCollision (turn e) (candidateHead e currentHead)) eqn:Hc;
    cbn in Hwall; try discriminate.
  cbn [coll_type CollisionType_eqb andb negb].
  unfold bind, ret. cbn [segments set_segments set_snake snake].
  reflexivity.
Qed.

(** C3.  With the ghost effect active, a candidate head classified as
    wall does not kill: the step returns, the new head is the candidate
    with each coordinate taken modulo the grid size, and lives, state and
    the event log are unchanged.  On the grid of size 25, [x = 25] wraps
    to [0] and [x = -1] to [24]. *)
Theorem ghost_wall_wraps (now : Z) (e : Engine) (r : RandomSource)
    (currentHead : Position) (rest : list Position) :
  segments (snake e) = currentHead :: rest ->
  activeTypeIs GHOST e = true ->
  coll_type (checkCollision (turn e) (candidateHead e currentHead)) = T_wall ->
  0 < gridSize (config e) ->
  let g := gridSize (config e) in
  let candidate := candidateHead e currentHead in
  exists e',
    updateGameLogic now e r = Some (e', r)
    /\ hd_error (segments (snake e')) =
         Some (mkPosition (px candidate mod g) (py candidate mod g))
    /\ stats e' = stats e
    /\ state e' = state e
    /\ emitted e' = emitted e
    /\ (g = 25 -> px candidate = 25 ->
        hd_error (segments (snake e')) = Some (mkPosition 0 (py candidate mod 25)))
    /\ (g = 25 -> px candidate = -1 ->
        hd_error (segments (snake e')) = Some (mkPosition 24 (py candidate mod 25))).
Proof.
  intros Hseg Hghost Hwall Hg g candidate.
  eexists. split;
    [apply (updateGameLogic_ghost_wall now e r currentHead rest Hseg Hghost Hwall)|].
  cbn [segments set_snake snake stats state emitted hd_error].
  assert (Hw : wrapPosition e candidate =
               mkPosition (px candidate mod g) (py candidate mod g)).
  { unfold wrapPosition. fold g. rewrite !wrap_coordinate_mod by exact Hg.
    reflexivity. }
  fold candidate. rewrite Hw.
  split_conj; try reflexivity.
  - intros Hg25 Hx. rewrite Hg25, Hx. reflexivity.
  - intros Hg25 Hx. rewrite Hg25, Hx. reflexivity.
Qed.

(** C3 at the right edge of the 25 x 25 grid. *)
Lemma ghost_wall_wraps_witness :
  exists e',
    updateGameLogic 0 ghostAtEdge noSamples = Some (e', noSamples)
    /\ hd_error (segments (snake e')) = Some (mkPosition 0 12)
    /\ stats e' = stats ghostAtEdge.
Proof.
  destruct (ghost_wall_wraps 0 ghostAtEdge noSamples
              (mkPosition 24 12) [mkPosition 23 12; mkPosition 22 12]
              eq_refl eq_refl eq_refl eq_refl)
    as (e' & Hrun & _ & Hstats & _ & _ & H25 & _).
  exists e'. split; [exact Hrun|]. split; [|exact Hstats].
  apply (H25 eq_refl eq_refl).
Defined.

(** C9.  With the ghost effect active and the candidate head classified
    as wall, the wrapped cell is entered without being classified: the
    step is a normal move whatever that cell holds.  The wrapped head is
    prepended and the tail removed, so the segment count is unchanged (no
    food consumed); statistics, state and event log are unchanged (no
    death, no pickup); food, power-ups, obstacles and the active effect
    stay as they were. *)
Theorem ghost_wrap_not_reclassified (now : Z) (e : Engine) (r : RandomSource)
    (currentHead : Position) (rest : list Position) :
  segments (snake e) = currentHead :: rest ->
  activeTypeIs GHOST e = true ->
  coll_type (checkCollision (turn e) (candidateHead e currentHead)) = T_wall ->
  let wrapped := wrapPosition e (candidateHead e currentHead) in
  exists e',
    updateGameLogic now e r = Some (e', r)
    /\ segments (snake e') = wrapped :: removelast (currentHead :: rest)
    /\ List.length (segments (snake e')) = List.length (segments (snake e))
    /\ stats e' = stats e
    /\ state e' = state e
    /\ emitted e' = emitted e
    /\ food e' = food e
    /\ powerUps e' = powerUps e
    /\ obstacles e' = obstacles e
    /\ activePowerUp e' = activePowerUp e
    /\ lastFoodTime e' = lastFoodTime e
    /\ currentSpeed e' = currentSpeed e.
Proof.
  intros Hseg Hghost Hwall wrapped.
  eexists. split;
    [apply (updateGameLogic_ghost_wall now e r currentHead rest Hseg Hghost Hwall)|].
  cbn [segments set_snake snake stats state emitted food powerUps obstacles
       activePowerUp lastFoodTime currentSpeed].
  split_conj; try reflexivity.
  rewrite Hseg. cbn [List.length]. rewrite removelast_cons_length. reflexivity.
Qed.

(** C9 with the food on the wrapped cell: it is entered, not eaten. *)
Lemma ghost_wrap_not_reclassified_witness :
  exists e',
    updateGameLogic 0 ghostAtEdge noSamples = Some (e', noSamples)
    /\ segments (snake e') = [mkPosition 0 12; mkPosition 24 12; mkPosition 23 12]
    /\ food e' = Some (mkFood (mkPosition 0 12) 10 FOOD_NORMAL)
    /\ stats e' = stats ghostAtEdge.
Proof.
  destruct (ghost_wrap_not_reclassified 0 ghostAtEdge noSamples
              (mkPosition 24 12) [mkPosition 23 12; mkPosition 22 12]
              eq_refl eq_refl eq_refl)
    as (e' & Hrun & Hseg & _ & Hstats & _ & _ & Hfood & _).
  exists e'. repeat split; assumption.
Defined.

(* ===================================================================== *)
(** * The outcomes of the logical step                                    *)
(* ===================================================================== *)

Lemma checkCollision_food (e : Engine) (pos p : Position) (f : Food) :
  checkCollision e pos = CollFood p f -> food e = Some f.
Proof.
  unfold checkCollision, checkPowerUps, checkObstacles.
  destruct (negb _); [discriminate|].
  destruct (existsb _ _); [discriminate|].
  destruct (food e) as [f'|].
  - destruct (positionsEqual _ _).
    + intros H. injection H as _ ->. reflexivity.
    + destruct (find _ (powerUps e)); [discriminate|].
      destruct (find _ (obstacles e)); discriminate.
  - destruct (find _ (powerUps e)); [discriminate|].
    destruct (find _ (obstacles e)); discriminate.
Qed.

(** The logical step of a snake with a head is one of four: a death, a
    meal at the candidate cell, a pickup after a plain move, or a plain
    move (to the candidate cell or to the wrapped one). *)
Lemma updateGameLogic_cases (now : Z) (e : Engine) (r : RandomSource)
    (currentHead : Position) (rest : list Position) :
  segments (snake e) = currentHead :: rest ->
  updateGameLogic now e r = Some (handleDeath (turn e), r)
  \/ (exists f, food e = Some f
        /\ updateGameLogic now e r =
           eatFood now (grown e (candidateHead e currentHead)) r)
  \/ (exists p,
        updateGameLogic now e r =
        Some (collectPowerUp now p (moved e (candidateHead e currentHead)), r))
  \/ (exists head, updateGameLogic now e r = Some (moved e head, r)).
Proof.
  intros Hseg. unfold updateGameLogic. fold (turn e).
  replace (segments (snake (turn e))) with (currentHead :: rest)
    by (symmetry; exact Hseg).
  change (mkPosition (px currentHead + dx (direction (snake (turn e))))
            (py currentHead + dy (direction (snake (turn e)))))
    with (candidateHead e currentHead).
  unfold moved, grown. rewrite Hseg.
  destruct (checkCollision (turn e) (candidateHead e currentHead)) eqn:Hc;
    cbn [coll_type CollisionType_eqb andb].
  - (* none *) right; right; right. eexists. reflexivity.
  - (* wall *)
    destruct (negb (activeTypeIs GHOST (turn e))); [left; reflexivity|].
    right; right; right. eexists. reflexivity.
  - (* self *)
    destruct (negb (activeTypeIs INVINCIBLE (turn e))); [left; reflexivity|].
    right; right; right. eexists. reflexivity.
  - (* food *)
    right; left. exists data. split.
    + apply checkCollision_food in Hc. exact Hc.
    + unfold bind. cbn [segments set_segments set_snake snake].
      destruct (eatFood now _ r) as [[e' r']|]; reflexivity.
  - (* power-up *)
    right; right; left. exists data. reflexivity.
  - (* obstacle *)
    destruct (negb (activeTypeIs INVINCIBLE (turn e)) && negb (activeTypeIs GHOST (turn e)));
      [left; reflexivity|].
    right; right; right. eexists. reflexivity.
Qed.

(* ===================================================================== *)
(** * Scoring and the combo                                               *)
(* ===================================================================== *)

Lemma updateCombo_range (now : Z) (e : Engine) :
  1 <= combo (stats e) -> 1 <= updateCombo now e <= MAX_COMBO.
Proof.
  intros H. unfold updateCombo, MAX_COMBO in *.
  destruct (_ <? COMBO_TIME_WINDOW); lia.
Qed.

(** The literal [0.1] is the quotient of 1 by 10, rounded. *)
Remark lit_0_1_nearest :
  JSNumber.lit_0_1
  = SFdiv JSNumber.prec JSNumber.emax (JSNumber.of_Z 1) (JSNumber.of_Z 10).
Proof. vm_compute. reflexivity. Qed.

(** In binary64 the product can fall just short of the exact one:
    [90 * 1.4] is [125.99999999999999]. *)
Remark calculateScore_rounding :
  calculateScore 10 9 4 = 125 /\ score_delta 10 9 4 = 126.
Proof. split; vm_compute; reflexivity. Qed.

Lemma upTo_In (n : nat) (z : Z) : 1 <= z <= Z.of_nat n -> In z (upTo n).
Proof.
  intros Hz. unfold upTo. apply in_map_iff. exists (Z.to_nat z).
  split; [lia|]. apply in_seq. lia.
Qed.

Lemma forallb_upTo (P : Z -> bool) (n : nat) (z : Z) :
  forallb P (upTo n) = true -> 1 <= z <= Z.of_nat n -> P z = true.
Proof.
  intros H Hz. rewrite forallb_forall in H. apply H, upTo_In, Hz.
Qed.

(** The comparison holds for every food value, every combo up to the
    maximum and every level up to 100. *)
Lemma scoreTable :
  forallb
    (fun foodValue =>
       forallb
         (fun combo => forallb (oneShortAtMost foodValue combo) (upTo 100))
         (upTo (Z.to_nat MAX_COMBO)))
    foodValues
  = true.
Proof. vm_compute. reflexivity. Qed.

(** For the food values of [spawnFood], a combo up to the maximum and a
    level up to 100, [calculateScore] is the formula of the specification
    or one less. *)
Lemma calculateScore_one_short (foodValue combo level : Z) :
  In foodValue foodValues ->
  1 <= combo <= MAX_COMBO ->
  1 <= level <= 100 ->
  score_delta foodValue combo level - 1
  <= calculateScore foodValue combo level
  <= score_delta foodValue combo level.
Proof.
  intros Hv Hc Hl.
  pose proof (proj1 (forallb_forall _ _) scoreTable foodValue Hv) as Hcombos.
  pose proof (forallb_upTo _ _ combo Hcombos Hc) as Hlevels.
  pose proof (forallb_upTo _ _ level Hlevels Hl) as Htable.
  unfold oneShortAtMost in Htable.
  apply andb_true_iff in Htable. destruct Htable as [Hlo Hhi].
  apply Z.leb_le in Hlo, Hhi. split; assumption.
Qed.

Lemma comboMeal3_reachable : reachable (fst comboMeal3).
Proof.
  assert (H0 : reachable (fst comboServed)).
  { apply reachable_setState.
    apply (reachable_init 1000 (constructor (sampleConfig NORMAL CLASSIC)) _
             comboSamples (snd comboServed)); [apply reachable_new|].
    vm_compute. reflexivity. }
  assert (H1 : reachable (fst comboMeal1)).
  { apply (reachable_update 100 1100 _ _ (snd comboServed) (snd comboMeal1) H0).
    vm_compute. reflexivity. }
  assert (H2 : reachable (fst comboMeal2)).
  { apply (reachable_update 100 1200 _ _ (snd comboMeal1) (snd comboMeal2) H1).
    vm_compute. reflexivity. }
  apply (reachable_update 100 1300 _ _ (snd comboMeal2) (snd comboMeal3) H2).
  vm_compute. reflexivity.
Qed.

(** C4.  The score formula
    [floor(foodValue * combo * (1 + level * 0.1))] against the code.
    [calculateScore] evaluates it in binary64, where [0.1] is not exact and
    the product can fall just below the integer the formula gives.  In the
    game [comboMeal3], which [init] and three ticks reach by eating three
    golden foods, the next tick eats a normal food of value 10 with combo 5
    at level 13: the score grows by 114 and the FOOD_EATEN event says 114,
    where the formula gives 115.  In general [eatFood] returns, adds what
    the event carries, and for a food value of [spawnFood], a combo of at
    least 1 and a level from 1 to 100 the increment is the formula's value
    (for the combo just updated and the level the pickup started at) or
    one less.  With food value 10, combo 1 and level 1 the formula gives 11
    and so does the code. *)
Theorem eatFood_score_one_short :
  (reachable (fst comboMeal3)
   /\ food (fst comboMeal3) = Some (mkFood (mkPosition 16 12) 10 FOOD_NORMAL)
   /\ level (stats (fst comboMeal3)) = 13
   /\ combo (stats (fst comboMeal3)) = 4
   /\ exists e' r',
        update 100 1400 (fst comboMeal3) (snd comboMeal3) = Some (e', r')
        /\ foodEaten (stats e') = foodEaten (stats (fst comboMeal3)) + 1
        /\ combo (stats e') = 5
        /\ score (stats e') - score (stats (fst comboMeal3)) = 114
        /\ emitted e' =
           emitted (fst comboMeal3)
           ++ [FOOD_EATEN (mkPosition 16 12) 114; LEVEL_UP 15]
        /\ score_delta 10 5 13 = 115)
  /\ (forall (now : Z) (e : Engine) (r : RandomSource) (f : Food),
         food e = Some f ->
         exists e' r',
           eatFood now e r = Some (e', r')
           /\ (exists tail,
                  emitted e' =
                  emitted e
                  ++ FOOD_EATEN (food_position f) (score (stats e') - score (stats e))
                     :: tail)
           /\ (In (food_value f) foodValues ->
               1 <= combo (stats e) ->
               1 <= level (stats e) <= 100 ->
               score_delta (food_value f) (combo (stats e')) (level (stats e)) - 1
               <= score (stats e') - score (stats e)
               <= score_delta (food_value f) (combo (stats e')) (level (stats e)))
           /\ (food_value f = 10 ->
               combo (stats e') = 1 ->
               level (stats e) = 1 ->
               score (stats e') - score (stats e) = 11))
  /\ score_delta 10 1 1 = 11.
Proof.
  split; [|split; [|vm_compute; reflexivity]].
  - split; [exact comboMeal3_reachable|].
    split; [vm_compute; reflexivity|].
    split; [vm_compute; reflexivity|].
    split; [vm_compute; reflexivity|].
    exists (fst comboMeal4), (snd comboMeal4).
    split; [vm_compute; reflexivity|].
    split; [vm_compute; reflexivity|].
    split; [vm_compute; reflexivity|].
    split; [vm_compute; reflexivity|].
    split; vm_compute; reflexivity.
  - intros now e r f Hf.
    destruct (eatFood_frame now e r f Hf)
      as (e' & r' & Hrun & _ & _ & _ & _ & _ & _ & _ & Hcombo & Hscore & _ & _ & _
          & _ & _ & _ & tail & Hlog).
    exists e', r'. split; [exact Hrun|].
    assert (Hadd : score (stats e') - score (stats e)
                   = calculateScore (food_value f) (combo (stats e')) (level (stats e))).
    { rewrite Hscore, Hcombo. lia. }
    split; [exists tail; rewrite Hadd, Hcombo; exact Hlog|].
    split.
    + intros Hv Hc Hl. rewrite Hadd.
      apply calculateScore_one_short; [exact Hv | | exact Hl].
      rewrite Hcombo. apply updateCombo_range. exact Hc.
    + intros Hv Hc Hl. rewrite Hadd, Hv, Hc, Hl. vm_compute. reflexivity.
Qed.

(** C4 on the fourth meal of [comboMeal3]: the pickup alone, at 1400. *)
Lemma eatFood_score_one_short_witness :
  exists e' r',
    eatFood 1400 (fst comboMeal3) (snd comboMeal3) = Some (e', r')
    /\ score_delta 10 (combo (stats e')) 13 - 1
       <= score (stats e') - score (stats (fst comboMeal3))
       <= score_delta 10 (combo (stats e')) 13.
Proof.
  assert (Hf : food (fst comboMeal3) = Some (mkFood (mkPosition 16 12) 10 FOOD_NORMAL))
    by (vm_compute; reflexivity).
  assert (Hc : combo (stats (fst comboMeal3)) = 4) by (vm_compute; reflexivity).
  assert (Hl : level (stats (fst comboMeal3)) = 13) by (vm_compute; reflexivity).
  destruct (proj1 (proj2 eatFood_score_one_short) 1400 (fst comboMeal3)
              (snd comboMeal3) _ Hf)
    as (e' & r' & Hrun & _ & Hbound & _).
  exists e', r'. split; [exact Hrun|].
  rewrite Hl in Hbound. apply Hbound.
  - right; right; left. reflexivity.
  - rewrite Hc. lia.
  - lia.
Defined.

Lemma comboClock_handleDeath (e : Engine) :
  comboClock (handleDeath e) = comboClock e.
Proof.
  unfold handleDeath, comboClock. cbn.
  destruct (lives (stats e) - 1 <=? 0); reflexivity.
Qed.

Lemma comboClock_collectPowerUp (now : Z) (p : PowerUp) (e : Engine) :
  comboClock (collectPowerUp now p e) = comboClock e.
Proof.
  unfold collectPowerUp, comboClock.
  destruct (pu_type p); cbn; try reflexivity.
  case_cond; reflexivity.
Qed.

Lemma comboClock_updatePowerUps (now : Z) (e : Engine) :
  comboClock (updatePowerUps now e) = comboClock e.
Proof.
  unfold updatePowerUps, comboClock. cbn.
  destruct (activePowerUp e) as [a|]; [|reflexivity].
  destruct (_ >=? _); [|reflexivity].
  destruct (ap_type a); reflexivity.
Qed.

(** The logical step of a snake with a head returns. *)
Lemma updateGameLogic_total (now : Z) (e : Engine) (r : RandomSource) :
  segments (snake e) <> [] ->
  exists e' r', updateGameLogic now e r = Some (e', r').
Proof.
  intros Hne.
  destruct (segments (snake e)) as [|currentHead rest] eqn:Hseg; [congruence|].
  destruct (updateGameLogic_cases now e r currentHead rest Hseg)
    as [H | [[f [Hf H]] | [[p H] | [head H]]]]; rewrite H;
    try (eexists; eexists; reflexivity).
  destruct (eatFood_frame now (grown e (candidateHead e currentHead)) r f Hf)
    as (e' & r' & Hrun & _).
  exists e', r'. exact Hrun.
Qed.

(** The logical step either leaves the combo clock alone or is a pickup
    that advances it. *)
Lemma updateGameLogic_comboClock (now : Z) (e e' : Engine) (r r' : RandomSource) :
  updateGameLogic now e r = Some (e', r') ->
  comboClock e' = comboClock e
  \/ comboClock e' = (foodEaten (stats e) + 1, updateCombo now e, now).
Proof.
  intros Hrun.
  destruct (segments (snake e)) as [|currentHead rest] eqn:Hseg.
  { unfold updateGameLogic in Hrun. cbn in Hrun. rewrite Hseg in Hrun.
    discriminate. }
  destruct (updateGameLogic_cases now e r currentHead rest Hseg)
    as [H | [[f [Hf H]] | [[p H] | [head H]]]]; rewrite H in Hrun.
  - injection Hrun as <- _. left. rewrite comboClock_handleDeath. reflexivity.
  - destruct (eatFood_frame now (grown e (candidateHead e currentHead)) r f Hf)
      as (e1 & r1 & Hrun1 & _ & _ & _ & _ & _ & _ & Htime & Hcombo & _ & Heaten & _).
    rewrite Hrun1 in Hrun. injection Hrun as <- _. right.
    unfold comboClock. rewrite Htime, Hcombo, Heaten. reflexivity.
  - injection Hrun as <- _. left. rewrite comboClock_collectPowerUp. reflexivity.
  - injection Hrun as <- _. left. reflexivity.
Qed.

(** What follows the logical step in a tick leaves the combo clock alone. *)
Lemma comboClock_rest_of_update (now : Z) (e : Engine) :
  comboClock
    (set_frameCount
       (frameCount (if Z.rem (frameCount (updatePowerUps now e)) 10 =? 0
                    then updateObstacles (updatePowerUps now e)
                    else updatePowerUps now e) + 1)
       (if Z.rem (frameCount (updatePowerUps now e)) 10 =? 0
        then updateObstacles (updatePowerUps now e)
        else updatePowerUps now e))
  = comboClock e.
Proof.
  rewrite <- (comboClock_updatePowerUps now e).
  destruct (Z.rem _ 10 =? 0); reflexivity.
Qed.

Lemma update_total (deltaTime : Q) (now : Z) (e : Engine) (r : RandomSource) :
  segments (snake e) <> [] ->
  exists e' r', update deltaTime now e r = Some (e', r').
Proof.
  intros Hne. unfold update.
  destruct (negb (GameState_eqb (state e) PLAYING));
    [eexists; eexists; reflexivity|].
  match goal with
  | |- context [if ?c then updateGameLogic now ?e0 else ret ?e2] =>
      destruct c;
      [ destruct (updateGameLogic_total now e0 r Hne) as (e3 & r3 & Hrun);
        rewrite (bind_Some _ _ _ _ _ Hrun)
      | rewrite (bind_Some (ret e2) _ r r e2 eq_refl) ]
  end; eexists; eexists; reflexivity.
Qed.

(** A tick either leaves the combo clock alone or is a pickup that
    advances it. *)
Lemma update_comboClock (deltaTime : Q) (now : Z) (e e' : Engine)
    (r r' : RandomSource) :
  update deltaTime now e r = Some (e', r') ->
  comboClock e' = comboClock e
  \/ comboClock e' = (foodEaten (stats e) + 1, updateCombo now e, now).
Proof.
  unfold update.
  destruct (negb (GameState_eqb (state e) PLAYING)).
  { intros H. injection H as <- _. left. reflexivity. }
  unfold bind.
  match goal with
  | |- context [if ?c then updateGameLogic now ?e0 else ret ?e2] =>
      destruct c;
      [ destruct (updateGameLogic now e0 r) as [[e3 r3]|] eqn:Hrun;
        [apply updateGameLogic_comboClock in Hrun | discriminate]
      | unfold ret at 1 ]
  end;
    intros H; injection H as <- _; rewrite comboClock_rest_of_update.
  - exact Hrun.
  - left. reflexivity.
Qed.

(** Between two pickups the combo clock stands still. *)
Lemma idle_comboClock (e e' : Engine) :
  idle e e' -> comboClock e' = comboClock e.
Proof.
  induction 1 as [e | dt now e r e1 r1 e2 Hrun Hquiet _ IH | d e e2 _ IH
                 | s e e2 _ IH].
  - reflexivity.
  - rewrite IH. destruct (update_comboClock _ _ _ _ _ _ Hrun) as [H | H];
      [exact H|].
    unfold comboClock in H. injection H as Heaten _ _. lia.
  - rewrite IH. unfold changeDirection. destruct (negb _); reflexivity.
  - rewrite IH. reflexivity.
Qed.

(** C5.  For every pair of consecutive food pickups, the first in a tick
    at [t1] and the second in a tick at [t2] with no pickup in the calls
    between them: if [t2 - t1] is strictly below the combo window the
    second pickup leaves the combo one above what the first left, capped
    at the maximum; otherwise it leaves the combo at 1.  Every tick of a
    snake with a head returns. *)
Theorem combo_law :
  (forall (dt1 dt2 : Q) (t1 t2 : Z) (e0 e1 e2 e3 : Engine)
          (r0 r1 r2 r3 : RandomSource),
      update dt1 t1 e0 r0 = Some (e1, r1) ->
      foodEaten (stats e1) = foodEaten (stats e0) + 1 ->
      idle e1 e2 ->
      update dt2 t2 e2 r2 = Some (e3, r3) ->
      foodEaten (stats e3) = foodEaten (stats e2) + 1 ->
      (t2 - t1 < COMBO_TIME_WINDOW ->
       combo (stats e3) = Z.min (combo (stats e1) + 1) MAX_COMBO)
      /\ (COMBO_TIME_WINDOW <= t2 - t1 -> combo (stats e3) = 1))
  /\ (forall (deltaTime : Q) (now : Z) (e : Engine) (r : RandomSource),
        segments (snake e) <> [] ->
        exists e' r', update deltaTime now e r = Some (e', r')).
Proof.
  split; [|exact update_total].
  intros dt1 dt2 t1 t2 e0 e1 e2 e3 r0 r1 r2 r3 Hfirst Heaten1 Hidle Hsecond Heaten2.
  assert (Hclock1 : lastFoodTime e1 = t1).
  { destruct (update_comboClock _ _ _ _ _ _ Hfirst) as [H | H];
      unfold comboClock in H; injection H as H1 H2 H3; [lia | exact H3]. }
  pose proof (idle_comboClock e1 e2 Hidle) as Hclock2.
  unfold comboClock in Hclock2. injection Hclock2 as _ Hcombo2 Htime2.
  assert (Hclock3 : combo (stats e3) = updateCombo t2 e2).
  { destruct (update_comboClock _ _ _ _ _ _ Hsecond) as [H | H];
      unfold comboClock in H; injection H as H1 H2 H3; [lia | exact H2]. }
  rewrite Hclock3. unfold updateCombo. rewrite Htime2, Hclock1, Hcombo2.
  destruct (t2 - t1 <? COMBO_TIME_WINDOW) eqn:Hb.
  - apply Z.ltb_lt in Hb. split; [reflexivity | lia].
  - apply Z.ltb_ge in Hb. split; [lia | reflexivity].
Qed.

(** C5 on two meals 100 ms apart: the combo goes from 2 to 3. *)
Lemma combo_law_witness :
  combo (stats (fst firstMeal)) = 2 /\ combo (stats (fst secondMeal)) = 3.
Proof.
  split; [vm_compute; reflexivity|].
  assert (Hfirst : update 100 1100 (fst served) (snd served)
                   = Some (fst firstMeal, snd firstMeal))
    by (vm_compute; reflexivity).
  assert (Hsecond : update 100 1200 (fst firstMeal) (snd firstMeal)
                    = Some (fst secondMeal, snd secondMeal))
    by (vm_compute; reflexivity).
  destruct (proj1 combo_law 100%Q 100%Q 1100 1200
              (fst served) (fst firstMeal) (fst firstMeal) (fst secondMeal)
              (snd served) (snd firstMeal) (snd firstMeal) (snd secondMeal)
              Hfirst ltac:(vm_compute; reflexivity)
              (idle_done (fst firstMeal))
              Hsecond ltac:(vm_compute; reflexivity)) as [Hnear _].
  rewrite Hnear by (vm_compute; reflexivity).
  vm_compute. reflexivity.
Defined.

(* ===================================================================== *)
(** * The speed and slow effects                                          *)
(* ===================================================================== *)

Lemma activePowerUp_collectPowerUp (now : Z) (p : PowerUp) (e : Engine) :
  activePowerUp (collectPowerUp now p e) =
  Some (mkActivePowerUp (pu_type p) POWER_UP_DURATION now).
Proof.
  unfold collectPowerUp. destruct (pu_type p); cbn; try reflexivity.
  case_cond; reflexivity.
Qed.

Lemma currentSpeed_collect_speed (now : Z) (p : PowerUp) (e : Engine) :
  pu_type p = SPEED ->
  currentSpeed (collectPowerUp now p e) = Qmax (currentSpeed e * (1 # 2)) 20.
Proof. intros H. unfold collectPowerUp. rewrite H. reflexivity. Qed.

Lemma currentSpeed_collect_slow (now : Z) (p : PowerUp) (e : Engine) :
  pu_type p = SLOW ->
  currentSpeed (collectPowerUp now p e) = Qmin (currentSpeed e * 2) 300.
Proof. intros H. unfold collectPowerUp. rewrite H. reflexivity. Qed.

Lemma half_le (a b : Q) : (a * (1 # 2) <= b <-> a <= 2 * b)%Q.
Proof.
  rewrite <- (Qmult_le_r (a * (1 # 2)) b 2) by reflexivity.
  assert (H1 : (a * (1 # 2) * 2 == a)%Q) by ring.
  assert (H2 : (b * 2 == 2 * b)%Q) by ring.
  rewrite H1, H2. reflexivity.
Qed.

Lemma le_half (a b : Q) : (b <= a * (1 # 2) <-> 2 * b <= a)%Q.
Proof.
  rewrite <- (Qmult_le_r b (a * (1 # 2)) 2) by reflexivity.
  assert (H1 : (a * (1 # 2) * 2 == a)%Q) by ring.
  assert (H2 : (b * 2 == 2 * b)%Q) by ring.
  rewrite H1, H2. reflexivity.
Qed.

(** C6.  Picking up a speed power-up halves the move interval, down to
    the floor of 20 ms; picking up a slow power-up doubles it, up to the
    ceiling of 300 ms; either occupies the active-effect slot from [now]
    for the fixed duration.  Before the duration has elapsed,
    [updatePowerUps] leaves slot and interval alone; once it has, the slot
    is empty, a speed effect has doubled the interval, not beyond the base
    interval of the difficulty, and a slow effect has halved it, not below
    that base. *)
Theorem speed_slow_effects (now : Z) (p : PowerUp) (e : Engine) :
  let base := inject_Z (sc_initial (SPEED_CONFIG (difficulty (config e)))) in
  (pu_type p = SPEED ->
     let e' := collectPowerUp now p e in
     activePowerUp e' = Some (mkActivePowerUp SPEED POWER_UP_DURATION now)
     /\ (40 <= currentSpeed e -> currentSpeed e' == currentSpeed e * (1 # 2))%Q
     /\ (currentSpeed e <= 40 -> currentSpeed e' == 20)%Q)
  /\ (pu_type p = SLOW ->
     let e' := collectPowerUp now p e in
     activePowerUp e' = Some (mkActivePowerUp SLOW POWER_UP_DURATION now)
     /\ (currentSpeed e <= 150 -> currentSpeed e' == currentSpeed e * 2)%Q
     /\ (150 <= currentSpeed e -> currentSpeed e' == 300)%Q)
  /\ (forall a : ActivePowerUp,
        activePowerUp e = Some a ->
        now - ap_startTime a < ap_duration a ->
        activePowerUp (updatePowerUps now e) = Some a
        /\ currentSpeed (updatePowerUps now e) = currentSpeed e)
  /\ (forall a : ActivePowerUp,
        activePowerUp e = Some a ->
        ap_duration a <= now - ap_startTime a ->
        let e' := updatePowerUps now e in
        activePowerUp e' = None
        /\ (ap_type a = SPEED ->
            (currentSpeed e * 2 <= base -> currentSpeed e' == currentSpeed e * 2)
            /\ (base <= currentSpeed e * 2 -> currentSpeed e' == base))%Q
        /\ (ap_type a = SLOW ->
            (base <= currentSpeed e * (1 # 2) ->
             currentSpeed e' == currentSpeed e * (1 # 2))
            /\ (currentSpeed e * (1 # 2) <= base -> currentSpeed e' == base))%Q
        /\ (ap_type a <> SPEED -> ap_type a <> SLOW ->
            currentSpeed e' = currentSpeed e)).
Proof.
  cbv zeta. split_conj.
  - intros Hty. rewrite activePowerUp_collectPowerUp, Hty.
    rewrite currentSpeed_collect_speed by exact Hty.
    repeat split.
    + intros H. apply Q.max_l. apply le_half. exact H.
    + intros H. apply Q.max_r. apply half_le. exact H.
  - intros Hty. rewrite activePowerUp_collectPowerUp, Hty.
    rewrite currentSpeed_collect_slow by exact Hty.
    repeat split.
    + intros H. apply Q.min_l.
      apply (Qmult_le_r _ _ 2) in H; [exact H | reflexivity].
    + intros H. apply Q.min_r.
      apply (Qmult_le_r _ _ 2) in H; [exact H | reflexivity].
  - intros a Ha Hlt. unfold updatePowerUps. cbn. rewrite Ha.
    destruct (now - ap_startTime a >=? ap_duration a) eqn:Hb;
      [apply Z.geb_le in Hb; lia|].
    split; [exact Ha | reflexivity].
  - intros a Ha Hge. unfold updatePowerUps. cbn. rewrite Ha.
    destruct (now - ap_startTime a >=? ap_duration a) eqn:Hb;
      [|rewrite Z.geb_leb in Hb; apply Z.leb_gt in Hb; lia].
    split; [destruct (ap_type a); reflexivity|].
    split_conj.
    + intros Hty. rewrite Hty. cbn. split; intros H.
      * apply Q.min_l. exact H.
      * apply Q.min_r. exact H.
    + intros Hty. rewrite Hty. cbn. split; intros H.
      * apply Q.max_l. exact H.
      * apply Q.max_r. exact H.
    + intros H1 H2. destruct (ap_type a); try reflexivity; congruence.
Qed.

(** C6 on a new normal game: the interval of 100 ms is halved. *)
Lemma speed_slow_effects_witness :
  (currentSpeed (collectPowerUp 0 speedPowerUp playing) == 50)%Q.
Proof.
  destruct (speed_slow_effects 0 speedPowerUp playing) as [Hspeed _].
  destruct (Hspeed eq_refl) as (_ & Hhalf & _).
  rewrite Hhalf; [reflexivity | discriminate].
Defined.

(* ===================================================================== *)
(** * Direction changes                                                   *)
(* ===================================================================== *)

(** C8.  [changeDirection] with the exact opposite of the snake's current
    direction returns the engine as it was, the queued direction
    included; with any other argument it sets the queued direction to the
    argument and changes nothing else. *)
Theorem changeDirection_opposite (d : Direction) (e : Engine) :
  (dx d = - dx (direction (snake e)) /\ dy d = - dy (direction (snake e)) ->
   changeDirection d e = e)
  /\ (~ (dx d = - dx (direction (snake e)) /\ dy d = - dy (direction (snake e))) ->
      changeDirection d e = set_snake (set_nextDirection d (snake e)) e
      /\ nextDirection (snake (changeDirection d e)) = d).
Proof.
  unfold changeDirection, areOppositeDirections. split.
  - intros [Hx Hy]. rewrite <- Hx, <- Hy, !Z.eqb_refl. reflexivity.
  - intros Hn.
    destruct ((dx d =? - dx (direction (snake e)))
              && (dy d =? - dy (direction (snake e)))) eqn:Hb.
    + apply andb_true_iff in Hb. destruct Hb as [Hx Hy].
      apply Z.eqb_eq in Hx, Hy. tauto.
    + split; reflexivity.
Qed.

(** C8 on a new game, where the snake faces right. *)
Lemma changeDirection_opposite_witness :
  changeDirection DIRECTIONS.LEFT playing = playing
  /\ nextDirection (snake (changeDirection DIRECTIONS.UP playing)) = DIRECTIONS.UP.
Proof.
  split.
  - apply (changeDirection_opposite DIRECTIONS.LEFT playing). split; reflexivity.
  - apply (changeDirection_opposite DIRECTIONS.UP playing).
    intros [Hx _]. discriminate Hx.
Defined.

(* ===================================================================== *)
(** * The [length] field of the snake                                     *)
(* ===================================================================== *)

Lemma snake_length_handleDeath (e : Engine) :
  snake_length (snake (handleDeath e)) = snake_length (snake e).
Proof.
  unfold handleDeath. cbn. destruct (lives (stats e) - 1 <=? 0); reflexivity.
Qed.

Lemma snake_length_collectPowerUp (now : Z) (p : PowerUp) (e : Engine) :
  snake_length (snake (collectPowerUp now p e)) = snake_length (snake e).
Proof.
  unfold collectPowerUp. destruct (pu_type p); cbn; try reflexivity.
  case_cond; reflexivity.
Qed.

Lemma snake_updatePowerUps (now : Z) (e : Engine) :
  snake (updatePowerUps now e) = snake e.
Proof.
  unfold updatePowerUps. cbn.
  destruct (activePowerUp e) as [a|]; [|reflexivity].
  destruct (_ >=? _); [|reflexivity].
  destruct (ap_type a); reflexivity.
Qed.

Lemma snake_length_updateGameLogic (now : Z) (e e' : Engine) (r r' : RandomSource) :
  updateGameLogic now e r = Some (e', r') ->
  snake_length (snake e') = snake_length (snake e).
Proof.
  intros Hrun.
  destruct (segments (snake e)) as [|currentHead rest] eqn:Hseg.
  { unfold updateGameLogic in Hrun. cbn in Hrun. rewrite Hseg in Hrun.
    discriminate. }
  destruct (updateGameLogic_cases now e r currentHead rest Hseg)
    as [H | [[f [Hf H]] | [[p H] | [head H]]]]; rewrite H in Hrun.
  - injection Hrun as <- _. rewrite snake_length_handleDeath. reflexivity.
  - destruct (eatFood_frame now (grown e (candidateHead e currentHead)) r f Hf)
      as (e1 & r1 & Hrun1 & Hsnake & _).
    rewrite Hrun1 in Hrun. injection Hrun as <- _. rewrite Hsnake. reflexivity.
  - injection Hrun as <- _. rewrite snake_length_collectPowerUp. reflexivity.
  - injection Hrun as <- _. reflexivity.
Qed.

Lemma snake_length_update (deltaTime : Q) (now : Z) (e e' : Engine)
    (r r' : RandomSource) :
  update deltaTime now e r = Some (e', r') ->
  snake_length (snake e') = snake_length (snake e).
Proof.
  unfold update.
  destruct (negb (GameState_eqb (state e) PLAYING)).
  { intros H. injection H as <- _. reflexivity. }
  unfold bind.
  match goal with
  | |- context [if ?c then updateGameLogic now ?e0 else ret ?e2] =>
      destruct c;
      [ destruct (updateGameLogic now e0 r) as [[e3 r3]|] eqn:Hrun;
        [apply snake_length_updateGameLogic in Hrun | discriminate]
      | unfold ret at 1 ]
  end;
    intros H; injection H as <- _;
    destruct (Z.rem _ 10 =? 0); cbn; rewrite snake_updatePowerUps;
    try rewrite Hrun; reflexivity.
Qed.

Lemma snake_length_init (now : Z) (e e' : Engine) (r r' : RandomSource) :
  init now e r = Some (e', r') ->
  snake_length (snake e') = INITIAL_SNAKE_LENGTH.
Proof.
  unfold init.
  destruct (spawnFood_frame (reset now e) r) as (fd & r1 & Hsp & _).
  rewrite (bind_Some _ _ _ _ _ Hsp).
  destruct (generateObstacles_frame now (set_food fd (reset now e)) r1)
    as (os & r2 & Hob).
  rewrite Hob. intros H. injection H as <- _. reflexivity.
Qed.

Lemma snake_length_reachable (e : Engine) :
  reachable e -> snake_length (snake e) = INITIAL_SNAKE_LENGTH.
Proof.
  induction 1 as [cfg | now e e' r r' _ _ Hrun | dt now e e' r r' _ IH Hrun
                 | d e _ IH | s e _ IH].
  - reflexivity.
  - eapply snake_length_init; eassumption.
  - rewrite (snake_length_update _ _ _ _ _ _ Hrun). exact IH.
  - unfold changeDirection. destruct (negb _); [cbn|]; exact IH.
  - exact IH.
Qed.

Lemma mealRun_reachable (e : Engine) (r : RandomSource) :
  mealRun = Some (e, r) -> reachable e.
Proof.
  unfold mealRun, bind.
  destruct (init 1000 (constructor (sampleConfig NORMAL CLASSIC)) mealSamples)
    as [[e1 r1]|] eqn:Hinit; [|discriminate].
  intros Hup.
  eapply reachable_update; [|exact Hup].
  apply reachable_setState.
  eapply reachable_init; [apply reachable_new | exact Hinit].
Qed.

Lemma mealRun_segments :
  option_map (fun er => segments (snake (fst er))) mealRun =
  Some [mkPosition 13 12; mkPosition 12 12; mkPosition 11 12; mkPosition 10 12].
Proof. vm_compute. reflexivity. Qed.

Lemma shrinkRun_reachable (e : Engine) (r : RandomSource) :
  shrinkRun = Some (e, r) -> reachable e.
Proof.
  unfold shrinkRun, bind.
  destruct (init 1000 (constructor (sampleConfig NORMAL ARCADE)) shrinkSamples)
    as [[e1 r1]|] eqn:Hinit; [|discriminate].
  destruct (update 100 1100 (setState PLAYING e1) r1)
    as [[e2 r2]|] eqn:Hup1; [|discriminate].
  intros Hup2.
  eapply reachable_update; [|exact Hup2].
  eapply reachable_update; [|exact Hup1].
  apply reachable_setState.
  eapply reachable_init; [apply reachable_new | exact Hinit].
Qed.

Lemma shrinkRun_segments :
  option_map (fun er => (segments (snake (fst er)), activePowerUp (fst er)))
    shrinkRun =
  Some ([mkPosition 14 12; mkPosition 13 12],
        Some (mkActivePowerUp SHRINK POWER_UP_DURATION 1200)).
Proof. vm_compute. reflexivity. Qed.

(** C10.  In every state a client can reach, the [length] field of the
    snapshot [getSnake()] returns is the initial snake length, 3: no
    method writes it after construction and reset.  It does not track the
    segment count: after one meal the reachable snake has four segments,
    and after the shrink effect that follows it has two. *)
Theorem snake_length_field_constant :
  (forall e : Engine,
      reachable e -> snake_length (getSnake e) = INITIAL_SNAKE_LENGTH)
  /\ INITIAL_SNAKE_LENGTH = 3
  /\ (exists e : Engine,
        reachable e
        /\ List.length (segments (getSnake e)) = 4%nat
        /\ snake_length (getSnake e) = 3)
  /\ (exists e : Engine,
        reachable e
        /\ List.length (segments (getSnake e)) = 2%nat
        /\ snake_length (getSnake e) = 3).
Proof.
  split; [|split; [|split]].
  - intros e Hr. apply (snake_length_reachable e Hr).
  - reflexivity.
  - pose proof mealRun_segments as Hseg.
    destruct mealRun as [[e r]|] eqn:Hrun; [|discriminate].
    exists e. pose proof (mealRun_reachable e r Hrun) as Hr.
    split; [exact Hr|]. split.
    + cbn in Hseg. injection Hseg as Hseg. cbn. rewrite Hseg. reflexivity.
    + apply (snake_length_reachable e Hr).
  - pose proof shrinkRun_segments as Hseg.
    destruct shrinkRun as [[e r]|] eqn:Hrun; [|discriminate].
    exists e. pose proof (shrinkRun_reachable e r Hrun) as Hr.
    split; [exact Hr|]. split.
    + cbn in Hseg. injection Hseg as Hseg _. cbn. rewrite Hseg. reflexivity.
    + apply (snake_length_reachable e Hr).
Qed.

(** C10 on a new engine. *)
Lemma snake_length_field_constant_witness :
  snake_length (getSnake playing) = 3.
Proof.
  apply (proj1 snake_length_field_constant playing).
  apply reachable_setState. apply reachable_new.
Defined.

(* ===================================================================== *)
(** * Snapshots                                                           *)
(* ===================================================================== *)

Section Separation.

Import Store.

Variable h : heap.
Hypothesis h_closed : closed h.

Let n := List.length h.

Lemma closed_lookup (l : loc) (o : obj) :
  h !! l = Some o -> Forall (below n) (obj_vals o).
Proof.
  intros Hl. unfold closed in h_closed.
  rewrite Forall_lookup in h_closed. exact (h_closed l o Hl).
Qed.

(** What is read from an object of [h] is the same in every store that
    agrees with [h]. *)
Lemma observe_agree (h' : heap) :
  agree n h h' ->
  forall (depth : nat) (v : val),
    below n v -> observe depth h' v = observe depth h v.
Proof.
  intros [_ Hag]. induction depth as [|d IH]; intros v Hv.
  - destruct v; reflexivity.
  - destruct v as [c|l]; [reflexivity|]. cbn in Hv. cbn [observe].
    rewrite (Hag l Hv).
    destruct (h !! l) as [o|] eqn:Hl; [|reflexivity].
    pose proof (closed_lookup l o Hl) as Hvals.
    destruct o as [fs|vs]; cbn in Hvals; f_equal.
    + apply map_ext_in. intros [f v] Hin. cbn. f_equal. apply IH.
      rewrite List.Forall_forall in Hvals. apply Hvals.
      apply (in_map snd) in Hin. exact Hin.
    + apply map_ext_in. intros v Hin. apply IH.
      rewrite List.Forall_forall in Hvals. apply Hvals. exact Hin.
Qed.

Lemma agree_alloc (h' : heap) (o : obj) :
  agree n h h' -> agree n h (h' ++ [o]).
Proof.
  intros [Hlen Hag]. split.
  - rewrite length_app. lia.
  - intros l Hl. rewrite lookup_app_l by lia. apply Hag. exact Hl.
Qed.

Lemma agree_start (o : obj) : agree n h (h ++ [o]).
Proof.
  apply agree_alloc. split; [unfold n; lia | reflexivity].
Qed.

(** A statement on an object allocated after [h] leaves [h] alone. *)
Lemma agree_modify (h' : heap) (v : val) (f : obj -> obj) :
  fresh n v -> agree n h h' -> agree n h (modify h' v f).
Proof.
  intros Hv [Hlen Hag]. unfold modify.
  destruct v as [c|l]; [split; assumption|].
  destruct (h' !! l) as [o|]; [|split; assumption].
  cbn in Hv. split.
  - rewrite length_insert. exact Hlen.
  - intros l' Hl'. rewrite list_lookup_insert_ne by lia. apply Hag. exact Hl'.
Qed.

Lemma agree_apply (snap : val) (h' : heap) (m : mutation) :
  fresh n (resolve h' snap (target m)) ->
  agree n h h' -> agree n h (apply snap h' m).
Proof.
  intros Hv Hag. destruct m as [p k r | p k o | p r | p | p e]; cbn in Hv |- *;
    try (apply agree_modify; assumption).
  destruct (resolve h' snap p) as [c|l] eqn:Hres; [exact Hag|].
  destruct (h' !! l) as [o'|]; [|exact Hag].
  apply (agree_modify (h' ++ [objOfLit o]) (VRef l)
           (updateKey k (VRef (List.length h'))));
    [exact Hv | apply agree_alloc; exact Hag].
Qed.

End Separation.

Section Region.

Import Store.

Variable n : nat.

Lemma fresh_getField (f : string) (fs : list (string * val)) :
  Forall (fresh n) (List.map snd fs) -> fresh n (getField f fs).
Proof.
  induction fs as [|[g v] fs IH]; intros Hall; [exact I|].
  cbn in Hall |- *. apply Forall_cons in Hall. destruct Hall as [Hv Hfs].
  destruct (String.eqb f g); [exact Hv | apply IH; exact Hfs].
Qed.

Lemma fresh_nth (i : nat) (vs : list val) :
  Forall (fresh n) vs -> fresh n (nth i vs VUndefined).
Proof.
  intros Hall. destruct (nth_in_or_default i vs VUndefined) as [Hin | ->];
    [|exact I].
  rewrite List.Forall_forall in Hall. apply Hall. exact Hin.
Qed.

Lemma fresh_readKey (h : heap) (v : val) (k : key) :
  separate n h -> fresh n v -> fresh n (readKey h v k).
Proof.
  intros Hsep Hv. unfold readKey. destruct v as [c|l]; [exact I|].
  destruct (h !! l) as [o|] eqn:Hl; [|exact I].
  pose proof (Hsep l o Hv Hl) as Hvals.
  destruct o as [fs|vs], k as [f|i]; try exact I.
  - apply fresh_getField. exact Hvals.
  - apply fresh_nth. exact Hvals.
Qed.

Lemma fresh_resolve (h : heap) (p : path) :
  separate n h -> forall v, fresh n v -> fresh n (resolve h v p).
Proof.
  intros Hsep. induction p as [|k p IH]; intros v Hv; [exact Hv|].
  cbn. apply IH. apply fresh_readKey; assumption.
Qed.

Lemma fresh_evalRhs (h : heap) (snap : val) (r : rhs) :
  separate n h -> fresh n snap -> fresh n (evalRhs h snap r).
Proof.
  intros Hsep Hsnap. destruct r as [c|p]; [exact I|].
  apply fresh_resolve; assumption.
Qed.

Lemma fresh_setField (f : string) (v : val) (fs : list (string * val)) :
  fresh n v -> Forall (fresh n) (List.map snd fs) ->
  Forall (fresh n) (List.map snd (setField f v fs)).
Proof.
  intros Hv. induction fs as [|[g w] fs IH]; intros Hall; cbn.
  - apply Forall_cons. split; [exact Hv | apply Forall_nil_2].
  - cbn in Hall. apply Forall_cons in Hall. destruct Hall as [Hw Hfs].
    destruct (String.eqb f g); cbn; apply Forall_cons; split;
      try assumption. apply IH. exact Hfs.
Qed.

Lemma fresh_setIndex (i : nat) (v : val) (vs : list val) :
  fresh n v -> Forall (fresh n) vs -> Forall (fresh n) (setIndex i v vs).
Proof.
  intros Hv Hall. unfold setIndex. destruct (i <? List.length vs)%nat.
  - apply Forall_insert; assumption.
  - apply Forall_app. split; [exact Hall|]. apply Forall_app. split.
    + apply List.Forall_forall. intros x Hx.
      apply repeat_spec in Hx. subst x. exact I.
    + apply Forall_cons. split; [exact Hv | apply Forall_nil_2].
Qed.

Lemma fresh_updateKey (k : key) (v : val) (o : obj) :
  fresh n v -> Forall (fresh n) (obj_vals o) ->
  Forall (fresh n) (obj_vals (updateKey k v o)).
Proof.
  intros Hv Hall. destruct o as [fs|vs], k as [f|i]; cbn in *; try assumption.
  - apply fresh_setField; assumption.
  - apply fresh_setIndex; assumption.
Qed.

Lemma fresh_pushVal (v : val) (o : obj) :
  fresh n v -> Forall (fresh n) (obj_vals o) ->
  Forall (fresh n) (obj_vals (pushVal v o)).
Proof.
  intros Hv Hall. destruct o as [fs|vs]; cbn in *; [assumption|].
  apply Forall_app. split; [exact Hall|].
  apply Forall_cons. split; [exact Hv | apply Forall_nil_2].
Qed.

Lemma Forall_removelast {A : Type} (P : A -> Prop) (l : list A) :
  Forall P l -> Forall P (removelast l).
Proof.
  induction l as [|a l IH]; intros Hall; [exact Hall|].
  apply Forall_cons in Hall. destruct Hall as [Ha Hl].
  destruct l as [|b l]; [apply Forall_nil_2|].
  change (removelast (a :: b :: l)) with (a :: removelast (b :: l)).
  apply Forall_cons. split; [exact Ha | apply IH; exact Hl].
Qed.

Lemma fresh_popVal (o : obj) :
  Forall (fresh n) (obj_vals o) -> Forall (fresh n) (obj_vals (popVal o)).
Proof.
  intros Hall. destruct o as [fs|vs]; cbn in *; [assumption|].
  apply Forall_removelast. exact Hall.
Qed.

Lemma fresh_evalObj (h : heap) (snap : val) (e : objexpr) :
  separate n h -> fresh n snap ->
  Forall (fresh n) (obj_vals (evalObj h snap e)).
Proof.
  intros Hsep Hsnap. destruct e as [fs|rs]; cbn.
  - rewrite List.map_map. cbn. apply List.Forall_forall. intros v Hin.
    apply in_map_iff in Hin. destruct Hin as [[f r] [<- _]]. cbn.
    apply fresh_evalRhs; assumption.
  - apply List.Forall_forall. intros v Hin.
    apply in_map_iff in Hin. destruct Hin as [r [<- _]].
    apply fresh_evalRhs; assumption.
Qed.

Lemma fresh_objOfLit (o : objlit) :
  Forall (fresh n) (obj_vals (objOfLit o)).
Proof.
  destruct o as [fs|cs]; cbn.
  - rewrite List.map_map. cbn. apply List.Forall_forall. intros v Hin.
    apply in_map_iff in Hin. destruct Hin as [fc [<- _]]. exact I.
  - apply List.Forall_forall. intros v Hin.
    apply in_map_iff in Hin. destruct Hin as [c [<- _]]. exact I.
Qed.

Lemma separate_alloc (h : heap) (o : obj) :
  separate n h -> Forall (fresh n) (obj_vals o) -> separate n (h ++ [o]).
Proof.
  intros Hsep Ho l o' Hl Hlook.
  destruct (Nat.lt_ge_cases l (List.length h)) as [Hlt | Hge].
  - rewrite lookup_app_l in Hlook by exact Hlt. apply (Hsep l o' Hl Hlook).
  - rewrite lookup_app_r in Hlook by exact Hge.
    destruct (l - List.length h)%nat as [|j]; cbn in Hlook.
    + injection Hlook as <-. exact Ho.
    + discriminate.
Qed.

(** A statement that leaves in an object allocated after [n] only what
    such objects may hold keeps them separate. *)
Lemma separate_modify (h : heap) (v : val) (f : obj -> obj) :
  (forall o, Forall (fresh n) (obj_vals o) -> Forall (fresh n) (obj_vals (f o))) ->
  fresh n v -> separate n h -> separate n (modify h v f).
Proof.
  intros Hf Hv Hsep. unfold modify. destruct v as [c|l]; [exact Hsep|].
  destruct (h !! l) as [o|] eqn:Hl; [|exact Hsep].
  intros l' o' Hl' Hlook.
  destruct (Nat.eq_dec l l') as [<- | Hne].
  - rewrite list_lookup_insert_eq in Hlook by (eapply lookup_lt_Some; exact Hl).
    injection Hlook as <-. apply Hf. apply (Hsep l o Hv Hl).
  - rewrite list_lookup_insert_ne in Hlook by exact Hne.
    apply (Hsep l' o' Hl' Hlook).
Qed.

Lemma separate_apply (snap : val) (h : heap) (m : mutation) :
  (n <= List.length h)%nat ->
  fresh n snap -> separate n h -> separate n (apply snap h m).
Proof.
  intros Hlen Hsnap Hsep.
  pose proof (fresh_resolve h (target m) Hsep snap Hsnap) as Htarget.
  destruct m as [p k r | p k o | p r | p | p e]; cbn in Htarget |- *.
  - apply separate_modify; try assumption.
    intros o. apply fresh_updateKey. apply fresh_evalRhs; assumption.
  - destruct (resolve h snap p) as [c|l] eqn:Hres; [exact Hsep|].
    destruct (h !! l) as [o'|]; [|exact Hsep].
    apply (separate_modify (h ++ [objOfLit o]) (VRef l)
             (updateKey k (VRef (List.length h)))).
    + intros o1. apply fresh_updateKey. exact Hlen.
    + exact Htarget.
    + apply separate_alloc; [exact Hsep | apply fresh_objOfLit].
  - apply separate_modify; try assumption.
    intros o. apply fresh_pushVal. apply fresh_evalRhs; assumption.
  - apply separate_modify; try assumption.
    intros o. apply fresh_popVal.
  - apply separate_modify; try assumption.
    intros o _. apply fresh_evalObj; assumption.
Qed.

End Region.

Section Getters.

Import Store.

Variable h : heap.
Hypothesis h_closed : closed h.

Let n := List.length h.

(** A getter returns [null] and the store as it was, or the address of a
    new object holding what the source object holds. *)
Lemma get_shape (g : getter) (this : loc) (snap : val) (h1 : heap) :
  get g h this = Some (snap, h1) ->
  (snap = VNull /\ h1 = h)
  \/ (exists l o,
        thisField h this (source g) = VRef l /\ h !! l = Some o
        /\ snap = VRef n /\ h1 = h ++ [o]).
Proof.
  assert (Hobj : forall v, spreadObject h v = Some (snap, h1) ->
            exists l o, v = VRef l /\ h !! l = Some o
                        /\ snap = VRef n /\ h1 = h ++ [o]).
  { intros v Hv. unfold spreadObject in Hv. destruct v as [c|l]; [discriminate|].
    destruct (h !! l) as [[fs|vs]|] eqn:Hl; try discriminate.
    cbn in Hv. injection Hv as <- <-. exists l, (ORec fs). auto. }
  assert (Harr : forall v, spreadArray h v = Some (snap, h1) ->
            exists l o, v = VRef l /\ h !! l = Some o
                        /\ snap = VRef n /\ h1 = h ++ [o]).
  { intros v Hv. unfold spreadArray in Hv. destruct v as [c|l]; [discriminate|].
    destruct (h !! l) as [[fs|vs]|] eqn:Hl; try discriminate.
    cbn in Hv. injection Hv as <- <-. exists l, (OArr vs). auto. }
  assert (Hnull : forall v, spreadOrNull h v = Some (snap, h1) ->
            (snap = VNull /\ h1 = h)
            \/ exists l o, v = VRef l /\ h !! l = Some o
                           /\ snap = VRef n /\ h1 = h ++ [o]).
  { intros v Hv. unfold spreadOrNull in Hv.
    destruct v as [[| | | |]|l]; try (right; apply Hobj; exact Hv);
      left; injection Hv as <- <-; auto. }
  destruct g; cbn; intros Hg;
    try (right; apply Hobj; exact Hg);
    try (right; apply Harr; exact Hg);
    apply Hnull; exact Hg.
Qed.

Lemma fresh_snapshot (g : getter) (this : loc) (snap : val) (h1 : heap) :
  get g h this = Some (snap, h1) -> fresh n snap /\ agree n h h1.
Proof.
  intros Hg. destruct (get_shape g this snap h1 Hg)
    as [[-> ->] | (l & o & _ & _ & -> & ->)].
  - split; [exact I|]. split; [unfold n; lia | reflexivity].
  - split; [cbn; lia | apply agree_start].
Qed.

(** Statements on the snapshot object itself leave the engine alone. *)
Lemma run_toplevel (snap : val) (ms : list mutation) :
  fresh n snap -> Forall (fun m => target m = []) ms ->
  forall h', agree n h h' -> agree n h (run snap ms h').
Proof.
  intros Hsnap. induction ms as [|m ms IH]; intros Hall h' Hag; [exact Hag|].
  apply Forall_cons in Hall. destruct Hall as [Hm Hms].
  cbn. apply IH; [exact Hms|].
  apply agree_apply; [|exact Hag]. rewrite Hm. exact Hsnap.
Qed.

(** Any statements on a snapshot that is separate from the engine leave
    the engine alone. *)
Lemma run_separate (snap : val) (ms : list mutation) :
  fresh n snap ->
  forall h', agree n h h' -> separate n h' -> agree n h (run snap ms h').
Proof.
  intros Hsnap. induction ms as [|m ms IH]; intros h' Hag Hsep; [exact Hag|].
  cbn. apply IH.
  - apply agree_apply; [|exact Hag]. apply fresh_resolve; assumption.
  - apply separate_apply; [exact (proj1 Hag) | exact Hsnap | exact Hsep].
Qed.

Lemma separate_snapshot (g : getter) (this : loc) (snap : val) (h1 : heap) :
  flatField h this (source g) ->
  get g h this = Some (snap, h1) -> separate n h1.
Proof.
  intros Hflat Hg. destruct (get_shape g this snap h1 Hg)
    as [[-> ->] | (l & o & Hsrc & Hl & -> & ->)].
  - intros l o Hl Hlook. apply lookup_lt_Some in Hlook. unfold n in Hl. lia.
  - apply separate_alloc.
    + intros l' o' Hl' Hlook. apply lookup_lt_Some in Hlook. unfold n in Hl'. lia.
    + pose proof (Hflat l o Hsrc Hl) as Hprim.
      eapply Forall_impl; [exact Hprim|]. intros [c|l']; cbn; tauto.
Qed.

(** A snapshot reads as its source did. *)
Lemma observe_snapshot (g : getter) (this : loc) (snap : val) (h1 : heap)
    (depth : nat) :
  get g h this = Some (snap, h1) ->
  observe depth h1 snap = observe depth h (thisField h this (source g))
  \/ (snap = VNull /\ h1 = h).
Proof.
  intros Hg. destruct (get_shape g this snap h1 Hg)
    as [Hnull | (l & o & Hsrc & Hl & -> & ->)]; [right; exact Hnull|].
  left. rewrite Hsrc. destruct depth as [|d]; [reflexivity|]. cbn [observe].
  rewrite Hl. rewrite lookup_app_r by (unfold n; lia).
  replace (n - List.length h)%nat with 0%nat by (unfold n; lia). cbn.
  pose proof (closed_lookup h h_closed l o Hl) as Hvals.
  destruct o as [fs|vs]; cbn in Hvals; f_equal.
  - apply map_ext_in. intros [f v] Hin. cbn. f_equal.
    apply (observe_agree h h_closed); [apply agree_start|].
    rewrite List.Forall_forall in Hvals. apply Hvals.
    apply (in_map snd) in Hin. exact Hin.
  - apply map_ext_in. intros v Hin.
    apply (observe_agree h h_closed); [apply agree_start|].
    rewrite List.Forall_forall in Hvals. apply Hvals. exact Hin.
Qed.

End Getters.


(** The store of a new engine is well formed. *)
Lemma sampleStore_closed : Store.closed (fst sampleStore).
Proof.
  unfold Store.closed. vm_compute.
  repeat (first [apply List.Forall_nil | apply List.Forall_cons]);
    try exact I; lia.
Qed.

Lemma sampleStore_this : (snd sampleStore < List.length (fst sampleStore))%nat.
Proof. vm_compute. lia. Qed.

Lemma sampleStore_stats_flat :
  Store.flatField (fst sampleStore) (snd sampleStore) (Store.source Store.GStats).
Proof.
  intros l o Hsrc Hl. vm_compute in Hsrc. injection Hsrc as <-.
  vm_compute in Hl. injection Hl as <-.
  repeat (first [apply List.Forall_nil | apply List.Forall_cons]); exact I.
Qed.



(* ===================================================================== *)
(** * Free cells and spawning                                             *)
(* ===================================================================== *)

Lemma existsb_positionsEqual_l (pos : Position) (l : list Position) :
  existsb (fun s => positionsEqual s pos) l = true <-> In pos l.
Proof.
  rewrite existsb_exists. split.
  - intros [s [Hin Heq]]. apply positionsEqual_eq in Heq. subst s. exact Hin.
  - intros Hin. exists pos. split; [exact Hin | apply positionsEqual_refl].
Qed.

Lemma occupied_false (e : Engine) (pos : Position) :
  occupied e pos = false
  <-> ~ atSelf e pos /\ ~ atFood e pos /\ ~ atPowerUp e pos /\ ~ atObstacle e pos.
Proof.
  unfold occupied. rewrite !orb_false_iff. split.
  - intros [[[Hs Hf] Hp] Ho]. split_conj.
    + intros H. apply existsb_positionsEqual_l in H. congruence.
    + intros [f [Hfood Hpos]]. rewrite Hfood in Hf. subst pos.
      rewrite positionsEqual_refl in Hf. discriminate.
    + intros [p [Hin Hpos]].
      assert (existsb (fun p => positionsEqual (pu_position p) pos) (powerUps e) = true).
      { apply existsb_exists. exists p. split; [exact Hin|].
        rewrite Hpos. apply positionsEqual_refl. }
      congruence.
    + intros [o [Hin Hpos]].
      assert (existsb (fun o => positionsEqual (ob_position o) pos) (obstacles e) = true).
      { apply existsb_exists. exists o. split; [exact Hin|].
        rewrite Hpos. apply positionsEqual_refl. }
      congruence.
  - intros (Hs & Hf & Hp & Ho). split_conj.
    + destruct (existsb _ (segments (snake e))) eqn:Hb; [|reflexivity].
      apply existsb_positionsEqual_l in Hb. contradiction.
    + destruct (food e) as [f|] eqn:Hfood; [|reflexivity].
      destruct (positionsEqual (food_position f) pos) eqn:Hb; [|reflexivity].
      apply positionsEqual_eq in Hb. exfalso. apply Hf. exists f. auto.
    + destruct (existsb _ (powerUps e)) eqn:Hb; [|reflexivity].
      apply existsb_exists in Hb. destruct Hb as [p [Hin Heq]].
      apply positionsEqual_eq in Heq. exfalso. apply Hp. exists p. auto.
    + destruct (existsb _ (obstacles e)) eqn:Hb; [|reflexivity].
      apply existsb_exists in Hb. destruct Hb as [o [Hin Heq]].
      apply positionsEqual_eq in Heq. exfalso. apply Ho. exists o. auto.
Qed.

Lemma NoDup_flat_map {A B : Type} (f : A -> list B) (l : list A) :
  NoDup l ->
  (forall a, In a l -> NoDup (f a)) ->
  (forall a a' b, In a l -> In a' l -> In b (f a) -> In b (f a') -> a = a') ->
  NoDup (flat_map f l).
Proof.
  induction l as [|a l IH]; intros Hnd Hf Hdis; cbn; [apply NoDup_nil_2|].
  apply NoDup_cons in Hnd. destruct Hnd as [Ha Hl].
  apply NoDup_app. split_conj.
  - apply Hf. left. reflexivity.
  - intros b Hb Hb'. apply list_elem_of_In in Hb, Hb'.
    apply in_flat_map in Hb'. destruct Hb' as [a' [Ha' Hb']].
    assert (a = a') by (apply (Hdis a a' b); cbn; auto). subst a'.
    apply Ha. apply list_elem_of_In. exact Ha'.
  - apply IH; [exact Hl | intros; apply Hf; right; assumption|].
    intros a1 a2 b H1 H2. apply Hdis; right; assumption.
Qed.

Lemma available_iff (e : Engine) (pos : Position) :
  In pos (getAvailablePositions e)
  <-> onGrid e pos /\ ~ atSelf e pos /\ ~ atFood e pos
      /\ ~ atPowerUp e pos /\ ~ atObstacle e pos.
Proof.
  unfold getAvailablePositions. cbv zeta.
  rewrite in_flat_map. split.
  - intros [x [Hx Hin]]. apply in_flat_map in Hin. destruct Hin as [y [Hy Hin]].
    apply in_seq in Hx, Hy.
    destruct (occupied e _) eqn:Hocc; [contradiction|].
    destruct Hin as [<- | []]. apply occupied_false in Hocc.
    split; [|exact Hocc]. unfold onGrid. cbn. lia.
  - intros [[Hx Hy] Hfree]. apply occupied_false in Hfree.
    exists (Z.to_nat (px pos)). split; [apply in_seq; lia|].
    apply in_flat_map. exists (Z.to_nat (py pos)). split; [apply in_seq; lia|].
    rewrite !Z2Nat.id by lia. destruct pos as [x y]. cbn in *.
    rewrite Hfree. left. reflexivity.
Qed.

(** X1.  [getAvailablePositions] lists exactly the cells of the grid that
    hold no snake segment, food, power-up or obstacle, each once. *)
Theorem getAvailablePositions_exact (e : Engine) :
  (forall pos : Position,
      In pos (getAvailablePositions e)
      <-> onGrid e pos /\ ~ atSelf e pos /\ ~ atFood e pos
          /\ ~ atPowerUp e pos /\ ~ atObstacle e pos)
  /\ NoDup (getAvailablePositions e).
Proof.
  split; [intros pos; apply available_iff|].
  unfold getAvailablePositions. cbv zeta.
  apply NoDup_flat_map.
  - apply NoDup_ListNoDup, seq_NoDup.
  - intros x _. apply NoDup_flat_map.
    + apply NoDup_ListNoDup, seq_NoDup.
    + intros y _. destruct (occupied e _);
        [apply NoDup_nil_2 | apply NoDup_singleton].
    + intros y y' b _ _ Hb Hb'.
      destruct (occupied e {| px := Z.of_nat x; py := Z.of_nat y |});
        [contradiction|].
      destruct (occupied e {| px := Z.of_nat x; py := Z.of_nat y' |});
        [contradiction|].
      destruct Hb as [<- | []]. destruct Hb' as [Hb' | []].
      injection Hb' as Hb'. lia.
  - intros x x' b _ _ Hb Hb'.
    apply in_flat_map in Hb, Hb'.
    destruct Hb as [y [_ Hb]]. destruct Hb' as [y' [_ Hb']].
    destruct (occupied e {| px := Z.of_nat x; py := Z.of_nat y |});
      [contradiction|].
    destruct (occupied e {| px := Z.of_nat x'; py := Z.of_nat y' |});
      [contradiction|].
    destruct Hb as [<- | []]. destruct Hb' as [Hb' | []].
    injection Hb' as Hb' _. lia.
Qed.

(** [spawnFood] returns: it leaves the engine alone when no cell is free,
    and otherwise sets the food on a free cell, of one of the three
    kinds. *)
Lemma spawnFood_spec (e : Engine) (r : RandomSource) :
  exists e' r',
    spawnFood e r = Some (e', r')
    /\ ((getAvailablePositions e = [] /\ e' = e /\ r' = r)
        \/ exists f,
             e' = set_food (Some f) e
             /\ r' = advance (advance r)
             /\ In (food_position f) (getAvailablePositions e)
             /\ ((food_type f = FOOD_GOLDEN /\ food_value f = 100)
                 \/ (food_type f = FOOD_BONUS /\ food_value f = 50)
                 \/ (food_type f = FOOD_NORMAL /\ food_value f = BASE_FOOD_SCORE))).
Proof.
  unfold spawnFood.
  destruct (getAvailablePositions e) as [|p0 ps] eqn:Hav.
  - exists e, r. split; [reflexivity|]. left. auto.
  - destruct (randomItem_total (p0 :: ps) r) as [position [Hpos Hin]]; [discriminate|].
    rewrite (bind_Some _ _ _ _ _ Hpos).
    rewrite (bind_Some _ _ _ _ _ (Math_random_eq _)). unfold ret.
    destruct (Qltb _ (5 # 100)); [|destruct (Qltb _ (2 # 10))];
      eexists; eexists; (split; [reflexivity|]); right; eexists;
      (split; [reflexivity|]); (split; [reflexivity|]);
      (split; [exact Hin|]); cbn; auto.
Qed.

(** X2.  [spawnFood] never fails.  When no cell is free it changes
    nothing; otherwise it writes only the food, on a cell of the grid
    that held nothing (no segment, power-up, obstacle, nor the previous
    food), golden worth 100, bonus worth 50 or normal worth 10. *)
Theorem spawnFood_on_free_cell (e : Engine) (r : RandomSource) :
  exists e' r',
    spawnFood e r = Some (e', r')
    /\ ((getAvailablePositions e = [] /\ e' = e)
        \/ exists f,
             e' = set_food (Some f) e
             /\ onGrid e (food_position f)
             /\ ~ atSelf e (food_position f)
             /\ ~ atFood e (food_position f)
             /\ ~ atPowerUp e (food_position f)
             /\ ~ atObstacle e (food_position f)
             /\ ((food_type f = FOOD_GOLDEN /\ food_value f = 100)
                 \/ (food_type f = FOOD_BONUS /\ food_value f = 50)
                 \/ (food_type f = FOOD_NORMAL /\ food_value f = 10))).
Proof.
  destruct (spawnFood_spec e r) as (e' & r' & Hrun & Hcases).
  exists e', r'. split; [exact Hrun|].
  destruct Hcases as [(Hnone & He & _) | (f & He & _ & Hin & Hkind)].
  - left. auto.
  - right. exists f. apply available_iff in Hin.
    destruct Hin as (Hgrid & Hs & Hf & Hp & Ho). split_conj; assumption.
Qed.

(** [spawnPowerUp] returns: it leaves the engine alone at three live
    power-ups or when no cell is free, and otherwise appends one power-up
    on a free cell. *)
Lemma spawnPowerUp_spec (now : Z) (e : Engine) (r : RandomSource) :
  exists e' r',
    spawnPowerUp now e r = Some (e', r')
    /\ (e' = e
        \/ ((List.length (powerUps e) < 3)%nat
            /\ exists p,
                 e' = set_powerUps (powerUps e ++ [p]) e
                 /\ In (pu_position p) (getAvailablePositions e)
                 /\ In (pu_type p) PowerUpType_values
                 /\ pu_lifetime p = 10000
                 /\ pu_createdAt p = now)).
Proof.
  unfold spawnPowerUp.
  destruct (3 <=? List.length (powerUps e))%nat eqn:Hcap.
  { exists e, r. split; [reflexivity | left; reflexivity]. }
  apply Nat.leb_gt in Hcap.
  destruct (getAvailablePositions e) as [|p0 ps] eqn:Hav.
  { exists e, r. split; [reflexivity | left; reflexivity]. }
  destruct (randomItem_total (p0 :: ps) r) as [position [Hpos Hin]]; [discriminate|].
  rewrite (bind_Some _ _ _ _ _ Hpos).
  destruct (randomItem_total PowerUpType_values (advance r)) as [type [Hty Htin]];
    [discriminate|].
  rewrite (bind_Some _ _ _ _ _ Hty).
  rewrite (bind_Some _ _ _ _ _ (generateId_eq _ _)).
  eexists; eexists. split; [reflexivity|]. right. split; [exact Hcap|].
  eexists. split; [reflexivity|]. cbn. auto.
Qed.

(** At the cap, or with no free cell, [spawnPowerUp] draws nothing and
    changes nothing. *)
Lemma spawnPowerUp_full (now : Z) (e : Engine) (r : RandomSource) :
  (3 <= List.length (powerUps e))%nat \/ getAvailablePositions e = [] ->
  spawnPowerUp now e r = Some (e, r).
Proof.
  intros Hfull. unfold spawnPowerUp.
  destruct (3 <=? List.length (powerUps e))%nat eqn:Hcap; [reflexivity|].
  apply Nat.leb_gt in Hcap.
  destruct Hfull as [Hle | Hnone]; [lia|].
  rewrite Hnone. reflexivity.
Qed.

(** Below the cap and with a free cell, [spawnPowerUp] draws three samples
    and appends one power-up on a free cell. *)
Lemma spawnPowerUp_appends (now : Z) (e : Engine) (r : RandomSource) :
  (List.length (powerUps e) < 3)%nat ->
  getAvailablePositions e <> [] ->
  exists p,
    spawnPowerUp now e r
    = Some (set_powerUps (powerUps e ++ [p]) e, advance (advance (advance r)))
    /\ In (pu_position p) (getAvailablePositions e)
    /\ In (pu_type p) PowerUpType_values
    /\ pu_lifetime p = 10000
    /\ pu_createdAt p = now.
Proof.
  intros Hcap Hfree. unfold spawnPowerUp.
  apply Nat.leb_gt in Hcap. rewrite Hcap.
  destruct (getAvailablePositions e) as [|p0 ps] eqn:Hav; [congruence|].
  destruct (randomItem_total (p0 :: ps) r) as [position [Hpos Hin]]; [discriminate|].
  rewrite (bind_Some _ _ _ _ _ Hpos).
  destruct (randomItem_total PowerUpType_values (advance r)) as [type [Hty Htin]];
    [discriminate|].
  rewrite (bind_Some _ _ _ _ _ Hty).
  rewrite (bind_Some _ _ _ _ _ (generateId_eq _ _)).
  eexists. split; [reflexivity|]. cbn. auto.
Qed.

(** X3.  [spawnPowerUp] never fails.  With three live power-ups, or with
    no free cell, it changes nothing and draws no sample.  Below three
    power-ups and with a free cell it draws three samples and appends
    exactly one power-up, created at [now] with a lifetime of 10 s, of one
    of the eight types, on a cell of the grid that held nothing.  It never
    leaves more than three power-ups where there were at most three. *)
Theorem spawnPowerUp_capped (now : Z) (e : Engine) (r : RandomSource) :
  exists e' r',
    spawnPowerUp now e r = Some (e', r')
    /\ ((3 <= List.length (powerUps e))%nat \/ getAvailablePositions e = [] ->
        e' = e /\ r' = r)
    /\ ((List.length (powerUps e) < 3)%nat ->
        getAvailablePositions e <> [] ->
        exists p,
          e' = set_powerUps (powerUps e ++ [p]) e
          /\ r' = advance (advance (advance r))
          /\ onGrid e (pu_position p)
          /\ ~ atSelf e (pu_position p)
          /\ ~ atFood e (pu_position p)
          /\ ~ atPowerUp e (pu_position p)
          /\ ~ atObstacle e (pu_position p)
          /\ In (pu_type p) PowerUpType_values
          /\ pu_lifetime p = 10000
          /\ pu_createdAt p = now)
    /\ ((List.length (powerUps e) <= 3)%nat ->
        (List.length (powerUps e') <= 3)%nat).
Proof.
  destruct (le_lt_dec 3 (List.length (powerUps e))) as [Hcap | Hcap].
  { exists e, r. rewrite (spawnPowerUp_full now e r (or_introl Hcap)).
    split; [reflexivity|]. split; [intros _; split; reflexivity|].
    split; [intros Hlt; lia | intros Hle; exact Hle]. }
  destruct (getAvailablePositions e) as [|p0 ps] eqn:Hav.
  { exists e, r. rewrite (spawnPowerUp_full now e r (or_intror Hav)).
    split; [reflexivity|]. split; [intros _; split; reflexivity|].
    split; [intros _ Hne; congruence | intros Hle; exact Hle]. }
  destruct (spawnPowerUp_appends now e r Hcap) as (p & Hrun & Hin & Hty & Hlife & Hnow).
  { rewrite Hav. discriminate. }
  exists (set_powerUps (powerUps e ++ [p]) e), (advance (advance (advance r))).
  split; [exact Hrun|]. split.
  { intros [Hle | Hnone]; [lia | discriminate]. }
  split.
  - intros _ _. exists p. rewrite Hav in Hin. rewrite <- Hav in Hin.
    apply available_iff in Hin.
    destruct Hin as (Hgrid & Hs & Hf & Hp & Ho). split_conj; auto.
  - intros _. cbn. rewrite length_app. cbn. lia.
Qed.

(** X3 on a new game: one power-up is appended. *)
Lemma spawnPowerUp_capped_witness :
  exists e' r',
    spawnPowerUp 0 playing noSamples = Some (e', r')
    /\ List.length (powerUps e') = 1%nat.
Proof.
  destruct (spawnPowerUp_capped 0 playing noSamples)
    as (e' & r' & Hrun & _ & Happend & _).
  exists e', r'. split; [exact Hrun|].
  destruct Happend as (p & -> & _).
  - vm_compute. lia.
  - vm_compute. discriminate.
  - reflexivity.
Defined.

(* ===================================================================== *)
(** * The obstacle field                                                  *)
(* ===================================================================== *)

Lemma getRandomDirection_unit (r : RandomSource) :
  exists d, getRandomDirection r = Some (d, advance r) /\ isUnitDirection d.
Proof.
  destruct (randomItem_total
              [DIRECTIONS.UP; DIRECTIONS.DOWN; DIRECTIONS.LEFT; DIRECTIONS.RIGHT] r)
    as [d [Hd Hin]]; [discriminate|].
  exists d. split; [exact Hd|]. unfold isUnitDirection.
  cbn in Hin. intuition auto.
Qed.

Lemma wellPlaced_snoc (e : Engine) (os : list Obstacle) (o : Obstacle) :
  obstacles e = os ->
  wellPlaced e os ->
  In (ob_position o) (getAvailablePositions e) ->
  wellPlaced e (os ++ [o]).
Proof.
  intros Hos [Hnd Hclear] Hin. apply available_iff in Hin.
  destruct Hin as (Hgrid & Hs & Hf & Hp & Ho). split.
  - rewrite List.map_app. cbn. apply NoDup_app. split_conj.
    + exact Hnd.
    + intros pos Hpos Hpos'. apply list_elem_of_In in Hpos, Hpos'.
      destruct Hpos' as [<- | []]. apply Ho.
      apply in_map_iff in Hpos. destruct Hpos as [o' [Heq Hin']].
      exists o'. rewrite Hos. auto.
    + apply NoDup_singleton.
  - apply Forall_app. split; [exact Hclear|].
    apply Forall_cons. split; [|apply Forall_nil_2].
    unfold clearOfOthers. auto.
Qed.

(** The loop of [generateObstacles] returns; it appends at most [count]
    obstacles, each on a cell that was free when it was placed, and stops
    short of [count] only when the grid is full. *)
Lemma generateObstaclesLoop_spec (count : nat) (now : Z) :
  forall (e : Engine) (r : RandomSource),
    wellPlaced e (obstacles e) ->
    Forall wellTyped (obstacles e) ->
    exists os r',
      generateObstaclesLoop count now e r
      = Some (set_obstacles (obstacles e ++ os) e, r')
      /\ (List.length os <= count)%nat
      /\ wellPlaced e (obstacles e ++ os)
      /\ Forall wellTyped (obstacles e ++ os)
      /\ (List.length os = count
          \/ getAvailablePositions (set_obstacles (obstacles e ++ os) e) = []).
Proof.
  induction count as [|count IH]; intros e r Hplaced Htyped.
  - exists [], r. cbn [generateObstaclesLoop]. rewrite app_nil_r.
    rewrite set_obstacles_same. split_conj; auto.
  - cbn [generateObstaclesLoop].
    destruct (getAvailablePositions e) as [|p0 ps] eqn:Hav.
    { exists [], r. rewrite app_nil_r, set_obstacles_same.
      split_conj; auto; cbn; lia. }
    destruct (randomItem_total (p0 :: ps) r) as [position [Hpos Hin]]; [discriminate|].
    rewrite <- Hav in Hin.
    rewrite (bind_Some _ _ _ _ _ Hpos).
    rewrite (bind_Some _ _ _ _ _ (Math_random_eq _)).
    rewrite (bind_Some _ _ _ _ _ (generateId_eq _ _)).
    destruct (Qltb _ _).
    + destruct (getRandomDirection_unit (advance (advance (advance r))))
        as [d [Hd Hunit]].
      rewrite (bind_Some _ _ _ _ _
                 (bind_Some _ (fun d => ret (Some d)) _ _ _ Hd)).
      match goal with
      | |- context [generateObstaclesLoop count now (set_obstacles (_ ++ [?o]) e) ?r1] =>
          assert (Hplaced1 : wellPlaced e (obstacles e ++ [o]))
            by (apply wellPlaced_snoc; auto);
          assert (Htyped1 : Forall wellTyped (obstacles e ++ [o]))
            by (apply Forall_app; split; [exact Htyped|];
                apply Forall_cons; split; [|apply Forall_nil_2];
                exists d; auto);
          destruct (IH (set_obstacles (obstacles e ++ [o]) e) r1 Hplaced1 Htyped1)
            as (os & r' & Hrec & Hlen & Hpl & Hty & Hfull);
          exists (o :: os), r'
      end.
      cbn [obstacles set_obstacles] in Hrec, Hpl, Hty, Hfull.
      rewrite <- app_assoc in Hrec, Hpl, Hty, Hfull. cbn [app] in *.
      split_conj; try assumption.
      * cbn. lia.
      * destruct Hfull as [Hfull | Hfull]; [left; cbn; lia | right; exact Hfull].
    + rewrite (bind_Some (ret None) _ _ _ None eq_refl).
      match goal with
      | |- context [generateObstaclesLoop count now (set_obstacles (_ ++ [?o]) e) ?r1] =>
          assert (Hplaced1 : wellPlaced e (obstacles e ++ [o]))
            by (apply wellPlaced_snoc; auto);
          assert (Htyped1 : Forall wellTyped (obstacles e ++ [o]))
            by (apply Forall_app; split; [exact Htyped|];
                apply Forall_cons; split; [|apply Forall_nil_2];
                reflexivity);
          destruct (IH (set_obstacles (obstacles e ++ [o]) e) r1 Hplaced1 Htyped1)
            as (os & r' & Hrec & Hlen & Hpl & Hty & Hfull);
          exists (o :: os), r'
      end.
      cbn [obstacles set_obstacles] in Hrec, Hpl, Hty, Hfull.
      rewrite <- app_assoc in Hrec, Hpl, Hty, Hfull. cbn [app] in *.
      split_conj; try assumption.
      * cbn. lia.
      * destruct Hfull as [Hfull | Hfull]; [left; cbn; lia | right; exact Hfull].
Qed.

Lemma generateObstacles_spec (now : Z) (e : Engine) (r : RandomSource) :
  exists os r',
    generateObstacles now e r = Some (set_obstacles os e, r')
    /\ (Z.of_nat (List.length os)
        <= Z.max 0 (Z.min (oc_count (OBSTACLE_CONFIG (mode (config e)))
                           + level (stats e) - 1) 15))
    /\ wellPlaced e os
    /\ Forall wellTyped os
    /\ (Z.of_nat (List.length os)
        = Z.max 0 (Z.min (oc_count (OBSTACLE_CONFIG (mode (config e)))
                          + level (stats e) - 1) 15)
        \/ getAvailablePositions (set_obstacles os e) = []).
Proof.
  unfold generateObstacles. cbv zeta.
  set (count := Z.min _ 15).
  destruct (generateObstaclesLoop_spec (Z.to_nat count) now (set_obstacles [] e) r)
    as (os & r' & Hrun & Hlen & Hpl & Hty & Hfull).
  { split; [apply NoDup_nil_2 | apply Forall_nil_2]. }
  { apply Forall_nil_2. }
  cbn [obstacles set_obstacles app] in Hrun, Hpl, Hty, Hfull.
  exists os, r'. split_conj; try assumption; try lia.
  destruct Hfull as [Hfull | Hfull]; [left; lia | right; exact Hfull].
Qed.

(** X4.  [generateObstacles] never fails and writes only the obstacles.
    The new field replaces the old one and has
    [min(count of the mode + level - 1, 15)] obstacles, or fewer when the
    grid fills up first.  Every obstacle is on a cell of the grid that
    holds no snake segment, food or power-up, no two are on one cell, a
    moving one has one of the four directions and a static one none. *)
Theorem generateObstacles_field (now : Z) (e : Engine) (r : RandomSource) :
  exists os r',
    generateObstacles now e r = Some (set_obstacles os e, r')
    /\ (List.length os <= 15)%nat
    /\ (Z.of_nat (List.length os)
        = Z.max 0 (Z.min (oc_count (OBSTACLE_CONFIG (mode (config e)))
                          + level (stats e) - 1) 15)
        \/ getAvailablePositions (set_obstacles os e) = [])
    /\ NoDup (List.map ob_position os)
    /\ (forall o, In o os ->
          onGrid e (ob_position o)
          /\ ~ atSelf e (ob_position o)
          /\ ~ atFood e (ob_position o)
          /\ ~ atPowerUp e (ob_position o)
          /\ wellTyped o).
Proof.
  destruct (generateObstacles_spec now e r)
    as (os & r' & Hrun & Hlen & [Hnd Hclear] & Hty & Hfull).
  exists os, r'. split_conj; try assumption.
  - lia.
  - intros o Hin.
    rewrite List.Forall_forall in Hclear, Hty.
    destruct (Hclear o Hin) as (Hgrid & Hs & Hf & Hp).
    split_conj; try assumption. apply Hty. exact Hin.
Qed.

Lemma updateObstacle_round (e : Engine) (o : Obstacle) :
  obstacleRound e o (updateObstacle e o).
Proof.
  unfold obstacleRound, updateObstacle.
  destruct (ob_type o); [reflexivity|].
  destruct (ob_movingDirection o) as [d|]; [|reflexivity].
  fold (cellAhead o d).
  destruct (isInBounds (cellAhead o d) (gridSize (config e))) eqn:Hb; cbn [negb].
  2:{ right. split; [reflexivity|]. left. intros Hgrid.
      apply isInBounds_spec in Hgrid. congruence. }
  apply isInBounds_spec in Hb.
  destruct (existsb _ (segments (snake e))) eqn:Hs; cbn [orb negb].
  { right. split; [reflexivity|]. right. left.
    apply existsb_positionsEqual_l in Hs. exact Hs. }
  assert (Hs' : ~ atSelf e (cellAhead o d)).
  { intros H. apply existsb_positionsEqual_l in H. congruence. }
  destruct (food e) as [f|] eqn:Hfood.
  - destruct (positionsEqual (food_position f) (cellAhead o d)) eqn:Hf; cbn [negb].
    + right. split; [reflexivity|]. right. right.
      apply positionsEqual_eq in Hf. exists f. auto.
    + left. split_conj; auto. intros [f' [Hf' Hpos]].
      rewrite Hfood in Hf'. injection Hf' as <-.
      rewrite Hpos, positionsEqual_refl in Hf. discriminate.
  - left. split_conj; auto. intros [f' [Hf' _]]. congruence.
Qed.

(** X5.  [updateObstacles] writes only the obstacles and keeps their
    number and order.  Each obstacle that is static, or has no direction,
    stays as it is; a moving one either steps to the cell ahead, which is
    then on the grid and holds neither the snake nor the food, or stays in
    place with its direction reversed, the cell ahead being off the grid
    or held by the snake or the food.  Identifiers and types never
    change, and an obstacle on the grid stays on the grid. *)
Theorem updateObstacles_rounds (e : Engine) :
  updateObstacles e = set_obstacles (obstacles (updateObstacles e)) e
  /\ Forall2 (obstacleRound e) (obstacles e) (obstacles (updateObstacles e))
  /\ Forall2
       (fun o o' =>
          ob_id o' = ob_id o /\ ob_type o' = ob_type o
          /\ (onGrid e (ob_position o) -> onGrid e (ob_position o')))
       (obstacles e) (obstacles (updateObstacles e)).
Proof.
  split; [reflexivity|].
  unfold updateObstacles. cbn [obstacles set_obstacles].
  split.
  - induction (obstacles e) as [|o os IH]; cbn; [apply Forall2_nil_2|].
    apply Forall2_cons; split; [apply updateObstacle_round | exact IH].
  - induction (obstacles e) as [|o os IH]; cbn; [apply Forall2_nil_2|].
    apply Forall2_cons; split; [|exact IH].
    pose proof (updateObstacle_round e o) as Hround.
    unfold obstacleRound in Hround.
    destruct (ob_type o) eqn:Hty; [rewrite Hround; auto|].
    destruct (ob_movingDirection o) as [d|]; [|rewrite Hround; auto].
    destruct Hround as [(-> & Hgrid & _) | (-> & _)]; cbn; auto.
Qed.

(** X5 at the right edge of a 10 x 10 grid: the obstacle at (9,5) heading
    right stays there and heads left. *)
Lemma updateObstacles_rounds_witness :
  obstacles (updateObstacles edgeObstacle)
  = [mkObstacle (0, 0%Q) (mkPosition 9 5) MOVING (Some DIRECTIONS.LEFT)].
Proof.
  destruct (updateObstacles_rounds edgeObstacle) as (_ & Hround & _).
  remember (obstacles (updateObstacles edgeObstacle)) as os' eqn:Hos.
  change (obstacles edgeObstacle)
    with [mkObstacle (0, 0%Q) (mkPosition 9 5) MOVING (Some DIRECTIONS.RIGHT)]
    in Hround.
  inversion Hround as [|o o' l l' Ho Hl]; subst.
  inversion Hl; subst.
  destruct Ho as [(_ & [[_ Hx] _] & _) | (-> & _)]; [cbn in Hx; lia|].
  reflexivity.
Defined.

(* ===================================================================== *)
(** * The tick, stage by stage                                            *)
(* ===================================================================== *)

Lemma update_stages (deltaTime : Q) (now : Z) (e : Engine) (r : RandomSource) :
  update deltaTime now e r =
  if negb (GameState_eqb (state e) PLAYING) then Some (e, r)
  else if Qle_bool (currentSpeed e) (moveAccumulator e + deltaTime)
  then match updateGameLogic now (set_moveAccumulator 0 (clocked deltaTime e)) r with
       | Some (e3, r3) => Some (afterStep now e3, r3)
       | None => None
       end
  else Some (afterStep now (clocked deltaTime e), r).
Proof.
  unfold update. destruct (negb _); [reflexivity|].
  unfold bind, ret. cbn [currentSpeed moveAccumulator set_moveAccumulator set_stats].
  destruct (Qle_bool _ _); [|reflexivity].
  fold (clocked deltaTime e).
  destruct (updateGameLogic now _ r) as [[e3 r3]|]; reflexivity.
Qed.

(** The stages of [eatFood] on a live food: the score, a level-up when the
    score calls for one, the next food, and in arcade mode one time in
    five a power-up. *)
Lemma eatFood_stages (now : Z) (e : Engine) (r : RandomSource) (f : Food) :
  food e = Some f ->
  let e5 := scored now f e in
  let newLevel := calculateLevel (score (stats e5)) LEVEL_UP_THRESHOLD in
  exists e6 r6 e7 r7 e' r',
    eatFood now e r = Some (e', r')
    /\ (if newLevel >? level (stats e5)
        then levelUp now newLevel e5 r = Some (e6, r6)
        else e6 = e5 /\ r6 = r)
    /\ spawnFood e6 r6 = Some (e7, r7)
    /\ (e' = e7 \/ spawnPowerUp now e7 (advance r7) = Some (e', r')).
Proof.
  intros Hf e5 newLevel. unfold eatFood. rewrite Hf. cbv zeta.
  change (emitEvent _ _) with e5. fold newLevel.
  destruct (newLevel >? level (stats e5)).
  - destruct (levelUp_frame now newLevel e5 r) as (os & r6 & Hlv).
    rewrite (bind_Some _ _ _ _ _ Hlv).
    match type of Hlv with _ = Some (?x, _) => set (e6 := x) in * end.
    destruct (spawnFood_spec e6 r6) as (e7 & r7 & Hsp & _).
    rewrite (bind_Some _ _ _ _ _ Hsp).
    destruct (mode (config e7));
      try (exists e6, r6, e7, r7, e7, r7; split; [reflexivity|]; auto).
    rewrite (bind_Some _ _ _ _ _ (Math_random_eq _)).
    destruct (Qltb _ _).
    + destruct (spawnPowerUp_spec now e7 (advance r7)) as (e' & r' & Hpu & _).
      exists e6, r6, e7, r7, e', r'. auto.
    + exists e6, r6, e7, r7, e7, (advance r7). auto.
  - rewrite (bind_Some (ret e5) _ r r e5 eq_refl).
    destruct (spawnFood_spec e5 r) as (e7 & r7 & Hsp & _).
    rewrite (bind_Some _ _ _ _ _ Hsp).
    destruct (mode (config e7));
      try (exists e5, r, e7, r7, e7, r7; split; [reflexivity|]; auto).
    rewrite (bind_Some _ _ _ _ _ (Math_random_eq _)).
    destruct (Qltb _ _).
    + destruct (spawnPowerUp_spec now e7 (advance r7)) as (e' & r' & Hpu & _).
      exists e5, r, e7, r7, e', r'. auto.
    + exists e5, r, e7, r7, e7, (advance r7). auto.
Qed.

Lemma checkCollision_on_grid (e : Engine) (pos : Position) :
  coll_type (checkCollision e pos) <> T_wall -> onGrid e pos.
Proof.
  unfold checkCollision, onGrid.
  destruct (isInBounds pos (gridSize (config e))) eqn:Hb; cbn [negb].
  - intros _. apply isInBounds_spec. exact Hb.
  - cbn. congruence.
Qed.

Lemma wrapPosition_onGrid (e : Engine) (pos : Position) :
  0 < gridSize (config e) -> onGrid e (wrapPosition e pos).
Proof.
  intros Hg. unfold onGrid, wrapPosition. cbv zeta. cbn [px py].
  rewrite !wrap_coordinate_mod by exact Hg.
  split; apply Z.mod_pos_bound; exact Hg.
Qed.

(** The outcomes of the logical step, with where the new head is: on the
    grid, when the grid has cells at all. *)
Lemma updateGameLogic_steps (now : Z) (e : Engine) (r : RandomSource)
    (currentHead : Position) (rest : list Position) :
  segments (snake e) = currentHead :: rest ->
  updateGameLogic now e r = Some (handleDeath (turn e), r)
  \/ (exists f, food e = Some f
        /\ onGrid e (candidateHead e currentHead)
        /\ updateGameLogic now e r =
           eatFood now (grown e (candidateHead e currentHead)) r)
  \/ (exists p head,
        (0 < gridSize (config e) -> onGrid e head)
        /\ updateGameLogic now e r =
           Some (collectPowerUp now p (moved e head), r))
  \/ (exists head,
        (0 < gridSize (config e) -> onGrid e head)
        /\ updateGameLogic now e r = Some (moved e head, r)).
Proof.
  intros Hseg. unfold updateGameLogic. fold (turn e).
  replace (segments (snake (turn e))) with (currentHead :: rest)
    by (symmetry; exact Hseg).
  change (mkPosition (px currentHead + dx (direction (snake (turn e))))
            (py currentHead + dy (direction (snake (turn e)))))
    with (candidateHead e currentHead).
  unfold moved, grown. rewrite Hseg.
  pose proof (checkCollision_on_grid (turn e) (candidateHead e currentHead))
    as Hgrid.
  change (onGrid (turn e) (candidateHead e currentHead))
    with (onGrid e (candidateHead e currentHead)) in Hgrid.
  pose proof (wrapPosition_onGrid (turn e) (candidateHead e currentHead))
    as Hwrap.
  change (0 < gridSize (config e)
          -> onGrid e (wrapPosition (turn e) (candidateHead e currentHead)))
    in Hwrap.
  destruct (checkCollision (turn e) (candidateHead e currentHead)) eqn:Hc;
    cbn [coll_type CollisionType_eqb andb] in *.
  - (* none *) right; right; right. eexists. split; [|reflexivity].
    intros _. apply Hgrid. discriminate.
  - (* wall *)
    destruct (negb (activeTypeIs GHOST (turn e))); [left; reflexivity|].
    right; right; right. eexists. split; [|reflexivity]. exact Hwrap.
  - (* self *)
    destruct (negb (activeTypeIs INVINCIBLE (turn e))); [left; reflexivity|].
    right; right; right. eexists. split; [|reflexivity].
    intros _. apply Hgrid. discriminate.
  - (* food *)
    right; left. exists data. split_conj.
    + apply checkCollision_food in Hc. exact Hc.
    + apply Hgrid. discriminate.
    + unfold bind. cbn [segments set_segments set_snake snake].
      destruct (eatFood now _ r) as [[e' r']|]; reflexivity.
  - (* power-up *)
    right; right; left. exists data. eexists. split; [|reflexivity].
    intros _. apply Hgrid. discriminate.
  - (* obstacle *)
    destruct (negb (activeTypeIs INVINCIBLE (turn e)) && negb (activeTypeIs GHOST (turn e)));
      [left; reflexivity|].
    right; right; right. eexists. split; [|reflexivity].
    intros _. apply Hgrid. discriminate.
Qed.

(* ===================================================================== *)
(** * Invariants of the reachable states                                  *)
(* ===================================================================== *)

Lemma reachable_reachableBy (e : Engine) :
  reachable e -> reachableBy (fun _ => True) e.
Proof.
  induction 1 as [cfg | now e e' r r' _ IH Hrun | dt now e e' r r' _ IH Hrun
                 | d e _ IH | s e _ IH].
  - apply reachableBy_new.
  - eapply reachableBy_init; eassumption.
  - eapply reachableBy_update; eassumption.
  - apply reachableBy_changeDirection; [exact I | exact IH].
  - apply reachableBy_setState. exact IH.
Qed.

(** A property of engines that every elementary write of the engine's
    methods keeps is kept by a tick, and holds in every reachable state. *)
Section Invariant.

Variable D : Direction -> Prop.
Variable P : Engine -> Prop.

Hypothesis P_new : forall cfg, P (constructor cfg).
Hypothesis P_reset : forall now e, P e -> P (reset now e).
Hypothesis P_state : forall s e, P e -> P (set_state s e).
Hypothesis P_steer :
  forall d e, D d -> P e ->
    areOppositeDirections d (direction (snake e)) = false ->
    P (set_snake (set_nextDirection d (snake e)) e).
Hypothesis P_clocked : forall dt e, P e -> P (clocked dt e).
Hypothesis P_accumulator : forall v e, P e -> P (set_moveAccumulator v e).
Hypothesis P_frame : forall v e, P e -> P (set_frameCount v e).
Hypothesis P_emit : forall ev e, P e -> P (emitEvent ev e).
Hypothesis P_food :
  forall f e, P e -> In (food_position f) (getAvailablePositions e) ->
    P (set_food (Some f) e).
Hypothesis P_generate :
  forall os e, P e -> (List.length os <= 15)%nat -> wellPlaced e os ->
    Forall wellTyped os -> P (set_obstacles os e).
Hypothesis P_round : forall e, P e -> P (updateObstacles e).
Hypothesis P_spawnPowerUp :
  forall now e r e' r', P e -> spawnPowerUp now e r = Some (e', r') -> P e'.
Hypothesis P_level :
  forall newLevel e, P e -> newLevel > level (stats e) ->
    P (set_currentSpeed
         (inject_Z
            (Z.max (sc_initial (SPEED_CONFIG (difficulty (config e)))
                    - (newLevel - 1)
                      * sc_increment (SPEED_CONFIG (difficulty (config e))))
               (sc_min (SPEED_CONFIG (difficulty (config e))))))
         (set_stats (set_level newLevel (stats e)) e)).
Hypothesis P_scored :
  forall now f e h, P e -> food e = Some f -> onGrid e h ->
    P (scored now f (grown e h)).
Hypothesis P_death : forall e, P e -> P (handleDeath (turn e)).
Hypothesis P_moved :
  forall h e, P e -> (0 < gridSize (config e) -> onGrid e h) -> P (moved e h).
Hypothesis P_collect : forall now p e, P e -> P (collectPowerUp now p e).
Hypothesis P_updatePowerUps : forall now e, P e -> P (updatePowerUps now e).

Lemma invariant_spawnFood (e e' : Engine) (r r' : RandomSource) :
  P e -> spawnFood e r = Some (e', r') -> P e'.
Proof.
  intros HP Hrun.
  destruct (spawnFood_spec e r) as (e1 & r1 & Hrun1 & Hcases).
  rewrite Hrun in Hrun1. injection Hrun1 as <- <-.
  destruct Hcases as [(_ & -> & _) | (f & -> & _ & Hin & _)]; [exact HP|].
  apply P_food; assumption.
Qed.

Lemma invariant_generateObstacles (now : Z) (e e' : Engine) (r r' : RandomSource) :
  P e -> generateObstacles now e r = Some (e', r') -> P e'.
Proof.
  intros HP Hrun.
  destruct (generateObstacles_spec now e r)
    as (os & r1 & Hrun1 & Hlen & Hplaced & Htyped & _).
  rewrite Hrun in Hrun1. injection Hrun1 as -> _.
  apply P_generate; [exact HP | lia | exact Hplaced | exact Htyped].
Qed.

Lemma invariant_levelUp (now newLevel : Z) (e e' : Engine) (r r' : RandomSource) :
  P e -> newLevel > level (stats e) ->
  levelUp now newLevel e r = Some (e', r') -> P e'.
Proof.
  intros HP Hgt Hrun.
  unfold levelUp, bind in Hrun.
  destruct (generateObstacles now _ r) as [[e3 r3]|] eqn:Hgen; [|discriminate].
  injection Hrun as <- _. apply P_emit.
  eapply invariant_generateObstacles; [|exact Hgen].
  exact (P_level newLevel e HP Hgt).
Qed.

Lemma invariant_eatFood (now : Z) (e e' : Engine) (r r' : RandomSource)
    (f : Food) (h : Position) :
  P e -> food e = Some f -> onGrid e h ->
  eatFood now (grown e h) r = Some (e', r') -> P e'.
Proof.
  intros HP Hf Hh Hrun.
  destruct (eatFood_stages now (grown e h) r f Hf)
    as (e6 & r6 & e7 & r7 & e1 & r1 & Hrun1 & Hlevel & Hfood & Hpu).
  rewrite Hrun in Hrun1. injection Hrun1 as <- <-.
  assert (H5 : P (scored now f (grown e h))) by (apply P_scored; assumption).
  assert (H6 : P e6).
  { destruct (_ >? _) eqn:Hgt.
    - apply Z.gtb_lt in Hgt.
      eapply invariant_levelUp; [exact H5 | | exact Hlevel]. lia.
    - destruct Hlevel as [-> _]. exact H5. }
  assert (H7 : P e7) by (eapply invariant_spawnFood; eassumption).
  destruct Hpu as [-> | Hpu]; [exact H7|].
  eapply P_spawnPowerUp; eassumption.
Qed.

Lemma invariant_updateGameLogic (now : Z) (e e' : Engine) (r r' : RandomSource) :
  P e -> updateGameLogic now e r = Some (e', r') -> P e'.
Proof.
  intros HP Hrun.
  destruct (segments (snake e)) as [|currentHead rest] eqn:Hseg.
  { unfold updateGameLogic in Hrun. cbn in Hrun. rewrite Hseg in Hrun.
    discriminate. }
  destruct (updateGameLogic_steps now e r currentHead rest Hseg)
    as [H | [(f & Hf & Hh & H) | [(p & head & Hh & H) | (head & Hh & H)]]];
    rewrite H in Hrun.
  - injection Hrun as <- _. apply P_death. exact HP.
  - eapply invariant_eatFood; eassumption.
  - injection Hrun as <- _. apply P_collect, P_moved; assumption.
  - injection Hrun as <- _. apply P_moved; assumption.
Qed.

Lemma invariant_afterStep (now : Z) (e : Engine) : P e -> P (afterStep now e).
Proof.
  intros HP. unfold afterStep. cbv zeta. apply P_frame.
  destruct (Z.rem _ 10 =? 0).
  - apply P_round, P_updatePowerUps. exact HP.
  - apply P_updatePowerUps. exact HP.
Qed.

Lemma invariant_update (deltaTime : Q) (now : Z) (e e' : Engine)
    (r r' : RandomSource) :
  P e -> update deltaTime now e r = Some (e', r') -> P e'.
Proof.
  intros HP. rewrite update_stages.
  destruct (negb _); [intros H; injection H as <- _; exact HP|].
  destruct (Qle_bool _ _).
  - destruct (updateGameLogic now _ r) as [[e3 r3]|] eqn:Hrun; [|discriminate].
    intros H. injection H as <- _. apply invariant_afterStep.
    eapply invariant_updateGameLogic; [|exact Hrun].
    apply P_accumulator, P_clocked. exact HP.
  - intros H. injection H as <- _. apply invariant_afterStep, P_clocked. exact HP.
Qed.

Lemma invariant_init (now : Z) (e e' : Engine) (r r' : RandomSource) :
  P e -> init now e r = Some (e', r') -> P e'.
Proof.
  intros HP. unfold init, bind.
  destruct (spawnFood (reset now e) r) as [[e1 r1]|] eqn:Hsp; [|discriminate].
  intros Hob. eapply invariant_generateObstacles; [|exact Hob].
  eapply invariant_spawnFood; [|exact Hsp]. apply P_reset. exact HP.
Qed.

Lemma invariant_reachableBy (e : Engine) : reachableBy D e -> P e.
Proof.
  induction 1 as [cfg | now e e' r r' _ IH Hrun | dt now e e' r r' _ IH Hrun
                 | d e Hd _ IH | s e _ IH].
  - apply P_new.
  - eapply invariant_init; eassumption.
  - eapply invariant_update; eassumption.
  - unfold changeDirection.
    destruct (areOppositeDirections d (direction (snake e))) eqn:Hopp; cbn [negb];
      [exact IH | apply P_steer; assumption].
  - apply P_state. exact IH.
Qed.

End Invariant.

(** The routine cases of an invariant: a write to a field the invariant
    does not read. *)
Ltac untouched := intros; assumption.

Lemma initialSegments_length (g : Z) : List.length (initialSegments g) = 3%nat.
Proof. rewrite initialSegments_eq. reflexivity. Qed.

Lemma spawnPowerUp_frame_eq (now : Z) (e e' : Engine) (r r' : RandomSource) :
  spawnPowerUp now e r = Some (e', r') -> e' = set_powerUps (powerUps e') e.
Proof.
  intros Hrun. destruct (spawnPowerUp_frame now e r) as (ps & r1 & Hrun1).
  rewrite Hrun in Hrun1. injection Hrun1 as -> _. reflexivity.
Qed.

Lemma handleDeath_cases (e : Engine) :
  handleDeath e =
  (let e2 := emitEvent (COLLISION "death")
               (set_stats (set_lives (lives (stats e) - 1) (stats e)) e) in
   if lives (stats e) - 1 <=? 0 then gameOver e2 else resetSnakePosition e2).
Proof. reflexivity. Qed.

(** The snake keeps at least two segments. *)
Lemma segments_reachable (e : Engine) :
  reachable e -> (2 <= List.length (segments (snake e)))%nat.
Proof.
  intros Hr. apply reachable_reachableBy in Hr. revert e Hr.
  apply (invariant_reachableBy (fun _ => True)
           (fun e => (2 <= List.length (segments (snake e)))%nat)).
  - (* new *) intros cfg. cbn. rewrite initialSegments_length. lia.
  - (* reset *) intros now e _. cbn. rewrite initialSegments_length. lia.
  - (* state *) untouched.
  - (* steer *) untouched.
  - (* clocked *) untouched.
  - (* accumulator *) untouched.
  - (* frame *) untouched.
  - (* emit *) untouched.
  - (* food *) untouched.
  - (* generate *) untouched.
  - (* round *) untouched.
  - (* spawnPowerUp *) intros now e r e' r' HP Hrun.
    rewrite (spawnPowerUp_frame_eq _ _ _ _ _ Hrun). exact HP.
  - (* level *) untouched.
  - (* scored *) intros now f e h HP _ _.
    change (2 <= S (List.length (segments (snake e))))%nat. lia.
  - (* death *) intros e HP. rewrite handleDeath_cases. cbv zeta.
    destruct (_ <=? 0); [exact HP|].
    change (2 <= List.length (initialSegments (gridSize (config e))))%nat.
    rewrite initialSegments_length. lia.
  - (* moved *) intros h e HP _.
    change (2 <= S (List.length (removelast (segments (snake e)))))%nat.
    destruct (segments (snake e)) as [|s l]; [cbn in HP; lia|].
    rewrite removelast_cons_length. cbn in HP. lia.
  - (* collect *) intros now p e HP. unfold collectPowerUp. cbv zeta.
    destruct (pu_type p); try exact HP.
    match goal with
    | |- context [if ?c then _ else _] => destruct c eqn:Hlen
    end; [|exact HP].
    apply Nat.ltb_lt in Hlen.
    change (3 < List.length (segments (snake e)))%nat in Hlen.
    change (2 <= List.length
                   (firstn (Z.to_nat ((Z.of_nat (List.length (segments (snake e))) + 1) / 2))
                      (segments (snake e))))%nat.
    rewrite length_firstn.
    assert (2 <= (Z.of_nat (List.length (segments (snake e))) + 1) / 2).
    { apply Z.div_le_lower_bound; lia. }
    lia.
  - (* updatePowerUps *) intros now e HP. rewrite snake_updatePowerUps. exact HP.
Qed.

Lemma init_total (now : Z) (e : Engine) (r : RandomSource) :
  exists e' r', init now e r = Some (e', r').
Proof.
  unfold init.
  destruct (spawnFood_spec (reset now e) r) as (e1 & r1 & Hsp & _).
  rewrite (bind_Some _ _ _ _ _ Hsp).
  destruct (generateObstacles_frame now e1 r1) as (os & r2 & Hob).
  eexists; eexists. exact Hob.
Qed.

(** X6.  In every state a client can reach the snake has at least two
    segments, so its head is defined: [update] never throws, at any time,
    for any elapsed time and any random samples; nor does [init]. *)
Theorem engine_never_throws (e : Engine) :
  reachable e ->
  (2 <= List.length (segments (getSnake e)))%nat
  /\ (forall (deltaTime : Q) (now : Z) (r : RandomSource),
        exists e' r', update deltaTime now e r = Some (e', r'))
  /\ (forall (now : Z) (r : RandomSource),
        exists e' r', init now e r = Some (e', r')).
Proof.
  intros Hr. pose proof (segments_reachable e Hr) as Hlen.
  split; [exact Hlen|]. split.
  - intros deltaTime now r. apply update_total.
    destruct (segments (snake e)); [cbn in Hlen; lia | discriminate].
  - intros now r. apply init_total.
Qed.

(** X6 on the game of two meals and a shrink. *)
Lemma engine_never_throws_witness :
  exists e' r', update 100 1300 (fst (orNew shrinkRun)) noSamples = Some (e', r').
Proof.
  assert (Hr : reachable (fst (orNew shrinkRun))).
  { apply (shrinkRun_reachable _ (snd (orNew shrinkRun))).
    vm_compute. reflexivity. }
  destruct (engine_never_throws _ Hr) as (_ & Hupdate & _).
  apply Hupdate.
Defined.

(** [update] and [init] leave the high score of the engine's statistics
    as it is. *)
Lemma highScore_update (deltaTime : Q) (now : Z) (e e' : Engine)
    (r r' : RandomSource) :
  update deltaTime now e r = Some (e', r') ->
  highScore (stats e') = highScore (stats e).
Proof.
  apply (invariant_update (fun x => highScore (stats x) = highScore (stats e)));
    try (untouched; fail).
  - (* spawnPowerUp *) intros now0 e0 r0 e1 r1 HP Hrun.
    rewrite (spawnPowerUp_frame_eq _ _ _ _ _ Hrun). exact HP.
  - (* death *) intros e0 HP. rewrite handleDeath_cases. cbv zeta.
    destruct (_ <=? 0); exact HP.
  - (* collect *) intros now0 p e0 HP. unfold collectPowerUp. cbv zeta.
    destruct (pu_type p); try exact HP. case_cond; exact HP.
  - (* updatePowerUps *) intros now0 e0 HP. unfold updatePowerUps. cbv zeta.
    cbn [activePowerUp set_powerUps].
    destruct (activePowerUp e0) as [a|]; [|exact HP].
    destruct (_ >=? _); [|exact HP]. destruct (ap_type a); exact HP.
  - reflexivity.
Qed.

Lemma highScore_init (now : Z) (e e' : Engine) (r r' : RandomSource) :
  init now e r = Some (e', r') -> highScore (stats e') = highScore (stats e).
Proof.
  apply (invariant_init (fun x => highScore (stats x) = highScore (stats e)));
    try (untouched; fail).
  reflexivity.
Qed.

(** X7.  No method of the engine writes the high score: in every state a
    client can reach, [getStats().highScore] is 0, the value the
    constructor gives it, whatever the score. *)
Theorem highScore_never_written (e : Engine) :
  reachable e -> highScore (getStats e) = 0.
Proof.
  unfold getStats.
  induction 1 as [cfg | now e e' r r' _ IH Hrun | dt now e e' r r' _ IH Hrun
                 | d e _ IH | s e _ IH].
  - reflexivity.
  - rewrite (highScore_init _ _ _ _ _ Hrun). exact IH.
  - rewrite (highScore_update _ _ _ _ _ _ Hrun). exact IH.
  - unfold changeDirection. destruct (negb _); exact IH.
  - exact IH.
Qed.

(** X7 on the game of one meal: the score is 22, the high score 0. *)
Lemma highScore_never_written_witness :
  score (getStats (fst firstMeal)) = 22 /\ highScore (getStats (fst firstMeal)) = 0.
Proof.
  split; [vm_compute; reflexivity|].
  apply highScore_never_written.
  apply (mealRun_reachable _ (snd firstMeal)). vm_compute. reflexivity.
Defined.

(** X8.  In every state a client can reach, the combo is between 1 and
    the maximum of 20, the level is at least 1, the lives are at most
    those the difficulty starts with, and the counts of meals and of
    pickups are not negative. *)
Theorem stats_ranges (e : Engine) :
  reachable e ->
  1 <= combo (getStats e) <= MAX_COMBO
  /\ 1 <= level (getStats e)
  /\ lives (getStats e) <= INITIAL_LIVES (difficulty (config e))
  /\ 0 <= foodEaten (getStats e)
  /\ 0 <= powerUpsCollected (getStats e).
Proof.
  intros Hr. apply reachable_reachableBy in Hr. revert e Hr.
  apply (invariant_reachableBy (fun _ => True)
           (fun e =>
              1 <= combo (stats e) <= MAX_COMBO
              /\ 1 <= level (stats e)
              /\ lives (stats e) <= INITIAL_LIVES (difficulty (config e))
              /\ 0 <= foodEaten (stats e)
              /\ 0 <= powerUpsCollected (stats e))).
  - (* new *) intros cfg. cbn. unfold MAX_COMBO. lia.
  - (* reset *) intros now e _. cbn. unfold MAX_COMBO. lia.
  - (* state *) untouched.
  - (* steer *) untouched.
  - (* clocked *) untouched.
  - (* accumulator *) untouched.
  - (* frame *) untouched.
  - (* emit *) untouched.
  - (* food *) untouched.
  - (* generate *) untouched.
  - (* round *) untouched.
  - (* spawnPowerUp *) intros now e r e' r' HP Hrun.
    rewrite (spawnPowerUp_frame_eq _ _ _ _ _ Hrun). exact HP.
  - (* level *) intros newLevel e HP Hgt.
    cbn [stats set_stats set_level set_currentSpeed combo level lives
         foodEaten powerUpsCollected config]. lia.
  - (* scored *)
    intros now f e h (Hcombo & Hlevel & Hlives & Heaten & Hpicked) _ _.
    unfold scored. cbv zeta.
    cbn [stats set_stats emitEvent combo level lives foodEaten
         powerUpsCollected config set_lastFoodTime grown set_snake].
    change (updateCombo now (grown e h)) with (updateCombo now e).
    pose proof (updateCombo_range now e (proj1 Hcombo)). lia.
  - (* death *) intros e HP. rewrite handleDeath_cases. cbv zeta.
    destruct (_ <=? 0);
      cbn [stats set_stats emitEvent combo level lives foodEaten
           powerUpsCollected config gameOver resetSnakePosition set_snake
           set_state set_lives turn]; lia.
  - (* moved *) untouched.
  - (* collect *) intros now p e HP. unfold collectPowerUp. cbv zeta.
    destruct (pu_type p); try case_cond;
      cbn [stats set_stats emitEvent combo level lives foodEaten
           powerUpsCollected config set_snake set_activePowerUp set_powerUps
           set_powerUpsCollected set_score set_currentSpeed]; lia.
  - (* updatePowerUps *) intros now e HP. unfold updatePowerUps. cbv zeta.
    cbn [activePowerUp set_powerUps].
    destruct (activePowerUp e) as [a|]; [|exact HP].
    destruct (_ >=? _); [|exact HP]. destruct (ap_type a); exact HP.
Qed.

(** X8 on the game of one meal: the combo is 2. *)
Lemma stats_ranges_witness :
  combo (getStats (fst firstMeal)) = 2
  /\ 1 <= combo (getStats (fst firstMeal)) <= MAX_COMBO.
Proof.
  split; [vm_compute; reflexivity|].
  assert (Hr : reachable (fst firstMeal)).
  { apply (mealRun_reachable _ (snd firstMeal)). vm_compute. reflexivity. }
  destruct (stats_ranges (fst firstMeal) Hr) as [Hcombo _]. exact Hcombo.
Defined.

(** X9.  In every state a client can reach there are at most three live
    power-ups and at most fifteen obstacles. *)
Theorem entity_counts (e : Engine) :
  reachable e ->
  (List.length (powerUps e) <= 3)%nat /\ (List.length (obstacles e) <= 15)%nat.
Proof.
  intros Hr. apply reachable_reachableBy in Hr. revert e Hr.
  apply (invariant_reachableBy (fun _ => True)
           (fun e => (List.length (powerUps e) <= 3)%nat
                     /\ (List.length (obstacles e) <= 15)%nat)).
  - (* new *) intros cfg. cbn. lia.
  - (* reset *) intros now e _. cbn. lia.
  - (* state *) untouched.
  - (* steer *) untouched.
  - (* clocked *) untouched.
  - (* accumulator *) untouched.
  - (* frame *) untouched.
  - (* emit *) untouched.
  - (* food *) untouched.
  - (* generate *) intros os e [Hp Ho] Hlen _ _.
    cbn [powerUps obstacles set_obstacles]. lia.
  - (* round *) intros e [Hp Ho]. unfold updateObstacles.
    cbn [powerUps obstacles set_obstacles]. rewrite length_map. auto.
  - (* spawnPowerUp *) intros now e r e' r' [Hp Ho] Hrun.
    destruct (spawnPowerUp_spec now e r) as (e1 & r1 & Hrun1 & Hcases).
    rewrite Hrun in Hrun1. injection Hrun1 as <- _.
    destruct Hcases as [-> | (Hlt & p & -> & _)]; [auto|].
    cbn [powerUps obstacles set_powerUps]. rewrite length_app. cbn. lia.
  - (* level *) untouched.
  - (* scored *) untouched.
  - (* death *) intros e HP. rewrite handleDeath_cases. cbv zeta.
    destruct (_ <=? 0); exact HP.
  - (* moved *) untouched.
  - (* collect *) intros now p e [Hp Ho]. unfold collectPowerUp. cbv zeta.
    assert (Hfilter : forall f : PowerUp -> bool,
               (List.length (List.filter f (powerUps e)) <= 3)%nat).
    { intros f. etransitivity; [apply List.filter_length_le | exact Hp]. }
    destruct (pu_type p); try case_cond; split; first [apply Hfilter | exact Ho].
  - (* updatePowerUps *) intros now e [Hp Ho]. unfold updatePowerUps. cbv zeta.
    assert (Hfilter : forall f : PowerUp -> bool,
               (List.length (List.filter f (powerUps e)) <= 3)%nat).
    { intros f. etransitivity; [apply List.filter_length_le | exact Hp]. }
    cbn [activePowerUp set_powerUps].
    destruct (activePowerUp e) as [a|]; [|split; [apply Hfilter | exact Ho]].
    destruct (_ >=? _); [|split; [apply Hfilter | exact Ho]].
    destruct (ap_type a); split; first [apply Hfilter | exact Ho].
Qed.

(** X9 on the arcade game: five obstacles. *)
Lemma entity_counts_witness :
  List.length (obstacles (fst (orNew shrinkRun))) = 5%nat
  /\ (List.length (obstacles (fst (orNew shrinkRun))) <= 15)%nat.
Proof.
  split; [vm_compute; reflexivity|].
  assert (Hr : reachable (fst (orNew shrinkRun))).
  { apply (shrinkRun_reachable _ (snd (orNew shrinkRun))). vm_compute. reflexivity. }
  destruct (entity_counts (fst (orNew shrinkRun)) Hr) as [_ Ho]. exact Ho.
Defined.

Lemma unit_not_self_opposite (d : Direction) :
  isUnitDirection d -> areOppositeDirections d d = false.
Proof. intros [-> | [-> | [-> | ->]]]; reflexivity. Qed.

(** X10.  When the directions a client passes to [changeDirection] are
    the four unit directions, then in every state it can reach the
    direction of the snake and the queued direction are unit directions,
    and the queued one is never the opposite of the current one. *)
Theorem queued_direction_never_reverses (e : Engine) :
  reachableBy isUnitDirection e ->
  isUnitDirection (direction (snake e))
  /\ isUnitDirection (nextDirection (snake e))
  /\ areOppositeDirections (nextDirection (snake e)) (direction (snake e)) = false.
Proof.
  revert e.
  apply (invariant_reachableBy isUnitDirection
           (fun e =>
              isUnitDirection (direction (snake e))
              /\ isUnitDirection (nextDirection (snake e))
              /\ areOppositeDirections (nextDirection (snake e))
                   (direction (snake e)) = false)).
  - (* new *) intros cfg. cbn. unfold isUnitDirection. auto 6.
  - (* reset *) intros now e _. cbn. unfold isUnitDirection. auto 6.
  - (* state *) untouched.
  - (* steer *) intros d e Hd (Hdir & _ & _) Hopp. cbn. auto.
  - (* clocked *) untouched.
  - (* accumulator *) untouched.
  - (* frame *) untouched.
  - (* emit *) untouched.
  - (* food *) untouched.
  - (* generate *) untouched.
  - (* round *) untouched.
  - (* spawnPowerUp *) intros now e r e' r' HP Hrun.
    rewrite (spawnPowerUp_frame_eq _ _ _ _ _ Hrun). exact HP.
  - (* level *) untouched.
  - (* scored *) intros now f e h (_ & Hnext & _) _ _.
    change (isUnitDirection (nextDirection (snake e))
            /\ isUnitDirection (nextDirection (snake e))
            /\ areOppositeDirections (nextDirection (snake e))
                 (nextDirection (snake e)) = false).
    split_conj; auto. apply unit_not_self_opposite. exact Hnext.
  - (* death *) intros e (_ & Hnext & _). rewrite handleDeath_cases. cbv zeta.
    destruct (_ <=? 0).
    + change (isUnitDirection (nextDirection (snake e))
              /\ isUnitDirection (nextDirection (snake e))
              /\ areOppositeDirections (nextDirection (snake e))
                   (nextDirection (snake e)) = false).
      split_conj; auto. apply unit_not_self_opposite. exact Hnext.
    + cbn. unfold isUnitDirection. auto 6.
  - (* moved *) intros h e (_ & Hnext & _) _. cbn.
    split_conj; auto. apply unit_not_self_opposite. exact Hnext.
  - (* collect *) intros now p e HP. unfold collectPowerUp. cbv zeta.
    destruct (pu_type p); try exact HP. case_cond; exact HP.
  - (* updatePowerUps *) intros now e HP. rewrite snake_updatePowerUps. exact HP.
Qed.

(** X10 after a turn up and a rejected turn left. *)
Lemma queued_direction_never_reverses_witness :
  nextDirection
    (snake (changeDirection DIRECTIONS.LEFT (changeDirection DIRECTIONS.UP playing)))
  = DIRECTIONS.UP
  /\ areOppositeDirections DIRECTIONS.UP DIRECTIONS.RIGHT = false.
Proof.
  split; [reflexivity|].
  apply (queued_direction_never_reverses
           (changeDirection DIRECTIONS.LEFT (changeDirection DIRECTIONS.UP playing))).
  apply reachableBy_changeDirection; [unfold isUnitDirection; auto|].
  apply reachableBy_changeDirection; [unfold isUnitDirection; auto|].
  apply reachableBy_setState. apply reachableBy_new.
Defined.

(* ===================================================================== *)
(** * The helpers                                                         *)
(* ===================================================================== *)

(** X11.  With [min <= max], [clamp] lands in [[min, max]]; with the
    bounds crossed it returns [min].  A value is [inRange] exactly when it
    lies between the bounds, and then [clamp] returns it; clamping twice
    is clamping once. *)
Theorem clamp_inRange (value min max : Q) :
  ((min <= max -> min <= clamp value min max <= max)
   /\ (max < min -> clamp value min max == min)
   /\ (inRange value min max = true <-> min <= value <= max)
   /\ (inRange value min max = true -> clamp value min max == value)
   /\ (min <= max -> clamp value min max == value ->
       inRange value min max = true)
   /\ clamp (clamp value min max) min max == clamp value min max)%Q.
Proof.
  assert (Hin : inRange value min max = true <-> (min <= value <= max)%Q).
  { unfold inRange. rewrite andb_true_iff, !Qle_bool_iff. reflexivity. }
  unfold clamp.
  destruct (Q.min_spec max value) as [[H1 E1] | [H1 E1]];
    destruct (Q.max_spec min (Qmin max value)) as [[H2 E2] | [H2 E2]];
    destruct (Q.min_spec max (Qmax min (Qmin max value))) as [[H3 E3] | [H3 E3]];
    destruct (Q.max_spec min (Qmin max (Qmax min (Qmin max value))))
      as [[H4 E4] | [H4 E4]];
    rewrite ?Hin; rewrite ?E4, ?E3, ?E2, ?E1 in *;
    repeat split; intros; try lra.
Qed.

(** X12.  [manhattanDistance] is a metric on cells: never negative, zero
    exactly between a cell and itself ([positionsEqual]), symmetric, and
    it satisfies the triangle inequality. *)
Theorem manhattanDistance_metric (p q s : Position) :
  0 <= manhattanDistance p q
  /\ (manhattanDistance p q = 0 <-> positionsEqual p q = true)
  /\ manhattanDistance p q = manhattanDistance q p
  /\ manhattanDistance p s <= manhattanDistance p q + manhattanDistance q s.
Proof.
  unfold manhattanDistance, positionsEqual.
  rewrite andb_true_iff, !Z.eqb_eq. lia.
Qed.

(** X13.  On a grid of positive size [getRandomPosition] draws two
    samples and returns a cell of the grid. *)
Theorem getRandomPosition_in_bounds (gridSize : Z) (r : RandomSource) :
  0 < gridSize ->
  exists pos,
    getRandomPosition gridSize r = Some (pos, advance (advance r))
    /\ isInBounds pos gridSize = true.
Proof.
  intros Hg. unfold getRandomPosition, bind, ret. rewrite !Math_random_eq.
  eexists. split; [reflexivity|].
  apply isInBounds_spec. cbn [px py].
  assert (Hcoord : forall u : Q, (0 <= u)%Q -> (u < 1)%Q ->
            0 <= Qfloor (u * inject_Z gridSize) < gridSize).
  { intros u Hlo Hhi.
    assert (Hg' : (0 < inject_Z gridSize)%Q) by (rewrite <- (Zlt_Qlt 0); lia).
    split.
    - change 0 with (Qfloor 0). apply Qfloor_resp_le.
      apply Qmult_le_0_compat; [exact Hlo | apply Qlt_le_weak; exact Hg'].
    - rewrite Zlt_Qlt. eapply Qle_lt_trans; [apply Qfloor_le|].
      rewrite <- (Qmult_1_l (inject_Z gridSize)) at 2.
      apply Qmult_lt_compat_r; assumption. }
  split; apply Hcoord; apply frac_bounds.
Qed.

(** X13 on the medium grid, with samples 0.99 and 0.5: the cell (24, 12). *)
Lemma getRandomPosition_in_bounds_witness :
  exists pos,
    getRandomPosition 25
      (mkRandomSource (fun n => nth n [99 # 100; 1 # 2]%Q 0%Q) 0)
    = Some (pos, advance (advance
                   (mkRandomSource (fun n => nth n [99 # 100; 1 # 2]%Q 0%Q) 0)))
    /\ isInBounds pos 25 = true.
Proof. apply getRandomPosition_in_bounds. lia. Defined.

Lemma swap_head_Permutation {A : Type} (l : list A) (j : nat) (x b : A) :
  l !! j = Some b -> b :: <[j := x]> l ≡ₚ x :: l.
Proof.
  revert j. induction l as [|y l IH]; intros [|j] Hj; try discriminate.
  - cbn in Hj. injection Hj as ->.
    change (<[0%nat := x]> (b :: l)) with (x :: l). apply Permutation_swap.
  - cbn in Hj. change (<[S j := x]> (y :: l)) with (y :: <[j := x]> l).
    rewrite (Permutation_swap y b). rewrite (IH j Hj). apply Permutation_swap.
Qed.

Lemma swap_Permutation {A : Type} (l : list A) (i j : nat) (a b : A) :
  l !! i = Some a -> l !! j = Some b -> <[j := a]> (<[i := b]> l) ≡ₚ l.
Proof.
  revert i j. induction l as [|x l IH]; intros [|i] [|j] Hi Hj; try discriminate;
    cbn in Hi, Hj.
  - assert (a = x) by congruence. assert (b = x) by congruence. subst a b.
    reflexivity.
  - assert (a = x) by congruence. subst a.
    change (<[S j := x]> (<[0%nat := b]> (x :: l))) with (b :: <[j := x]> l).
    apply swap_head_Permutation. exact Hj.
  - assert (b = x) by congruence. subst b.
    change (<[0%nat := a]> (<[S i := x]> (x :: l))) with (a :: <[i := x]> l).
    apply swap_head_Permutation. exact Hi.
  - change (<[S j := a]> (<[S i := b]> (x :: l)))
      with (x :: <[j := a]> (<[i := b]> l)).
    rewrite (IH i j Hi Hj). reflexivity.
Qed.

Lemma shuffleLoop_spec {A : Type} (i : nat) (l : list A) (r : RandomSource) :
  (i < List.length l)%nat ->
  exists l',
    shuffleLoop i l r
    = Some (l', mkRandomSource (samples r) (cursor r + i))
    /\ l' ≡ₚ l.
Proof.
  revert l r. induction i as [|i IH]; intros l r Hi.
  - exists l. split; [|reflexivity].
    cbn. unfold ret. destruct r as [s c]. cbn. rewrite Nat.add_0_r. reflexivity.
  - cbn [shuffleLoop].
    destruct (randomIndex_lt (S i + 1) r) as (j & Hj & Hlt); [lia|].
    rewrite (bind_Some _ _ _ _ _ Hj).
    destruct (lookup_lt_is_Some_2 l (S i)) as [a Ha]; [lia|].
    destruct (lookup_lt_is_Some_2 l j) as [b Hb]; [lia|].
    unfold swap at 1. rewrite Ha, Hb.
    rewrite (bind_Some (ret _) _ (advance r) (advance r) _ eq_refl).
    destruct (IH (<[j := a]> (<[S i := b]> l)) (advance r)) as (l' & Hrun & Hperm).
    { rewrite !length_insert. lia. }
    exists l'. split.
    + rewrite Hrun. cbn. repeat f_equal. lia.
    + rewrite Hperm. apply swap_Permutation; assumption.
Qed.

(** X14.  [shuffleArray] never fails.  It returns a permutation of the
    array and draws one sample for each element but the first. *)
Theorem shuffleArray_permutation {A : Type} (array : list A) (r : RandomSource) :
  exists shuffled,
    shuffleArray array r
    = Some (shuffled,
            mkRandomSource (samples r) (cursor r + (List.length array - 1)))
    /\ shuffled ≡ₚ array.
Proof.
  unfold shuffleArray. destruct array as [|x l].
  - exists []. split; [|reflexivity].
    cbn. unfold ret. destruct r as [s c]. cbn. rewrite Nat.add_0_r. reflexivity.
  - apply shuffleLoop_spec. cbn. lia.
Qed.

(** X15.  On a grid of positive size [wrapPosition] maps every cell, on
    the grid or off it, to a cell of the grid, the one with both
    coordinates taken modulo the size; it leaves the cells of the grid
    where they are, and wrapping twice is wrapping once. *)
Theorem wrapPosition_on_grid (e : Engine) (pos : Position) :
  0 < gridSize (config e) ->
  wrapPosition e pos
  = mkPosition (px pos mod gridSize (config e)) (py pos mod gridSize (config e))
  /\ isInBounds (wrapPosition e pos) (gridSize (config e)) = true
  /\ (isInBounds pos (gridSize (config e)) = true -> wrapPosition e pos = pos)
  /\ wrapPosition e (wrapPosition e pos) = wrapPosition e pos.
Proof.
  intros Hg.
  assert (Heq : forall p, wrapPosition e p
                = mkPosition (px p mod gridSize (config e))
                    (py p mod gridSize (config e))).
  { intros p. unfold wrapPosition. cbv zeta.
    rewrite !wrap_coordinate_mod by exact Hg. reflexivity. }
  split_conj.
  - apply Heq.
  - rewrite Heq. apply isInBounds_spec. cbn [px py].
    split; apply Z.mod_pos_bound; exact Hg.
  - intros Hin. apply isInBounds_spec in Hin. rewrite Heq.
    destruct pos as [x y]. cbn [px py] in *.
    rewrite !Z.mod_small by lia. reflexivity.
  - rewrite !Heq. cbn [px py]. rewrite !Z.mod_mod by lia. reflexivity.
Qed.

(** X15 on the medium grid: the cell (25, -1) wraps to (0, 24). *)
Lemma wrapPosition_on_grid_witness :
  wrapPosition playing (mkPosition 25 (-1)) = mkPosition 0 24
  /\ isInBounds (wrapPosition playing (mkPosition 25 (-1))) 25 = true.
Proof.
  destruct (wrapPosition_on_grid playing (mkPosition 25 (-1))) as (Heq & Hin & _).
  - vm_compute. reflexivity.
  - split; [rewrite Heq; vm_compute; reflexivity | exact Hin].
Defined.

(* ===================================================================== *)
(** * The board                                                           *)
(* ===================================================================== *)

Lemma initialSegments_onGrid (e : Engine) :
  4 <= gridSize (config e) ->
  Forall (onGrid e) (initialSegments (gridSize (config e))).
Proof.
  intros Hg. rewrite initialSegments_eq. unfold onGrid.
  assert (H2 : 2 <= gridSize (config e) / 2)
    by (apply Z.div_le_lower_bound; lia).
  assert (H3 : gridSize (config e) / 2 < gridSize (config e))
    by (apply Z.div_lt_upper_bound; lia).
  repeat (apply Forall_cons; split); [| | |apply Forall_nil_2]; cbn [px py]; lia.
Qed.

Lemma Forall_List_filter {A : Type} (P : A -> Prop) (f : A -> bool) (l : list A) :
  Forall P l -> Forall P (List.filter f l).
Proof.
  intros Hall. apply List.Forall_forall. intros x Hx.
  apply List.filter_In in Hx. destruct Hx as [Hx _].
  revert x Hx. apply List.Forall_forall. exact Hall.
Qed.

Lemma NoDup_map_filter {A B : Type} (g : A -> B) (f : A -> bool) (l : list A) :
  NoDup (List.map g l) -> NoDup (List.map g (List.filter f l)).
Proof.
  induction l as [|a l IH]; intros Hnd; [exact Hnd|].
  cbn [List.map] in Hnd. apply NoDup_cons in Hnd. destruct Hnd as [Ha Hl].
  cbn [List.filter]. destruct (f a); [|apply IH; exact Hl].
  cbn [List.map]. apply NoDup_cons. split; [|apply IH; exact Hl].
  intros Hin. apply Ha. apply list_elem_of_In. apply list_elem_of_In in Hin.
  apply List.in_map_iff in Hin. destruct Hin as (x & Hx & Hin).
  apply List.filter_In in Hin. apply List.in_map_iff. exists x. tauto.
Qed.

Lemma atPowerUp_filter (e : Engine) (f : PowerUp -> bool) (pos : Position) :
  atPowerUp (set_powerUps (List.filter f (powerUps e)) e) pos -> atPowerUp e pos.
Proof.
  intros (p & Hin & Hpos). exists p. split; [|exact Hpos].
  cbn in Hin. apply List.filter_In in Hin. tauto.
Qed.

Lemma config_handleDeath (e : Engine) : config (handleDeath e) = config e.
Proof. rewrite handleDeath_cases. cbv zeta. destruct (_ <=? 0); reflexivity. Qed.

Lemma config_collectPowerUp (now : Z) (p : PowerUp) (e : Engine) :
  config (collectPowerUp now p e) = config e.
Proof.
  unfold collectPowerUp. cbv zeta.
  destruct (pu_type p); try reflexivity. case_cond; reflexivity.
Qed.

Lemma config_updatePowerUps (now : Z) (e : Engine) :
  config (updatePowerUps now e) = config e.
Proof.
  unfold updatePowerUps. cbv zeta. cbn [activePowerUp set_powerUps].
  destruct (activePowerUp e) as [a|]; [|reflexivity].
  destruct (_ >=? _); [|reflexivity]. destruct (ap_type a); reflexivity.
Qed.

(** The board after power-ups are dropped from the list. *)
Lemma placed_filter (f : PowerUp -> bool) (e : Engine) :
  placed e -> placed (set_powerUps (List.filter f (powerUps e)) e).
Proof.
  intros (Hseg & Hfood & Hpu & Hnd & Hob). unfold placed. split_conj.
  - exact Hseg.
  - intros fd Hfd. destruct (Hfood fd Hfd) as (H1 & H2 & H3). split_conj.
    + exact H1.
    + intros H. apply H2. eapply atPowerUp_filter. exact H.
    + exact H3.
  - apply Forall_List_filter. exact Hpu.
  - apply NoDup_map_filter. exact Hnd.
  - exact Hob.
Qed.

(** The board after [updatePowerUps]. *)
Lemma placed_updatePowerUps (now : Z) (e : Engine) :
  placed e -> placed (updatePowerUps now e).
Proof.
  intros HP.
  apply (placed_filter (fun p => now - pu_createdAt p <? pu_lifetime p)) in HP.
  unfold updatePowerUps. cbv zeta.
  cbn [activePowerUp set_powerUps].
  destruct (activePowerUp e) as [a|]; [|exact HP].
  destruct (_ >=? _); [|exact HP]. destruct (ap_type a); exact HP.
Qed.

(** The board after [collectPowerUp]. *)
Lemma placed_collectPowerUp (now : Z) (p : PowerUp) (e : Engine) :
  placed e -> placed (collectPowerUp now p e).
Proof.
  intros HP.
  apply (placed_filter (fun q => negb (id_eqb (pu_id q) (pu_id p)))) in HP.
  unfold collectPowerUp. cbv zeta.
  destruct (pu_type p); try exact HP.
  case_cond; [|exact HP].
  destruct HP as (Hseg & Hrest). split; [|exact Hrest].
  apply Forall_take. exact Hseg.
Qed.

(** The board after a round of the moving obstacles. *)
Lemma placed_updateObstacles (e : Engine) :
  placed e -> placed (updateObstacles e).
Proof.
  intros (Hseg & Hfood & Hpu & Hnd & Hob). unfold placed, updateObstacles.
  assert (Hround : forall o, In o (obstacles e) ->
            onGrid e (ob_position (updateObstacle e o))
            /\ (atFood e (ob_position (updateObstacle e o)) ->
                ob_position (updateObstacle e o) = ob_position o)).
  { intros o Hin.
    assert (Hgrid : onGrid e (ob_position o)).
    { revert o Hin. apply List.Forall_forall. exact Hob. }
    pose proof (updateObstacle_round e o) as Hr. unfold obstacleRound in Hr.
    destruct (ob_type o); [rewrite Hr; auto|].
    destruct (ob_movingDirection o) as [d|]; [|rewrite Hr; auto].
    destruct Hr as [(-> & Hg & _ & Hnf) | (-> & _)]; cbn; [|auto].
    split; [exact Hg | intros H; contradiction]. }
  split_conj.
  - exact Hseg.
  - intros f Hf. destruct (Hfood f Hf) as (H1 & H2 & H3). split_conj.
    + exact H1.
    + exact H2.
    + intros (o' & Hin & Hpos). cbn in Hin. apply List.in_map_iff in Hin.
      destruct Hin as (o & <- & Hin). destruct (Hround o Hin) as [_ Hsame].
      apply H3. exists o. split; [exact Hin|]. rewrite <- Hsame; [exact Hpos|].
      exists f. split; [exact Hf | symmetry; exact Hpos].
  - exact Hpu.
  - exact Hnd.
  - cbn. apply List.Forall_forall. intros o' Hin. apply List.in_map_iff in Hin.
    destruct Hin as (o & <- & Hin). apply Hround. exact Hin.
Qed.

(** The routine cases of an invariant that has a premise on the
    configuration. *)
Ltac carried :=
  intros;
  match goal with
  | HP : _ -> ?Q _, Hg : _ <= _ |- ?Q _ => exact (HP Hg)
  end.

(** X16.  On a grid of at least 4 x 4 cells, in every state a client can
    reach: every segment of the snake, the food, every power-up and every
    obstacle is on a cell of the grid; the cell of the food holds no
    power-up and no obstacle; no two power-ups share a cell. *)
Theorem board_placement (e : Engine) :
  reachable e -> 4 <= gridSize (config e) -> placed e.
Proof.
  intros Hr. apply reachable_reachableBy in Hr. revert e Hr.
  apply (invariant_reachableBy (fun _ => True)
           (fun e => 4 <= gridSize (config e) -> placed e)).
  - (* new *) intros cfg Hg. unfold placed. cbn. split_conj.
    + apply (initialSegments_onGrid (constructor cfg)). exact Hg.
    + discriminate.
    + apply Forall_nil_2.
    + apply NoDup_nil_2.
    + apply Forall_nil_2.
  - (* reset *) intros now e _ Hg. unfold placed. cbn. split_conj.
    + apply (initialSegments_onGrid (reset now e)). exact Hg.
    + discriminate.
    + apply Forall_nil_2.
    + apply NoDup_nil_2.
    + apply Forall_nil_2.
  - (* state *) carried.
  - (* steer *) carried.
  - (* clocked *) carried.
  - (* accumulator *) carried.
  - (* frame *) carried.
  - (* emit *) carried.
  - (* food *) intros f e HP Hin Hg.
    destruct (HP Hg) as (Hseg & Hfood & Hpu & Hnd & Hob).
    apply available_iff in Hin. destruct Hin as (Hgrid & _ & _ & Hnp & Hno).
    unfold placed. split_conj; try assumption.
    intros f' Hf'. cbn in Hf'. injection Hf' as <-. split_conj; assumption.
  - (* generate *) intros os e HP _ [_ Hclear] _ Hg.
    destruct (HP Hg) as (Hseg & Hfood & Hpu & Hnd & _).
    unfold placed. split_conj; try assumption.
    + intros f Hf. destruct (Hfood f Hf) as (H1 & H2 & _). split_conj.
      * exact H1.
      * exact H2.
      * intros (o & Hin & Hpos). cbn in Hin.
        assert (Hc : clearOfOthers e (ob_position o)).
        { clear Hpos. revert o Hin. apply List.Forall_forall. exact Hclear. }
        destruct Hc as (_ & _ & Hnf & _). apply Hnf.
        exists f. split; [exact Hf | symmetry; exact Hpos].
    + cbn. eapply Forall_impl; [exact Hclear|].
      intros o (Hgrid & _). exact Hgrid.
  - (* round *) intros e HP Hg. apply placed_updateObstacles, HP, Hg.
  - (* spawnPowerUp *) intros now e r e' r' HP Hrun Hg.
    destruct (spawnPowerUp_spec now e r) as (e1 & r1 & Hrun1 & Hcases).
    rewrite Hrun in Hrun1. injection Hrun1 as <- _.
    destruct Hcases as [-> | (_ & p & -> & Hin & _)]; [exact (HP Hg)|].
    destruct (HP Hg) as (Hseg & Hfood & Hpu & Hnd & Hob).
    apply available_iff in Hin. destruct Hin as (Hgrid & _ & Hnf & Hnp & _).
    unfold placed. split_conj; try assumption.
    + intros f Hf. destruct (Hfood f Hf) as (H1 & H2 & H3). split_conj.
      * exact H1.
      * intros (q & Hq & Hpos). cbn in Hq. apply List.in_app_iff in Hq.
        destruct Hq as [Hq | [<- | []]].
        -- apply H2. exists q. split; assumption.
        -- apply Hnf. exists f. split; [exact Hf | symmetry; exact Hpos].
      * exact H3.
    + cbn. apply Forall_app. split; [exact Hpu|].
      apply Forall_cons. split; [exact Hgrid | apply Forall_nil_2].
    + cbn. rewrite List.map_app. apply NoDup_app. split_conj.
      * exact Hnd.
      * intros pos Hpos Hpos'. cbn in Hpos'.
        apply list_elem_of_singleton in Hpos'. subst pos.
        apply Hnp. apply list_elem_of_In, List.in_map_iff in Hpos.
        destruct Hpos as (q & Hq & Hin). exists q. split; assumption.
      * cbn. apply NoDup_singleton.
  - (* level *) carried.
  - (* scored *) intros now f e h HP _ Hh Hg.
    destruct (HP Hg) as (Hseg & Hrest). split; [|exact Hrest].
    change (Forall (onGrid e) (h :: segments (snake e))).
    apply Forall_cons. split; assumption.
  - (* death *) intros e HP Hg. rewrite config_handleDeath in Hg.
    destruct (HP Hg) as (Hseg & Hrest).
    rewrite handleDeath_cases. cbv zeta.
    destruct (_ <=? 0); [split; assumption|].
    split; [|exact Hrest].
    apply (initialSegments_onGrid e). exact Hg.
  - (* moved *) intros h e HP Hh Hg. change (4 <= gridSize (config e)) in Hg.
    destruct (HP Hg) as (Hseg & Hrest). split; [|exact Hrest].
    change (Forall (onGrid e) (h :: removelast (segments (snake e)))).
    apply Forall_cons. split; [apply Hh; lia|].
    apply Forall_removelast. exact Hseg.
  - (* collect *) intros now p e HP Hg. rewrite config_collectPowerUp in Hg.
    apply placed_collectPowerUp, HP, Hg.
  - (* updatePowerUps *) intros now e HP Hg. rewrite config_updatePowerUps in Hg.
    apply placed_updatePowerUps, HP, Hg.
Qed.

(** X16 on the game of one meal, on the 25 x 25 grid. *)
Lemma board_placement_witness : placed (fst firstMeal).
Proof.
  apply board_placement.
  - apply (mealRun_reachable _ (snd firstMeal)). vm_compute. reflexivity.
  - vm_compute. discriminate.
Defined.

(* ===================================================================== *)
(** * A restart                                                           *)
(* ===================================================================== *)

Lemma bind_carryOver {A : Type} (src : Engine) (m : M A)
    (k1 k2 : A -> M Engine) (r : RandomSource) :
  (forall a r', k1 a r' = carryOverM src (k2 a r')) ->
  bind m k1 r = carryOverM src (bind m k2 r).
Proof.
  intros H. unfold bind. destruct (m r) as [[a r']|]; [apply H | reflexivity].
Qed.

Lemma spawnFood_carryOver (src e : Engine) (r : RandomSource) :
  spawnFood (carryOver src e) r = carryOverM src (spawnFood e r).
Proof.
  unfold spawnFood. cbv zeta.
  change (getAvailablePositions (carryOver src e)) with (getAvailablePositions e).
  destruct (getAvailablePositions e) as [|p l]; [reflexivity|].
  apply bind_carryOver. intros position r1.
  apply bind_carryOver. intros rand r2. unfold ret. cbn [carryOverM].
  destruct (Qltb rand (5 # 100)); [reflexivity|].
  destruct (Qltb rand (2 # 10)); reflexivity.
Qed.

Lemma generateObstaclesLoop_carryOver (count : nat) (now : Z) (src e : Engine)
    (r : RandomSource) :
  generateObstaclesLoop count now (carryOver src e) r
  = carryOverM src (generateObstaclesLoop count now e r).
Proof.
  revert e r. induction count as [|count IH]; intros e r; [reflexivity|].
  cbn [generateObstaclesLoop].
  change (getAvailablePositions (carryOver src e)) with (getAvailablePositions e).
  destruct (getAvailablePositions e) as [|p l]; [reflexivity|].
  apply bind_carryOver. intros position r1.
  apply bind_carryOver. intros u r2.
  apply bind_carryOver. intros id r3.
  apply bind_carryOver. intros movingDirection r4.
  apply (IH (set_obstacles
               (obstacles e ++
                  [mkObstacle id position
                     (if Qltb u (oc_movingChance (OBSTACLE_CONFIG (mode (config e))))
                      then MOVING else STATIC) movingDirection]) e)).
Qed.

Lemma generateObstacles_carryOver (now : Z) (src e : Engine) (r : RandomSource) :
  generateObstacles now (carryOver src e) r
  = carryOverM src (generateObstacles now e r).
Proof.
  unfold generateObstacles. cbv zeta.
  apply (generateObstaclesLoop_carryOver _ now src (set_obstacles [] e)).
Qed.

(** X17.  [init] forgets the game before it: on two engines of one
    configuration, at the same time and with the same samples, it leaves
    the same snake, food, power-ups, obstacles, effect, score, level,
    lives, combo, counts, clocks and speed.  Only the state, the frame
    count, the high score and the event log are carried over. *)
Theorem init_forgets (now : Z) (e1 e2 : Engine) (r : RandomSource) :
  config e1 = config e2 ->
  init now e1 r = carryOverM e1 (init now e2 r).
Proof.
  intros Hcfg. unfold init.
  assert (Hreset : reset now e1 = carryOver e1 (reset now e2)).
  { unfold reset, carryOver. cbn. rewrite Hcfg. reflexivity. }
  rewrite Hreset. unfold bind. rewrite spawnFood_carryOver.
  destruct (spawnFood (reset now e2) r) as [[e r1]|]; [|reflexivity].
  cbn [carryOverM]. apply generateObstacles_carryOver.
Qed.

(** X17 on the game of one meal, restarted, against a new engine. *)
Lemma init_forgets_witness :
  init 5000 (fst firstMeal) noSamples
  = carryOverM (fst firstMeal)
      (init 5000 (constructor (sampleConfig NORMAL CLASSIC)) noSamples).
Proof. apply init_forgets. vm_compute. reflexivity. Defined.

(* ===================================================================== *)
(** * What one tick can do                                                *)
(* ===================================================================== *)

Lemma afterStep_frame (now : Z) (e : Engine) :
  stats (afterStep now e) = stats e
  /\ state (afterStep now e) = state e
  /\ config (afterStep now e) = config e
  /\ snake (afterStep now e) = snake e
  /\ emitted (afterStep now e) = emitted e
  /\ frameCount (afterStep now e) = frameCount e + 1.
Proof.
  assert (H : stats (updatePowerUps now e) = stats e
              /\ state (updatePowerUps now e) = state e
              /\ config (updatePowerUps now e) = config e
              /\ snake (updatePowerUps now e) = snake e
              /\ emitted (updatePowerUps now e) = emitted e
              /\ frameCount (updatePowerUps now e) = frameCount e).
  { unfold updatePowerUps. cbv zeta. cbn [activePowerUp set_powerUps].
    destruct (activePowerUp e) as [a|]; [|cbn; auto 6].
    destruct (_ >=? _); [|cbn; auto 6]. destruct (ap_type a); cbn; auto 6. }
  destruct H as (H1 & H2 & H3 & H4 & H5 & H6).
  unfold afterStep. cbv zeta.
  destruct (Z.rem _ 10 =? 0); cbn; rewrite ?H1, ?H2, ?H3, ?H4, ?H5, ?H6; auto 6.
Qed.

Lemma eatFood_level (now : Z) (e e' : Engine) (r r' : RandomSource) (f : Food) :
  food e = Some f ->
  eatFood now e r = Some (e', r') ->
  level (stats e')
  = Z.max (level (stats e))
      (calculateLevel (score (stats e')) LEVEL_UP_THRESHOLD)
  /\ score (stats e')
     = score (stats e)
       + calculateScore (food_value f) (updateCombo now e) (level (stats e)).
Proof.
  intros Hf Hrun.
  destruct (eatFood_stages now e r f Hf)
    as (e6 & r6 & e7 & r7 & e1 & r1 & Hrun1 & Hlevel & Hfood & Hpu).
  rewrite Hrun in Hrun1. injection Hrun1 as <- <-.
  assert (H7 : stats e7 = stats e6).
  { destruct (spawnFood_frame e6 r6) as (fd & r8 & Hsp & _).
    rewrite Hfood in Hsp. injection Hsp as -> _. reflexivity. }
  assert (H' : stats e' = stats e6).
  { destruct Hpu as [-> | Hpu]; [exact H7|].
    rewrite (spawnPowerUp_frame_eq _ _ _ _ _ Hpu). exact H7. }
  rewrite H'. clear H7 H' Hfood Hpu Hrun.
  assert (H5l : level (stats (scored now f e)) = level (stats e)) by reflexivity.
  assert (H5s : score (stats (scored now f e))
                = score (stats e)
                  + calculateScore (food_value f) (updateCombo now e)
                      (level (stats e))) by reflexivity.
  remember (scored now f e) as e5 eqn:He5. clear He5.
  rewrite <- H5s, <- H5l. clear H5l H5s.
  destruct (_ >? _) eqn:Hgt.
  - destruct (levelUp_frame now
                (calculateLevel (score (stats e5)) LEVEL_UP_THRESHOLD) e5 r)
      as (os & r9 & Hlv).
    rewrite Hlevel in Hlv. injection Hlv as -> _.
    cbn [stats emitEvent set_obstacles set_currentSpeed set_stats set_level
         level score].
    apply Z.gtb_lt in Hgt. split; [lia | reflexivity].
  - destruct Hlevel as [-> _].
    assert (Hle : calculateLevel (score (stats e5)) LEVEL_UP_THRESHOLD
                  <= level (stats e5)).
    { destruct (Z.gtb_spec (calculateLevel (score (stats e5)) LEVEL_UP_THRESHOLD)
                  (level (stats e5))); [discriminate | lia]. }
    split; [lia | reflexivity].
Qed.

(** X18.  What one call of [update] can do to the statistics.  It never
    changes the configuration, never lowers the level, and ends in the
    state it started in or in GameOver, and in GameOver only with no life
    left.  It does exactly one of four things: take one life and leave
    score, level and counts alone; count one meal, add its points and set
    the level to the larger of the level and
    [floor(score / 100) + 1]; count one power-up; or leave lives, score,
    level and counts as they are.  While playing it counts one frame. *)
Theorem update_progress (deltaTime : Q) (now : Z) (e e' : Engine)
    (r r' : RandomSource) :
  update deltaTime now e r = Some (e', r') ->
  config e' = config e
  /\ level (stats e) <= level (stats e')
  /\ (state e' = state e \/ (state e' = GAME_OVER /\ lives (stats e') <= 0))
  /\ frameCount e' = (if GameState_eqb (state e) PLAYING
                      then frameCount e + 1 else frameCount e)
  /\ ((lives (stats e') = lives (stats e) - 1
       /\ score (stats e') = score (stats e)
       /\ level (stats e') = level (stats e)
       /\ foodEaten (stats e') = foodEaten (stats e)
       /\ powerUpsCollected (stats e') = powerUpsCollected (stats e))
      \/ (lives (stats e') = lives (stats e)
          /\ (exists f, food e = Some f
                /\ score (stats e')
                   = score (stats e)
                     + calculateScore (food_value f) (combo (stats e'))
                         (level (stats e)))
          /\ level (stats e')
             = Z.max (level (stats e))
                 (calculateLevel (score (stats e')) LEVEL_UP_THRESHOLD)
          /\ foodEaten (stats e') = foodEaten (stats e) + 1
          /\ powerUpsCollected (stats e') = powerUpsCollected (stats e))
      \/ (lives (stats e') = lives (stats e)
          /\ level (stats e') = level (stats e)
          /\ foodEaten (stats e') = foodEaten (stats e)
          /\ powerUpsCollected (stats e') = powerUpsCollected (stats e) + 1)
      \/ (lives (stats e') = lives (stats e)
          /\ score (stats e') = score (stats e)
          /\ level (stats e') = level (stats e)
          /\ foodEaten (stats e') = foodEaten (stats e)
          /\ powerUpsCollected (stats e') = powerUpsCollected (stats e))).
Proof.
  rewrite update_stages.
  destruct (GameState_eqb (state e) PLAYING) eqn:Hplay; cbn [negb].
  2:{ intros H. injection H as <- _. split_conj; auto. lia.
      right; right; right. auto 6. }
  destruct (Qle_bool _ _).
  2:{ intros H. injection H as <- _.
      destruct (afterStep_frame now (clocked deltaTime e))
        as (-> & -> & -> & _ & _ & ->).
      cbn. split_conj; auto. lia. right; right; right. auto 6. }
  set (e2 := set_moveAccumulator 0 (clocked deltaTime e)).
  destruct (updateGameLogic now e2 r) as [[e3 r3]|] eqn:Hstep; [|discriminate].
  intros H. injection H as <- _.
  destruct (afterStep_frame now e3) as (-> & -> & -> & _ & _ & ->).
  destruct (segments (snake e2)) as [|currentHead rest] eqn:Hseg.
  { unfold updateGameLogic in Hstep. cbn in Hstep. cbn in Hseg.
    rewrite Hseg in Hstep. discriminate. }
  destruct (updateGameLogic_steps now e2 r currentHead rest Hseg)
    as [H | [(f & Hf & _ & H) | [(p & head & _ & H) | (head & _ & H)]]];
    rewrite H in Hstep.
  - (* a life *)
    injection Hstep as <- _. rewrite handleDeath_cases. cbv zeta.
    destruct (_ <=? 0) eqn:Hlives.
    + apply Z.leb_le in Hlives. cbn in *. split_conj; auto. lia. left. auto 6.
    + cbn. split_conj; auto. lia. left. auto 6.
  - (* a meal *)
    set (x := grown e2 (candidateHead e2 currentHead)) in *.
    assert (Hx : state x = state e /\ config x = config e
                 /\ frameCount x = frameCount e
                 /\ lives (stats x) = lives (stats e)
                 /\ level (stats x) = level (stats e)
                 /\ score (stats x) = score (stats e)
                 /\ foodEaten (stats x) = foodEaten (stats e)
                 /\ powerUpsCollected (stats x) = powerUpsCollected (stats e)
                 /\ updateCombo now x = updateCombo now e
                 /\ food x = food e)
      by (repeat split; reflexivity).
    destruct Hx as (Hx1 & Hx2 & Hx3 & Hx4 & Hx5 & Hx6 & Hx7 & Hx8 & Hx9 & Hx10).
    change (food e = Some f) in Hf. rewrite <- Hx10 in Hf.
    clearbody x. clear H.
    destruct (eatFood_frame now x r f Hf)
      as (e4 & r4 & Hrun & _ & Hstate & Hconfig & _ & _ & Hframe & _ & Hcombo
          & _ & Heaten & Hlives & Hpicked & _).
    rewrite Hrun in Hstep. injection Hstep as <- <-.
    destruct (eatFood_level now x e4 r r4 f Hf Hrun) as [Hlevel Hscore].
    rewrite Hx1 in Hstate. rewrite Hx2 in Hconfig. rewrite Hx3 in Hframe.
    rewrite Hx4 in Hlives. rewrite Hx5 in Hlevel, Hscore.
    rewrite Hx6 in Hscore. rewrite Hx7 in Heaten. rewrite Hx8 in Hpicked.
    rewrite Hx9 in Hcombo, Hscore. rewrite Hx10 in Hf.
    split_conj; auto; try lia.
    right; left. split_conj; auto.
    exists f. split; [exact Hf|]. rewrite Hcombo. exact Hscore.
  - (* a power-up *)
    injection Hstep as <- _. unfold collectPowerUp. cbv zeta.
    destruct (pu_type p); try case_cond; cbn;
      (split_conj; auto; [lia | right; right; left; auto 6]).
  - (* a move *)
    injection Hstep as <- _. cbn. split_conj; auto. lia.
    right; right; right. auto 6.
Qed.

(** X18 on the first tick of the game of one meal. *)
Lemma update_progress_witness :
  foodEaten (stats (fst firstMeal)) = foodEaten (stats (fst served)) + 1
  /\ level (stats (fst served)) <= level (stats (fst firstMeal)).
Proof.
  split; [vm_compute; reflexivity|].
  assert (Hrun : update 100 1100 (fst served) (snd served)
                 = Some (fst firstMeal, snd firstMeal))
    by (vm_compute; reflexivity).
  destruct (update_progress _ _ _ _ _ _ Hrun) as (_ & Hlevel & _).
  exact Hlevel.
Defined.

(* ===================================================================== *)
(** * Position keys                                                       *)
(* ===================================================================== *)

Lemma split_comma_noComma (s : string) :
  noComma s = true -> split_comma s = [s].
Proof.
  induction s as [|c s IH]; [reflexivity|].
  cbn [noComma split_comma]. destruct (Ascii.eqb c ","); [discriminate|].
  cbn [negb andb]. intros H. rewrite (IH H). reflexivity.
Qed.

Lemma split_comma_app (a b : string) :
  noComma a = true ->
  split_comma (String.append a (String "," b)) = a :: split_comma b.
Proof.
  induction a as [|c a IH]; [reflexivity|].
  cbn [noComma]. intros H.
  change (String.append (String c a) (String "," b))
    with (String c (String.append a (String "," b))).
  cbn [split_comma]. destruct (Ascii.eqb c ","); [discriminate|].
  rewrite (IH H). reflexivity.
Qed.

Lemma noComma_uint (d : Decimal.uint) :
  noComma (NilEmpty.string_of_uint d) = true.
Proof. induction d; cbn; auto. Qed.

Lemma noComma_number (n : Z) : noComma (String_of_number n) = true.
Proof.
  unfold String_of_number, NilZero.string_of_int, NilZero.string_of_uint.
  destruct (Z.to_int n) as [d|d]; destruct d; try reflexivity;
    try apply noComma_uint;
    try (change (noComma (NilEmpty.string_of_uint ?u) = true); apply noComma_uint).
Qed.

Lemma Number_String_of_number (n : Z) : Number (String_of_number n) = Some n.
Proof.
  unfold Number, String_of_number.
  assert (Hp : Z.to_int n <> Decimal.Pos Decimal.Nil).
  { destruct n; cbn; try discriminate.
    intros H. injection H as H. exact (Unsigned.to_uint_nonnil _ H). }
  assert (Hn : Z.to_int n <> Decimal.Neg Decimal.Nil).
  { destruct n; cbn; try discriminate.
    intros H. injection H as H. exact (Unsigned.to_uint_nonnil _ H). }
  pose proof (NilZero.isi (Z.to_int n) Hp Hn) as Hisi.
  destruct (NilZero.string_of_int (Z.to_int n)) as [|c s] eqn:Hs.
  - cbn in Hisi. discriminate.
  - rewrite Hisi. cbn [option_map]. rewrite DecimalZ.of_to. reflexivity.
Qed.

(** The two pieces of a key, read as numbers. *)
Lemma hashPosition_pieces (pos : Position) :
  List.map Number (split_comma (hashPosition pos))
  = [Some (px pos); Some (py pos)].
Proof.
  unfold hashPosition.
  rewrite split_comma_app by apply noComma_number.
  rewrite split_comma_noComma by apply noComma_number.
  cbn [List.map]. rewrite !Number_String_of_number. reflexivity.
Qed.

Lemma hashPosition_inj (p q : Position) : hashPosition p = hashPosition q -> p = q.
Proof.
  intros H. pose proof (hashPosition_pieces p) as Hp.
  rewrite H, hashPosition_pieces in Hp.
  destruct p, q. cbn in Hp. congruence.
Qed.

(** X19.  [unhashPosition] undoes [hashPosition] on every position with
    integer coordinates, so two positions have the same key only if they
    are the same position. *)
Theorem unhashPosition_hashPosition :
  (forall pos, unhashPosition (hashPosition pos) = Some pos)
  /\ (forall p q, hashPosition p = hashPosition q -> p = q).
Proof.
  assert (Hround : forall pos, unhashPosition (hashPosition pos) = Some pos).
  { intros pos. unfold unhashPosition. rewrite hashPosition_pieces.
    destruct pos. reflexivity. }
  split; [exact Hround|].
  intros p q H. apply (f_equal unhashPosition) in H.
  rewrite !Hround in H. congruence.
Qed.

(* ===================================================================== *)
(** * The spatial hash grid                                               *)
(* ===================================================================== *)

Lemma query_insert (id : string) (p pos : Position) (g : SpatialHashGrid.t) :
  SpatialHashGrid.query pos (SpatialHashGrid.insert id p g)
  = if decide (pos = p) then SpatialHashGrid.query p g ∪ {[id]}
    else SpatialHashGrid.query pos g.
Proof.
  unfold SpatialHashGrid.query, SpatialHashGrid.insert. cbv zeta.
  cbn [SpatialHashGrid.grid].
  destruct (decide (pos = p)) as [->|Hne].
  - destruct (SpatialHashGrid.grid g !! hashPosition p) as [cell|] eqn:Hcell;
      rewrite !lookup_insert_eq, ?Hcell; reflexivity.
  - assert (Hk : hashPosition p <> hashPosition pos).
    { intros H. apply hashPosition_inj in H. congruence. }
    rewrite lookup_insert_ne by exact Hk.
    destruct (SpatialHashGrid.grid g !! hashPosition p) as [cell|]; [reflexivity|].
    rewrite lookup_insert_ne by exact Hk. reflexivity.
Qed.

Lemma query_remove (id : string) (p pos : Position) (g : SpatialHashGrid.t) :
  SpatialHashGrid.objectPositions g !! id = Some p ->
  SpatialHashGrid.query pos (SpatialHashGrid.remove id g)
  = if decide (pos = p) then SpatialHashGrid.query p g ∖ {[id]}
    else SpatialHashGrid.query pos g.
Proof.
  intros Hid. unfold SpatialHashGrid.query, SpatialHashGrid.remove.
  rewrite Hid. cbv zeta. cbn [SpatialHashGrid.grid].
  destruct (decide (pos = p)) as [->|Hne].
  - destruct (SpatialHashGrid.grid g !! hashPosition p) as [cell|] eqn:Hcell.
    + rewrite lookup_insert_eq. reflexivity.
    + rewrite Hcell. cbn [default from_option]. apply set_eq. intros x.
      rewrite elem_of_difference, elem_of_empty. tauto.
  - assert (Hk : hashPosition p <> hashPosition pos).
    { intros H. apply hashPosition_inj in H. congruence. }
    destruct (SpatialHashGrid.grid g !! hashPosition p) as [cell|]; [|reflexivity].
    rewrite lookup_insert_ne by exact Hk. reflexivity.
Qed.

Lemma consistent_insert_new (id : string) (p : Position) (g : SpatialHashGrid.t) :
  SpatialHashGrid.consistent g ->
  SpatialHashGrid.objectPositions g !! id = None ->
  SpatialHashGrid.consistent (SpatialHashGrid.insert id p g).
Proof.
  intros Hc Hnew id' pos. rewrite query_insert.
  change (SpatialHashGrid.objectPositions (SpatialHashGrid.insert id p g))
    with (<[id := p]> (SpatialHashGrid.objectPositions g)).
  rewrite lookup_insert.
  destruct (decide (pos = p)) as [->|Hne]; destruct (decide (id = id')) as [->|Hid].
  - rewrite elem_of_union, elem_of_singleton. split; auto.
  - rewrite elem_of_union, elem_of_singleton, (Hc id' p). split; [|auto].
    intros [H | H]; [exact H | congruence].
  - rewrite (Hc id' pos), Hnew. split; congruence.
  - apply Hc.
Qed.

Lemma consistent_remove (id : string) (g : SpatialHashGrid.t) :
  SpatialHashGrid.consistent g ->
  SpatialHashGrid.consistent (SpatialHashGrid.remove id g)
  /\ SpatialHashGrid.objectPositions (SpatialHashGrid.remove id g) !! id = None.
Proof.
  intros Hc.
  destruct (SpatialHashGrid.objectPositions g !! id) as [p|] eqn:Hid.
  2:{ unfold SpatialHashGrid.remove. rewrite Hid. split; assumption. }
  split.
  - intros id' pos. rewrite (query_remove id p pos g Hid).
    assert (Hobj : SpatialHashGrid.objectPositions (SpatialHashGrid.remove id g)
                   = delete id (SpatialHashGrid.objectPositions g)).
    { unfold SpatialHashGrid.remove. rewrite Hid. reflexivity. }
    rewrite Hobj, lookup_delete.
    destruct (decide (pos = p)) as [->|Hne]; destruct (decide (id = id')) as [->|Hne'].
    + rewrite elem_of_difference, elem_of_singleton.
      split; [tauto | discriminate].
    + rewrite elem_of_difference, elem_of_singleton, (Hc id' p).
      split; [tauto | intros H; split; [exact H | congruence]].
    + rewrite (Hc id' pos), Hid. split; congruence.
    + apply Hc.
  - unfold SpatialHashGrid.remove. rewrite Hid. cbn. apply lookup_delete_eq.
Qed.

(** X20.  The grid and the table of positions of a [SpatialHashGrid] stay
    consistent (an object is in the cell of a position exactly when the
    table gives it that position) from a new grid on, under [update],
    [remove] and [clear], and under [insert] of an object the table does
    not hold.  [insert] of an object that is already elsewhere does not:
    the object stays in its old cell as well. *)
Theorem SpatialHashGrid_consistency :
  SpatialHashGrid.consistent SpatialHashGrid.new
  /\ (forall id p g,
        SpatialHashGrid.consistent g ->
        SpatialHashGrid.consistent (SpatialHashGrid.update id p g)
        /\ SpatialHashGrid.getAllObjects (SpatialHashGrid.update id p g) !! id
           = Some p)
  /\ (forall id g,
        SpatialHashGrid.consistent g ->
        SpatialHashGrid.consistent (SpatialHashGrid.remove id g)
        /\ SpatialHashGrid.getAllObjects (SpatialHashGrid.remove id g) !! id
           = None)
  /\ (forall g, SpatialHashGrid.consistent (SpatialHashGrid.clear g))
  /\ (forall id p g,
        SpatialHashGrid.consistent g ->
        SpatialHashGrid.getAllObjects g !! id = None ->
        SpatialHashGrid.consistent (SpatialHashGrid.insert id p g))
  /\ (forall id p p0 g,
        SpatialHashGrid.consistent g ->
        SpatialHashGrid.getAllObjects g !! id = Some p0 -> p0 <> p ->
        id ∈ SpatialHashGrid.query p0 (SpatialHashGrid.insert id p g)
        /\ SpatialHashGrid.getAllObjects (SpatialHashGrid.insert id p g) !! id
           = Some p
        /\ ~ SpatialHashGrid.consistent (SpatialHashGrid.insert id p g)).
Proof.
  assert (Hnew : SpatialHashGrid.consistent SpatialHashGrid.new).
  { intros id pos. unfold SpatialHashGrid.query. cbn.
    rewrite !lookup_empty. cbn. rewrite elem_of_empty.
    split; [contradiction | discriminate]. }
  split_conj.
  - exact Hnew.
  - intros id p g Hc. destruct (consistent_remove id g Hc) as [Hc' Hnone].
    split.
    + apply consistent_insert_new; assumption.
    + cbn. apply lookup_insert_eq.
  - intros id g Hc. apply consistent_remove. exact Hc.
  - intros g. exact Hnew.
  - intros id p g Hc Hnone. apply consistent_insert_new; assumption.
  - intros id p p0 g Hc Hid Hne.
    assert (Hstale : id ∈ SpatialHashGrid.query p0 (SpatialHashGrid.insert id p g)).
    { rewrite query_insert. destruct (decide (p0 = p)); [congruence|].
      apply Hc. exact Hid. }
    assert (Hpos : SpatialHashGrid.getAllObjects (SpatialHashGrid.insert id p g) !! id
                   = Some p) by (cbn; apply lookup_insert_eq).
    split_conj; [exact Hstale | exact Hpos|].
    intros Hc'. apply Hc' in Hstale.
    unfold SpatialHashGrid.getAllObjects in Hpos. congruence.
Qed.

Lemma offsets_In (radius d : Z) :
  In d (SpatialHashGrid.offsets radius) <-> - radius <= d <= radius.
Proof.
  unfold SpatialHashGrid.offsets. rewrite List.in_map_iff. split.
  - intros (i & <- & Hi). apply in_seq in Hi. lia.
  - intros Hd. exists (Z.to_nat (d + radius)). split; [lia|].
    apply in_seq. lia.
Qed.

Lemma elem_of_foldl_union {A : Type} (Q : A -> Prop)
    (F : gset string -> A -> gset string) (id : string) :
  (forall acc x, id ∈ F acc x <-> id ∈ acc \/ Q x) ->
  forall l init,
    id ∈ foldl F init l <-> id ∈ init \/ exists x, In x l /\ Q x.
Proof.
  intros HF l. induction l as [|a l IH]; intros init.
  - cbn. split; [auto | intros [H | (x & [] & _)]; exact H].
  - cbn [foldl]. rewrite IH, HF. split.
    + intros [[H | H] | (x & Hx & HQ)]; [auto | right; exists a; cbn; auto|].
      right. exists x. cbn. auto.
    + intros [H | (x & [<- | Hx] & HQ)]; [auto | auto|].
      right. exists x. auto.
Qed.

(** X21.  [queryRadius] returns the objects of the cells of a square: an
    object is returned exactly when it is in the cell of a position whose
    two coordinates are each within [radius] of the centre's.  On a
    consistent grid those are the objects whose own position is; with a
    negative radius there are none. *)
Theorem queryRadius_square (position : Position) (radius : Z)
    (g : SpatialHashGrid.t) (id : string) :
  (id ∈ SpatialHashGrid.queryRadius position radius g
   <-> exists p,
         Z.abs (px p - px position) <= radius
         /\ Z.abs (py p - py position) <= radius
         /\ id ∈ SpatialHashGrid.query p g)
  /\ (SpatialHashGrid.consistent g ->
      (id ∈ SpatialHashGrid.queryRadius position radius g
       <-> exists p,
             SpatialHashGrid.getAllObjects g !! id = Some p
             /\ Z.abs (px p - px position) <= radius
             /\ Z.abs (py p - py position) <= radius)).
Proof.
  assert (Hsq : id ∈ SpatialHashGrid.queryRadius position radius g
                <-> exists p,
                      Z.abs (px p - px position) <= radius
                      /\ Z.abs (py p - py position) <= radius
                      /\ id ∈ SpatialHashGrid.query p g).
  { unfold SpatialHashGrid.queryRadius.
    rewrite (elem_of_foldl_union
               (fun dx => exists dy,
                    In dy (SpatialHashGrid.offsets radius)
                    /\ id ∈ SpatialHashGrid.query
                              (mkPosition (px position + dx) (py position + dy)) g)).
    2:{ intros acc dx.
        apply (elem_of_foldl_union
                 (fun dy => id ∈ SpatialHashGrid.query
                                   (mkPosition (px position + dx) (py position + dy)) g)).
        intros acc' dy. apply elem_of_union. }
    split.
    - intros [H | (dx & Hdx & dy & Hdy & Hin)];
        [apply elem_of_empty in H; contradiction|].
      apply offsets_In in Hdx, Hdy.
      exists (mkPosition (px position + dx) (py position + dy)).
      cbn [px py]. split_conj; [lia | lia | exact Hin].
    - intros ([x y] & Hx & Hy & Hin). cbn [px py] in Hx, Hy. right.
      exists (x - px position). split; [apply offsets_In; lia|].
      exists (y - py position). split; [apply offsets_In; lia|].
      replace (px position + (x - px position)) with x by lia.
      replace (py position + (y - py position)) with y by lia.
      exact Hin. }
  split; [exact Hsq|].
  intros Hc. rewrite Hsq. unfold SpatialHashGrid.getAllObjects. split.
  - intros (p & Hx & Hy & Hin). exists p. split_conj; [apply Hc; exact Hin | exact Hx | exact Hy].
  - intros (p & Hin & Hx & Hy). exists p. split_conj; [exact Hx | exact Hy | apply Hc; exact Hin].
Qed.

(* ===================================================================== *)
(** * The moving average                                                  *)
(* ===================================================================== *)

Lemma MovingAverage_window_step (v : JSNumber.number) (m : MovingAverage.t) :
  (List.length (MovingAverage.values m)
   <= Z.to_nat (MovingAverage.windowSize m))%nat ->
  let m' := snd (MovingAverage.add v m) in
  MovingAverage.windowSize m' = MovingAverage.windowSize m
  /\ MovingAverage.values m'
     = drop (List.length (MovingAverage.values m ++ [v])
             - Z.to_nat (MovingAverage.windowSize m))
         (MovingAverage.values m ++ [v])
  /\ (List.length (MovingAverage.values m')
      <= Z.to_nat (MovingAverage.windowSize m'))%nat.
Proof.
  intros Hlen. cbv zeta. unfold MovingAverage.add. cbv zeta. cbn [snd].
  rewrite length_app. cbn [List.length].
  destruct (Z.ltb_spec (MovingAverage.windowSize m)
              (Z.of_nat (List.length (MovingAverage.values m) + 1))) as [Hlt|Hge].
  - assert (Hfull : (List.length (MovingAverage.values m)
                     = Z.to_nat (MovingAverage.windowSize m))%nat) by lia.
    replace (List.length (MovingAverage.values m) + 1
             - Z.to_nat (MovingAverage.windowSize m))%nat with 1%nat by lia.
    destruct (MovingAverage.values m ++ [v]) as [|removed rest] eqn:Hv.
    { destruct (MovingAverage.values m); discriminate. }
    cbn [MovingAverage.values MovingAverage.windowSize drop].
    split_conj; [reflexivity | reflexivity|].
    apply (f_equal List.length) in Hv. rewrite length_app in Hv.
    cbn [List.length] in Hv. lia.
  - replace (List.length (MovingAverage.values m) + 1
             - Z.to_nat (MovingAverage.windowSize m))%nat with 0%nat by lia.
    cbn [MovingAverage.values MovingAverage.windowSize drop].
    split_conj; [reflexivity | reflexivity|].
    rewrite length_app. cbn [List.length]. lia.
Qed.

Lemma MovingAverage_window_run (vs : list JSNumber.number) (m : MovingAverage.t) :
  (List.length (MovingAverage.values m)
   <= Z.to_nat (MovingAverage.windowSize m))%nat ->
  MovingAverage.windowSize (MovingAverage.addAll vs m) = MovingAverage.windowSize m
  /\ MovingAverage.values (MovingAverage.addAll vs m)
     = drop (List.length (MovingAverage.values m ++ vs)
             - Z.to_nat (MovingAverage.windowSize m))
         (MovingAverage.values m ++ vs).
Proof.
  revert m. induction vs as [|v vs IH]; intros m Hlen.
  - cbn. rewrite app_nil_r. split; [reflexivity|].
    replace (_ - _)%nat with 0%nat by lia. reflexivity.
  - destruct (MovingAverage_window_step v m Hlen) as (Hw & Hv & Hlen').
    unfold MovingAverage.addAll. cbn [foldl].
    fold (MovingAverage.addAll vs (snd (MovingAverage.add v m))).
    destruct (IH _ Hlen') as [Hw' Hv']. rewrite Hw', Hv', Hw, Hv.
    split; [reflexivity|].
    set (V := MovingAverage.values m) in *.
    set (w := Z.to_nat (MovingAverage.windowSize m)) in *.
    replace (V ++ v :: vs) with ((V ++ [v]) ++ vs)
      by (rewrite <- app_assoc; reflexivity).
    destruct (le_lt_dec (List.length (V ++ [v])) w) as [Hle|Hgt].
    + replace (List.length (V ++ [v]) - w)%nat with 0%nat by lia.
      reflexivity.
    + rewrite length_app in Hgt. cbn [List.length] in Hgt.
      replace (List.length (V ++ [v]) - w)%nat with 1%nat
        by (rewrite length_app; cbn [List.length]; lia).
      rewrite <- (drop_app_le (V ++ [v]) vs 1)
        by (rewrite length_app; cbn [List.length]; lia).
      rewrite drop_drop. f_equal.
      rewrite length_drop, !length_app. cbn [List.length]. lia.
Qed.

(** X22.  A [MovingAverage] keeps the last [windowSize] values it was
    given, in order, and all of them while they are fewer; with a window
    of 0 or less it keeps none, and [getAverage] is then 0. *)
Theorem MovingAverage_window (windowSize : Z) (vs : list JSNumber.number) :
  let m := MovingAverage.addAll vs (MovingAverage.new windowSize) in
  MovingAverage.values m = drop (List.length vs - Z.to_nat windowSize) vs
  /\ (List.length (MovingAverage.values m) <= Z.to_nat windowSize)%nat
  /\ (windowSize <= 0 -> MovingAverage.getAverage m = JSNumber.of_Z 0).
Proof.
  cbv zeta.
  destruct (MovingAverage_window_run vs (MovingAverage.new windowSize))
    as [_ Hv]; [cbn; lia|].
  cbn [MovingAverage.values MovingAverage.windowSize MovingAverage.new app] in Hv.
  rewrite Hv. split_conj.
  - reflexivity.
  - rewrite length_drop. lia.
  - intros Hw. unfold MovingAverage.getAverage. rewrite Hv, length_drop.
    replace (List.length vs - (List.length vs - Z.to_nat windowSize))%nat
      with 0%nat by lia.
    reflexivity.
Qed.

(** X23.  A sum that is [NaN] stays [NaN]: whatever is added afterwards,
    [add] returns [NaN] as long as the window holds a value, until
    [reset].  The sum becomes [NaN] when an infinite value leaves the
    window. *)
Theorem MovingAverage_NaN_absorbing (value : JSNumber.number)
    (m : MovingAverage.t) :
  MovingAverage.sum m = S754_nan ->
  MovingAverage.sum (snd (MovingAverage.add value m)) = S754_nan
  /\ (0 < MovingAverage.windowSize m ->
      fst (MovingAverage.add value m) = S754_nan).
Proof.
  intros Hnan. unfold MovingAverage.add. cbv zeta. cbn [fst snd].
  rewrite Hnan.
  assert (Hadd : JSNumber.add S754_nan value = S754_nan) by reflexivity.
  rewrite Hadd.
  assert (Hsub : forall x, MovingAverage.sub S754_nan x = S754_nan)
    by reflexivity.
  assert (Hdiv : forall x, MovingAverage.div S754_nan x = S754_nan)
    by reflexivity.
  destruct (Z.ltb_spec (MovingAverage.windowSize m)
              (Z.of_nat (List.length (MovingAverage.values m ++ [value]))))
    as [Hlt|Hge].
  - destruct (MovingAverage.values m ++ [value]) as [|removed rest] eqn:Hv.
    { destruct (MovingAverage.values m); discriminate. }
    cbn [MovingAverage.sum]. rewrite Hsub. split; [reflexivity|].
    intros Hw. unfold MovingAverage.getAverage.
    cbn [MovingAverage.values MovingAverage.sum].
    cbn [List.length] in Hlt.
    destruct rest as [|x rest]; [cbn in Hlt; lia|].
    cbn [List.length Nat.ltb Nat.leb]. apply Hdiv.
  - cbn [MovingAverage.sum]. split; [reflexivity|].
    intros _. unfold MovingAverage.getAverage.
    cbn [MovingAverage.values MovingAverage.sum].
    rewrite length_app. cbn [List.length].
    replace (0 <? List.length (MovingAverage.values m) + 1)%nat with true
      by (symmetry; apply Nat.ltb_lt; lia).
    apply Hdiv.
Qed.

(** X23 with a window of one value: after an infinite value and then 1,
    the sum is [NaN], and adding 2 returns [NaN]. *)
Lemma MovingAverage_NaN_absorbing_witness :
  fst (MovingAverage.add (JSNumber.of_Z 2)
         (MovingAverage.addAll [S754_infinity false; JSNumber.of_Z 1]
            (MovingAverage.new 1)))
  = S754_nan.
Proof.
  apply MovingAverage_NaN_absorbing.
  - vm_compute. reflexivity.
  - vm_compute. reflexivity.
Defined.

(* ===================================================================== *)
(** * Formatting                                                          *)
(* ===================================================================== *)

Lemma padStart2_length (s : string) : (2 <= String.length (padStart2 s))%nat.
Proof.
  unfold padStart2. destruct s as [|c [|c' s]]; cbn; lia.
Qed.

Lemma Number_padStart2 (n : Z) :
  0 <= n -> Number (padStart2 (String_of_number n)) = Some n.
Proof.
  intros Hn. pose proof (Number_String_of_number n) as Hnum.
  unfold padStart2.
  destruct (String_of_number n) as [|c [|c' s]] eqn:Hs; try exact Hnum.
  cbn [String.length]. unfold Number in *.
  assert (Hc : Ascii.eqb c "-" = false).
  { destruct (Ascii.eqb_spec c "-") as [->|]; [|reflexivity].
    cbn in Hnum. discriminate. }
  cbn [NilZero.int_of_string] in *. rewrite Hc in Hnum.
  change (Ascii.eqb "0" "-") with false. cbv iota.
  cbn [NilZero.uint_of_string NilEmpty.uint_of_string] in *.
  destruct (uint_of_char c (Some Decimal.Nil)) as [d|]; [|discriminate].
  cbn [uint_of_char option_map] in *. exact Hnum.
Qed.

Lemma padStart2_two_digits (n : Z) :
  0 <= n < 60 -> String.length (padStart2 (String_of_number n)) = 2%nat.
Proof.
  intros Hn.
  assert (Hall : forallb
            (fun k => Nat.eqb
                        (String.length (padStart2 (String_of_number (Z.of_nat k))))
                        2)
            (seq 0 60) = true) by (vm_compute; reflexivity).
  rewrite forallb_forall in Hall.
  specialize (Hall (Z.to_nat n)). rewrite Z2Nat.id in Hall by lia.
  apply Nat.eqb_eq, Hall, in_seq. lia.
Qed.

(** X24.  For a time of [ms >= 0] whole milliseconds [formatTime] writes
    minutes, a colon, seconds: the seconds in exactly two digits, the
    minutes in at least two, and read back as numbers they are
    [floor(ms / 60000)] and the seconds left over, below 60, so that
    [60 * minutes + seconds = floor(ms / 1000)]. *)
Theorem formatTime_reads_back (ms : Z) :
  0 <= ms ->
  exists mm ss minutes seconds,
    formatTime ms = String.append mm (String ":" ss)
    /\ (2 <= String.length mm)%nat
    /\ String.length ss = 2%nat
    /\ Number mm = Some minutes
    /\ Number ss = Some seconds
    /\ 0 <= seconds < 60
    /\ 60 * minutes + seconds = ms / 1000.
Proof.
  intros Hms.
  assert (Hs : 0 <= ms / 1000) by (apply Z.div_pos; lia).
  assert (Hm : 0 <= ms / 1000 / 60) by (apply Z.div_pos; lia).
  assert (Hr : 0 <= Z.rem (ms / 1000) 60 < 60) by (apply Z.rem_bound_pos; lia).
  exists (padStart2 (String_of_number (ms / 1000 / 60))),
         (padStart2 (String_of_number (Z.rem (ms / 1000) 60))),
         (ms / 1000 / 60), (Z.rem (ms / 1000) 60).
  split_conj.
  - reflexivity.
  - apply padStart2_length.
  - apply padStart2_two_digits. exact Hr.
  - apply Number_padStart2. exact Hm.
  - apply Number_padStart2. lia.
  - lia.
  - lia.
  - rewrite Z.rem_mod_nonneg by lia.
    pose proof (Z.div_mod (ms / 1000) 60). lia.
Qed.

(** X24 on 754321 ms: twelve minutes and thirty-four seconds. *)
Lemma formatTime_reads_back_witness :
  formatTime 754321 = "12:34"%string
  /\ exists mm ss minutes seconds,
       formatTime 754321 = String.append mm (String ":" ss)
       /\ (2 <= String.length mm)%nat
       /\ String.length ss = 2%nat
       /\ Number mm = Some minutes
       /\ Number ss = Some seconds
       /\ 0 <= seconds < 60
       /\ 60 * minutes + seconds = 754321 / 1000.
Proof.
  split; [vm_compute; reflexivity|].
  apply formatTime_reads_back. lia.
Defined.

(* ===================================================================== *)
(** * The store                                                           *)
(* ===================================================================== *)

(** The high score of the store's current statistics is at least their
    score, in every state its actions lead to. *)
Lemma GameStore_highScore_bounds_score (st : GameStore.t) :
  GameStore.reachable st ->
  score (GameStore.currentStats st) <= highScore (GameStore.currentStats st).
Proof.
  induction 1 as [|s st _ IH|m st _ IH|newStats st _ IH|gameStats st _ IH
                 |st _ IH|st _ IH]; try exact IH; try (cbn; lia).
  unfold GameStore.updateCurrentStats. cbv zeta. cbn [GameStore.currentStats].
  set (u := GameStore.spread (GameStore.currentStats st) newStats).
  destruct (Z.gtb_spec (score u) (highScore u));
    cbn [score highScore GameStore.set_highScore]; lia.
Qed.

Lemma updateCurrentStats_whole (s : GameStats) (st : GameStore.t) :
  highScore s = 0 ->
  GameStore.currentStats (GameStore.updateCurrentStats (GameStore.whole s) st)
  = GameStore.set_highScore (Z.max 0 (score s)) s.
Proof.
  intros Hhigh. unfold GameStore.updateCurrentStats. cbv zeta.
  cbn [GameStore.currentStats].
  assert (Hspread : GameStore.spread (GameStore.currentStats st) (GameStore.whole s)
                    = s) by (destruct s; reflexivity).
  rewrite Hspread, Hhigh.
  destruct (Z.gtb_spec (score s) 0) as [Hpos|Hneg].
  - rewrite Z.max_r by lia. reflexivity.
  - rewrite Z.max_l by lia. destruct s. cbn in *. subst. reflexivity.
Qed.

Lemma highScore_heard (deltaTime : Q) (now : Z) (f : Food) (head : Position)
    (e : Engine) :
  highScore (stats (heard deltaTime now f head e)) = highScore (stats e).
Proof. unfold heard, scored. reflexivity. Qed.

Lemma highScore_levelUp (now newLevel : Z) (e e' : Engine) (r r' : RandomSource) :
  levelUp now newLevel e r = Some (e', r') ->
  highScore (stats e') = highScore (stats e).
Proof.
  intros Hlevel. destruct (levelUp_frame now newLevel e r) as (os & r1 & Hlv).
  rewrite Hlevel in Hlv. injection Hlv as -> _. reflexivity.
Qed.

(** X26.  What the canvas's listeners hand to the store.  The statistics
    of the engine carry a high score of 0 in every reachable state, and
    also when FOOD_EATEN and LEVEL_UP are delivered in the middle of a
    tick; so [updateCurrentStats(engine.getStats())] leaves the store
    with the engine's statistics and, as high score, the score just
    reached (0 when the score is not positive), whatever high score the
    store held before. *)
Theorem store_highScore_is_current_score (e : Engine) (st : GameStore.t) :
  reachable e ->
  GameStore.currentStats
    (GameStore.updateCurrentStats (GameStore.whole (getStats e)) st)
  = GameStore.set_highScore (Z.max 0 (score (getStats e))) (getStats e)
  /\ (forall (deltaTime : Q) (now : Z) (f : Food) (head : Position),
        GameStore.currentStats
          (GameStore.updateCurrentStats
             (GameStore.whole (getStats (heard deltaTime now f head e))) st)
        = GameStore.set_highScore
            (Z.max 0 (score (getStats (heard deltaTime now f head e))))
            (getStats (heard deltaTime now f head e))
        /\ forall (newLevel : Z) (r r' : RandomSource) (e' : Engine),
             levelUp now newLevel (heard deltaTime now f head e) r
             = Some (e', r') ->
             GameStore.currentStats
               (GameStore.updateCurrentStats (GameStore.whole (getStats e')) st)
             = GameStore.set_highScore (Z.max 0 (score (getStats e')))
                 (getStats e')).
Proof.
  intros Hr.
  assert (Hhigh : highScore (stats e) = 0).
  { induction Hr as [cfg | now e e' r r' _ IH Hrun | dt now e e' r r' _ IH Hrun
                    | d e _ IH | s e _ IH].
    - reflexivity.
    - rewrite (highScore_init _ _ _ _ _ Hrun). exact IH.
    - rewrite (highScore_update _ _ _ _ _ _ Hrun). exact IH.
    - unfold changeDirection. destruct (negb _); exact IH.
    - exact IH. }
  split; [apply updateCurrentStats_whole; exact Hhigh|].
  intros deltaTime now f head.
  pose proof (highScore_heard deltaTime now f head e) as Hheard.
  rewrite Hhigh in Hheard.
  split; [apply updateCurrentStats_whole; exact Hheard|].
  intros newLevel r r' e' Hlevel.
  apply updateCurrentStats_whole. unfold getStats.
  rewrite (highScore_levelUp _ _ _ _ _ _ Hlevel). exact Hheard.
Qed.

(** X26 on the game of one meal and a store that held a high score of
    500: the store is left with 22. *)
Lemma store_highScore_is_current_score_witness :
  highScore
    (GameStore.currentStats
       (GameStore.updateCurrentStats
          (GameStore.whole (getStats (fst firstMeal)))
          (GameStore.mk PLAYING CLASSIC (mkGameStats 0 1 3 1 0 0 0 500)
             GameStore.initialAllTimeStats)))
  = 22.
Proof.
  assert (Hr : reachable (fst firstMeal)).
  { apply (mealRun_reachable _ (snd firstMeal)). vm_compute. reflexivity. }
  destruct (store_highScore_is_current_score (fst firstMeal)
              (GameStore.mk PLAYING CLASSIC (mkGameStats 0 1 3 1 0 0 0 500)
                 GameStore.initialAllTimeStats) Hr) as [Heq _].
  rewrite Heq. vm_compute. reflexivity.
Defined.

(* ===================================================================== *)
(** * The canvas                                                          *)
(* ===================================================================== *)

Lemma KEY_MAPPINGS_unit (key : string) (d : Direction) :
  GameCanvas.KEY_MAPPINGS key = Some d -> isUnitDirection d.
Proof.
  unfold GameCanvas.KEY_MAPPINGS, isUnitDirection.
  repeat (destruct (String.eqb key _); [intros H; injection H as <-; auto|]).
  discriminate.
Qed.

Lemma swipeDirection_unit (dx dy : Q) (d : Direction) :
  GameCanvas.swipeDirection dx dy = Some d -> isUnitDirection d.
Proof.
  unfold GameCanvas.swipeDirection, isUnitDirection. cbv zeta.
  destruct (_ || _); [|discriminate].
  destruct (Qltb (Qabs dy) (Qabs dx)); [destruct (Qltb 0 dx)|destruct (Qltb 0 dy)];
    intros H; injection H as <-; auto.
Qed.

Lemma underWay_update (cfg : GameConfig) (deltaTime : Q) (now : Z)
    (e e' : Engine) (r r' : RandomSource) :
  underWay cfg e -> update deltaTime now e r = Some (e', r') -> underWay cfg e'.
Proof.
  apply (invariant_update (underWay cfg)); try (untouched; fail).
  - intros now0 e0 r0 e1 r1 HP Hrun.
    rewrite (spawnPowerUp_frame_eq _ _ _ _ _ Hrun). exact HP.
  - intros e0 [Hcfg Hst]. rewrite handleDeath_cases. cbv zeta.
    destruct (_ <=? 0); split; cbn; auto.
  - intros now0 p e0 HP. unfold collectPowerUp. cbv zeta.
    destruct (pu_type p); try exact HP. case_cond; exact HP.
  - intros now0 e0 HP. unfold updatePowerUps. cbv zeta.
    cbn [activePowerUp set_powerUps].
    destruct (activePowerUp e0) as [a|]; [|exact HP].
    destruct (_ >=? _); [|exact HP]. destruct (ap_type a); exact HP.
Qed.

Lemma config_init (now : Z) (e e' : Engine) (r r' : RandomSource) :
  init now e r = Some (e', r') -> config e' = config e.
Proof.
  apply (invariant_init (fun x => config x = config e)); try (untouched; fail).
  reflexivity.
Qed.

Lemma underWay_changeDirection (cfg : GameConfig) (d : Direction) (e : Engine) :
  underWay cfg e -> underWay cfg (changeDirection d e).
Proof.
  intros HP. unfold changeDirection. destruct (negb _); exact HP.
Qed.

(** X27.  The canvas drives the engine within the states a client can
    reach with the four unit directions: every direction it passes to
    [changeDirection], from a key of [KEY_MAPPINGS] or from a swipe, is
    one of them.  The engine keeps the configuration it was created
    with, and after mounting it is always playing, paused or over. *)
Theorem canvas_drives_with_unit_directions (cfg : GameConfig) (e : Engine) :
  GameCanvas.driven cfg e ->
  reachableBy isUnitDirection e
  /\ config e = cfg
  /\ (state e = PLAYING \/ state e = PAUSED \/ state e = GAME_OVER).
Proof.
  induction 1 as [now e r r' Hinit
                 | deltaTime now e e' r r' _ (IHr & IHc & IHs) Hrun
                 | key e e' _ (IHr & IHc & IHs) Hkey
                 | dx dy e _ (IHr & IHc & IHs)].
  - split_conj.
    + apply reachableBy_setState.
      eapply reachableBy_init; [apply reachableBy_new | exact Hinit].
    + cbn. apply (config_init _ _ _ _ _ Hinit).
    + left. reflexivity.
  - split; [eapply reachableBy_update; eassumption|].
    apply (underWay_update cfg deltaTime now e e' r r'); [split; assumption|].
    exact Hrun.
  - unfold GameCanvas.handleKeyDown in Hkey.
    destruct (GameCanvas.inherited key); [discriminate|].
    cbv zeta in Hkey. injection Hkey as <-.
    assert (H1 : reachableBy isUnitDirection
                   match GameCanvas.KEY_MAPPINGS key with
                   | Some direction => changeDirection direction e
                   | None => e
                   end
                 /\ underWay cfg
                      match GameCanvas.KEY_MAPPINGS key with
                      | Some direction => changeDirection direction e
                      | None => e
                      end).
    { destruct (GameCanvas.KEY_MAPPINGS key) as [d|] eqn:Hd.
      - split.
        + apply reachableBy_changeDirection; [|exact IHr].
          eapply KEY_MAPPINGS_unit. exact Hd.
        + apply underWay_changeDirection. split; assumption.
      - split; [exact IHr | split; assumption]. }
    destruct H1 as [H1r [H1c H1s]].
    remember (match GameCanvas.KEY_MAPPINGS key with
              | Some direction => changeDirection direction e
              | None => e
              end) as e1 eqn:He1.
    clear He1. destruct (_ || _); [|split_conj; assumption].
    unfold getState.
    destruct (state e1) eqn:Hst;
      first [ split_conj;
              [apply reachableBy_setState; exact H1r | exact H1c | cbn; auto]
            | split_conj;
              [exact H1r | exact H1c
              | destruct H1s as [H1s | [H1s | H1s]]; try discriminate;
                rewrite Hst; auto] ].
  - unfold GameCanvas.handleTouchEnd.
    destruct (GameCanvas.swipeDirection dx dy) as [d|] eqn:Hd;
      [|split_conj; assumption].
    split.
    + apply reachableBy_changeDirection; [|exact IHr].
      eapply swipeDirection_unit. exact Hd.
    + apply (underWay_changeDirection cfg d e). split; assumption.
Qed.

(** X27 on a canvas that mounts, sees a swipe to the left and the key
    [w]. *)
Lemma canvas_drives_with_unit_directions_witness :
  reachableBy isUnitDirection
    (changeDirection DIRECTIONS.UP
       (GameCanvas.handleTouchEnd (-(40)) 3 (fst served))).
Proof.
  apply (canvas_drives_with_unit_directions (sampleConfig NORMAL CLASSIC)).
  apply (GameCanvas.driven_keyDown _ "w"
           (GameCanvas.handleTouchEnd (-(40)) 3 (fst served))).
  - apply GameCanvas.driven_touchEnd.
    apply (GameCanvas.driven_mount _ 1000
             (fst (orNew (init 1000 (constructor (sampleConfig NORMAL CLASSIC))
                            mealSamples)))
             mealSamples
             (snd (orNew (init 1000 (constructor (sampleConfig NORMAL CLASSIC))
                            mealSamples)))).
    vm_compute. reflexivity.
  - vm_compute. reflexivity.
Defined.

(** X28.  Once the game is over nothing the canvas does brings it back:
    a frame of the game loop leaves the engine as it is, and a key or a
    swipe changes at most the queued direction. *)
Theorem canvas_game_over_is_final (e : Engine) :
  state e = GAME_OVER ->
  (forall deltaTime now r, update deltaTime now e r = Some (e, r))
  /\ (forall key e',
        GameCanvas.handleKeyDown key e = Some e' ->
        e' = set_snake (set_nextDirection (nextDirection (snake e')) (snake e)) e)
  /\ (forall dx dy,
        GameCanvas.handleTouchEnd dx dy e
        = set_snake
            (set_nextDirection
               (nextDirection (snake (GameCanvas.handleTouchEnd dx dy e)))
               (snake e)) e).
Proof.
  intros Hover.
  assert (Hsame : e = set_snake (set_nextDirection (nextDirection (snake e)) (snake e)) e).
  { destruct e as [st cfg [segs dir next len] fd ps os ap sts lft acc sp fc em].
    reflexivity. }
  assert (Hturn : forall d,
            changeDirection d e
            = set_snake
                (set_nextDirection (nextDirection (snake (changeDirection d e)))
                   (snake e)) e).
  { intros d. unfold changeDirection. destruct (negb _); [reflexivity | exact Hsame]. }
  split_conj.
  - intros deltaTime now r. unfold update. rewrite Hover. reflexivity.
  - intros key e' Hkey. unfold GameCanvas.handleKeyDown in Hkey.
    destruct (GameCanvas.inherited key); [discriminate|].
    cbv zeta in Hkey. injection Hkey as <-.
    assert (Hst : forall x,
              state x = GAME_OVER ->
              (if (String.eqb key " " || String.eqb key "Escape")%bool
               then match getState x with
                    | PLAYING => setState PAUSED x
                    | PAUSED => setState PLAYING x
                    | _ => x
                    end
               else x) = x).
    { intros x Hx. destruct (_ || _); [|reflexivity].
      unfold getState. rewrite Hx. reflexivity. }
    destruct (GameCanvas.KEY_MAPPINGS key) as [d|].
    + rewrite Hst; [apply Hturn|].
      unfold changeDirection. destruct (negb _); exact Hover.
    + rewrite Hst; [exact Hsame | exact Hover].
  - intros dx dy. unfold GameCanvas.handleTouchEnd.
    destruct (GameCanvas.swipeDirection dx dy) as [d|]; [apply Hturn | exact Hsame].
Qed.

(** X28 on a game that is over: the frame changes nothing. *)
Lemma canvas_game_over_is_final_witness :
  update 16 2000 (setState GAME_OVER playing) noSamples
  = Some (setState GAME_OVER playing, noSamples).
Proof.
  apply (canvas_game_over_is_final (setState GAME_OVER playing)).
  reflexivity.
Defined.

(* ===================================================================== *)
(** * The move interval                                                   *)
(* ===================================================================== *)

Lemma interval_reachable (e : Engine) :
  reachable e -> 1 <= level (stats e) /\ intervalInRange e.
Proof.
  intros Hr. apply reachable_reachableBy in Hr. revert e Hr.
  apply (invariant_reachableBy (fun _ => True)
           (fun e => 1 <= level (stats e) /\ intervalInRange e)).
  - (* new *) intros cfg. unfold intervalInRange. cbn.
    destruct (difficulty cfg); cbn; split_conj; try lia; unfold Qle; cbn; lia.
  - (* reset *) intros now e _. unfold intervalInRange. cbn.
    destruct (difficulty (config e)); cbn; split_conj; try lia;
      unfold Qle; cbn; lia.
  - (* state *) untouched.
  - (* steer *) untouched.
  - (* clocked *) untouched.
  - (* accumulator *) untouched.
  - (* frame *) untouched.
  - (* emit *) untouched.
  - (* food *) untouched.
  - (* generate *) untouched.
  - (* round *) untouched.
  - (* spawnPowerUp *) intros now e r e' r' HP Hrun.
    rewrite (spawnPowerUp_frame_eq _ _ _ _ _ Hrun). exact HP.
  - (* level *) intros newLevel e (Hlevel & _) Hgt. unfold intervalInRange.
    cbn [stats set_stats set_level set_currentSpeed level config currentSpeed].
    split; [lia|]. change 300%Q with (inject_Z 300). rewrite <- !Zle_Qle.
    destruct (difficulty (config e)); cbn; lia.
  - (* scored *) untouched.
  - (* death *) intros e HP. rewrite handleDeath_cases. cbv zeta.
    destruct (_ <=? 0); exact HP.
  - (* moved *) untouched.
  - (* collect *) intros now p e (Hlevel & Hlo & Hhi).
    unfold collectPowerUp. cbv zeta.
    destruct (pu_type p); try case_cond; try (split; [exact Hlevel | split; assumption]);
      unfold intervalInRange;
      cbn [stats set_stats emitEvent set_currentSpeed set_activePowerUp
           set_powerUps set_powerUpsCollected level config currentSpeed];
      (split; [exact Hlevel|]).
    + (* speed *)
      destruct (Q.max_spec (currentSpeed e * (1 # 2)) 20) as [[_ ->] | [Hge ->]].
      * split; [|lra].
        apply Qle_trans with (inject_Z 20); [|apply Qle_refl].
        rewrite <- Zle_Qle. lia.
      * split; [|lra].
        apply Qle_trans with (inject_Z 20); [rewrite <- Zle_Qle; lia | exact Hge].
    + (* slow *)
      assert (Hpos : (0 < inject_Z
                        (Z.min 20 (sc_min (SPEED_CONFIG (difficulty (config e))))))%Q).
      { rewrite <- (Zlt_Qlt 0). destruct (difficulty (config e)); cbn; lia. }
      assert (H300 : (inject_Z
                        (Z.min 20 (sc_min (SPEED_CONFIG (difficulty (config e)))))
                      <= 300)%Q).
      { change 300%Q with (inject_Z 300). rewrite <- Zle_Qle. lia. }
      destruct (Q.min_spec (currentSpeed e * 2) 300) as [[Hlt ->] | [Hge ->]];
        split; lra.
  - (* updatePowerUps *) intros now e (Hlevel & Hlo & Hhi).
    unfold updatePowerUps. cbv zeta. cbn [activePowerUp set_powerUps].
    destruct (activePowerUp e) as [a|]; [|split; [exact Hlevel | split; assumption]].
    destruct (_ >=? _); [|split; [exact Hlevel | split; assumption]].
    assert (Hpos : (0 < inject_Z
                      (Z.min 20 (sc_min (SPEED_CONFIG (difficulty (config e))))))%Q).
    { rewrite <- (Zlt_Qlt 0). destruct (difficulty (config e)); cbn; lia. }
    assert (Hinit : (inject_Z
                       (Z.min 20 (sc_min (SPEED_CONFIG (difficulty (config e)))))
                     <= inject_Z (sc_initial (SPEED_CONFIG (difficulty (config e)))))%Q
                    /\ (inject_Z (sc_initial (SPEED_CONFIG (difficulty (config e))))
                        <= 300)%Q).
    { change 300%Q with (inject_Z 300). rewrite <- !Zle_Qle.
      destruct (difficulty (config e)); cbn; lia. }
    destruct Hinit as [Hinit_lo Hinit_hi].
    destruct (ap_type a); try (split; [exact Hlevel | split; assumption]);
      unfold intervalInRange;
      cbn [stats set_currentSpeed set_activePowerUp set_powerUps level config
           currentSpeed];
      (split; [exact Hlevel|]).
    + (* speed *)
      destruct (Q.min_spec (currentSpeed e * 2)
                  (inject_Z (sc_initial (SPEED_CONFIG (difficulty (config e))))))
        as [[Hlt ->] | [Hge ->]]; split; lra.
    + (* slow *)
      destruct (Q.max_spec (currentSpeed e * (1 # 2))
                  (inject_Z (sc_initial (SPEED_CONFIG (difficulty (config e))))))
        as [[Hlt ->] | [Hge ->]]; split; lra.
Qed.

(** X29.  In every state a client can reach the move interval is at most
    300 ms and at least the smaller of 20 ms and the floor of the
    difficulty, hence at least 15 ms: no sequence of level-ups and speed
    or slow power-ups, collected or expired, takes it out of that range
    or down to 0. *)
Theorem move_interval_bounds (e : Engine) :
  reachable e ->
  (inject_Z (Z.min 20 (sc_min (SPEED_CONFIG (difficulty (config e)))))
   <= currentSpeed e)%Q
  /\ (15 <= currentSpeed e <= 300)%Q.
Proof.
  intros Hr. destruct (interval_reachable e Hr) as (_ & Hlo & Hhi).
  split; [exact Hlo|]. split; [|exact Hhi].
  apply Qle_trans
    with (inject_Z (Z.min 20 (sc_min (SPEED_CONFIG (difficulty (config e))))));
    [|exact Hlo].
  change 15%Q with (inject_Z 15). rewrite <- Zle_Qle.
  destruct (difficulty (config e)); cbn; lia.
Qed.

(** X29 on the game of one meal: the interval is still 100 ms. *)
Lemma move_interval_bounds_witness :
  (currentSpeed (fst firstMeal) == 100)%Q
  /\ (15 <= currentSpeed (fst firstMeal) <= 300)%Q.
Proof.
  split; [vm_compute; reflexivity|].
  assert (Hr : reachable (fst firstMeal)).
  { apply (mealRun_reachable _ (snd firstMeal)). vm_compute. reflexivity. }
  destruct (move_interval_bounds (fst firstMeal) Hr) as [_ H]. exact H.
Defined.

(* ===================================================================== *)
(** * Food on the board                                                   *)
(* ===================================================================== *)

Lemma init_food (now : Z) (e e' : Engine) (r r' : RandomSource) :
  4 <= gridSize (config e) ->
  init now e r = Some (e', r') -> food e' <> None.
Proof.
  intros Hg. unfold init, bind.
  destruct (spawnFood_spec (reset now e) r) as (e1 & r1 & Hsp & Hcases).
  rewrite Hsp.
  destruct (generateObstacles_frame now e1 r1) as (os & r2 & Hgen).
  rewrite Hgen. intros H. injection H as <- _.
  destruct Hcases as [(Hnone & _) | (f & -> & _)]; [|discriminate].
  exfalso.
  assert (Hin : In (mkPosition 0 0) (getAvailablePositions (reset now e))).
  { apply available_iff. split_conj.
    - unfold onGrid. cbn. lia.
    - unfold atSelf. cbn. rewrite initialSegments_eq.
      assert (H2 : 2 <= gridSize (config e) / 2)
        by (apply Z.div_le_lower_bound; lia).
      intros [H | [H | [H | []]]]; inversion H; lia.
    - intros (f & Hf & _). discriminate.
    - intros (p & [] & _).
    - intros (o & [] & _). }
  rewrite Hnone in Hin. destruct Hin.
Qed.

Lemma food_update (deltaTime : Q) (now : Z) (e e' : Engine) (r r' : RandomSource) :
  food e <> None -> update deltaTime now e r = Some (e', r') -> food e' <> None.
Proof.
  apply (invariant_update (fun x => food x <> None)); try (untouched; fail).
  - intros f e0 _ _. discriminate.
  - intros now0 e0 r0 e1 r1 HP Hrun.
    rewrite (spawnPowerUp_frame_eq _ _ _ _ _ Hrun). exact HP.
  - intros e0 HP. rewrite handleDeath_cases. cbv zeta.
    destruct (_ <=? 0); exact HP.
  - intros now0 p e0 HP. unfold collectPowerUp. cbv zeta.
    destruct (pu_type p); try exact HP. case_cond; exact HP.
  - intros now0 e0 HP. unfold updatePowerUps. cbv zeta.
    cbn [activePowerUp set_powerUps].
    destruct (activePowerUp e0) as [a|]; [|exact HP].
    destruct (_ >=? _); [|exact HP]. destruct (ap_type a); exact HP.
Qed.

(** X30.  On a grid of at least 4 x 4 cells there is a food on the board
    of the engine under the canvas at all times: [init] finds a free cell
    for the first one, and no frame, key or swipe leaves the board
    without one. *)
Theorem canvas_food_always_present (cfg : GameConfig) (e : Engine) :
  GameCanvas.driven cfg e -> 4 <= gridSize cfg -> food e <> None.
Proof.
  intros Hd Hg.
  induction Hd as [now e r r' Hinit
                  | deltaTime now e e' r r' _ IH Hrun
                  | key e e' _ IH Hkey
                  | dx dy e _ IH].
  - cbn. eapply init_food; [|exact Hinit]. exact Hg.
  - eapply food_update; eassumption.
  - unfold GameCanvas.handleKeyDown in Hkey.
    destruct (GameCanvas.inherited key); [discriminate|].
    cbv zeta in Hkey. injection Hkey as <-.
    assert (H1 : food match GameCanvas.KEY_MAPPINGS key with
                      | Some direction => changeDirection direction e
                      | None => e
                      end <> None).
    { destruct (GameCanvas.KEY_MAPPINGS key) as [d|]; [|exact IH].
      unfold changeDirection. destruct (negb _); exact IH. }
    remember (match GameCanvas.KEY_MAPPINGS key with
              | Some direction => changeDirection direction e
              | None => e
              end) as e1 eqn:He1.
    clear He1. destruct (_ || _); [|exact H1].
    unfold getState. destruct (state e1); exact H1.
  - unfold GameCanvas.handleTouchEnd.
    destruct (GameCanvas.swipeDirection dx dy) as [d|]; [|exact IH].
    unfold changeDirection. destruct (negb _); exact IH.
Qed.

(** X30 on the canvas of a medium grid, mounted and one frame later. *)
Lemma canvas_food_always_present_witness : food (fst firstMeal) <> None.
Proof.
  apply (canvas_food_always_present (sampleConfig NORMAL CLASSIC)).
  - apply (GameCanvas.driven_gameLoop _ 100 1100 (fst served) (fst firstMeal)
             (snd served) (snd firstMeal)).
    + apply (GameCanvas.driven_mount _ 1000
               (fst (orNew (init 1000 (constructor (sampleConfig NORMAL CLASSIC))
                              mealSamples)))
               mealSamples
               (snd (orNew (init 1000 (constructor (sampleConfig NORMAL CLASSIC))
                              mealSamples)))).
      vm_compute. reflexivity.
    + vm_compute. reflexivity.
  - vm_compute. discriminate.
Defined.

(* ===================================================================== *)
(** * The event bus                                                       *)
(* ===================================================================== *)

Lemma emitEvent_on (type eventType : string) (callback : nat) (b : EventBus.t) :
  EventBus.emitEvent type (EventBus.on eventType callback b)
  = if decide (eventType = type)
    then EventBus.add callback (EventBus.emitEvent type b)
    else EventBus.emitEvent type b.
Proof.
  unfold EventBus.emitEvent, EventBus.on. cbv zeta.
  destruct (decide (eventType = type)) as [->|Hne].
  - rewrite lookup_insert_eq.
    destruct (b !! type) as [callbacks|] eqn:Hb; rewrite ?lookup_insert_eq, ?Hb;
      reflexivity.
  - rewrite lookup_insert_ne by exact Hne.
    destruct (b !! eventType) as [callbacks|]; [reflexivity|].
    rewrite lookup_insert_ne by exact Hne. reflexivity.
Qed.

Lemma emitEvent_unsubscribe (type eventType : string) (callback : nat)
    (b : EventBus.t) :
  EventBus.emitEvent type (EventBus.unsubscribe eventType callback b)
  = if decide (eventType = type)
    then EventBus.delete callback (EventBus.emitEvent type b)
    else EventBus.emitEvent type b.
Proof.
  unfold EventBus.emitEvent, EventBus.unsubscribe.
  destruct (decide (eventType = type)) as [->|Hne].
  - destruct (b !! type) as [callbacks|] eqn:Hb; rewrite ?lookup_insert_eq, ?Hb;
      reflexivity.
  - destruct (b !! eventType) as [callbacks|]; [|reflexivity].
    rewrite lookup_insert_ne by exact Hne. reflexivity.
Qed.

Lemma add_spec (callback : nat) (callbacks : list nat) :
  List.NoDup callbacks ->
  List.NoDup (EventBus.add callback callbacks)
  /\ (forall c, In c (EventBus.add callback callbacks)
                <-> c = callback \/ In c callbacks)
  /\ (~ In callback callbacks ->
      EventBus.add callback callbacks = callbacks ++ [callback])
  /\ (In callback callbacks -> EventBus.add callback callbacks = callbacks).
Proof.
  intros Hnd. unfold EventBus.add.
  destruct (existsb (Nat.eqb callback) callbacks) eqn:Hex.
  - apply existsb_exists in Hex. destruct Hex as (c & Hc & Heq).
    apply Nat.eqb_eq in Heq. subst c. split_conj.
    + exact Hnd.
    + intros c. split; [auto | intros [-> | H]; assumption].
    + intros H. contradiction.
    + reflexivity.
  - assert (Hnot : ~ In callback callbacks).
    { intros Hin. apply Bool.not_true_iff_false in Hex. apply Hex.
      apply existsb_exists. exists callback. split; [exact Hin|].
      apply Nat.eqb_refl. }
    split_conj.
    + apply List.NoDup_app; [exact Hnd | repeat constructor; intros [] |].
      intros c Hc [<- | []]. exact (Hnot Hc).
    + intros c. rewrite List.in_app_iff. cbn. split.
      * intros [H | [<- | []]]; auto.
      * intros [-> | H]; auto.
    + reflexivity.
    + intros H. contradiction.
Qed.

Lemma delete_spec (callback : nat) (callbacks : list nat) :
  List.NoDup callbacks ->
  List.NoDup (EventBus.delete callback callbacks)
  /\ (forall c, In c (EventBus.delete callback callbacks)
                <-> c <> callback /\ In c callbacks).
Proof.
  intros Hnd. unfold EventBus.delete. split.
  - apply List.NoDup_filter. exact Hnd.
  - intros c. rewrite List.filter_In, Bool.negb_true_iff, Nat.eqb_neq.
    split; intros [H1 H2]; split; auto.
Qed.

Lemma emitEvent_NoDup (type : string) (b : EventBus.t) :
  EventBus.reachable b -> List.NoDup (EventBus.emitEvent type b).
Proof.
  induction 1 as [|eventType callback b _ IH|eventType callback b _ IH].
  - unfold EventBus.emitEvent, EventBus.new. rewrite lookup_empty. constructor.
  - rewrite emitEvent_on. destruct (decide _); [|exact IH].
    apply add_spec. exact IH.
  - rewrite emitEvent_unsubscribe. destruct (decide _); [|exact IH].
    apply delete_spec. exact IH.
Qed.

(** X25.  The callbacks of an event type form a set kept in order of
    subscription: [emitEvent] calls each of them once; [on] of a new
    callback puts it last, [on] of one that is subscribed changes
    nothing; the function [on] returned removes the callback for good,
    however many times it was subscribed; the other event types keep
    their callbacks in both cases. *)
Theorem EventBus_callbacks_are_a_set (type : string) (callback : nat)
    (b : EventBus.t) :
  EventBus.reachable b ->
  List.NoDup (EventBus.emitEvent type b)
  /\ In callback (EventBus.emitEvent type (EventBus.on type callback b))
  /\ (~ In callback (EventBus.emitEvent type b) ->
      EventBus.emitEvent type (EventBus.on type callback b)
      = EventBus.emitEvent type b ++ [callback])
  /\ (In callback (EventBus.emitEvent type b) ->
      EventBus.emitEvent type (EventBus.on type callback b)
      = EventBus.emitEvent type b)
  /\ ~ In callback
         (EventBus.emitEvent type
            (EventBus.unsubscribe type callback
               (EventBus.on type callback (EventBus.on type callback b))))
  /\ (forall c, c <> callback ->
        (In c (EventBus.emitEvent type (EventBus.unsubscribe type callback b))
         <-> In c (EventBus.emitEvent type b)))
  /\ (forall other, other <> type ->
        EventBus.emitEvent other (EventBus.on type callback b)
        = EventBus.emitEvent other b
        /\ EventBus.emitEvent other (EventBus.unsubscribe type callback b)
           = EventBus.emitEvent other b).
Proof.
  intros Hb. pose proof (emitEvent_NoDup type b Hb) as Hnd.
  destruct (add_spec callback _ Hnd) as (Hnd1 & Hin1 & Hnew & Hold).
  split_conj.
  - exact Hnd.
  - rewrite emitEvent_on. destruct (decide _); [|congruence].
    apply Hin1. left. reflexivity.
  - intros Hnot. rewrite emitEvent_on. destruct (decide _); [|congruence].
    apply Hnew. exact Hnot.
  - intros Hin. rewrite emitEvent_on. destruct (decide _); [|congruence].
    apply Hold. exact Hin.
  - rewrite emitEvent_unsubscribe. destruct (decide _); [|congruence].
    intros Hin.
    assert (Hnd2 : List.NoDup
                     (EventBus.emitEvent type
                        (EventBus.on type callback (EventBus.on type callback b)))).
    { apply emitEvent_NoDup. do 2 apply EventBus.reachable_on. exact Hb. }
    apply (delete_spec callback _ Hnd2) in Hin. destruct Hin as [Hne _].
    apply Hne. reflexivity.
  - intros c Hc. rewrite emitEvent_unsubscribe. destruct (decide _); [|congruence].
    rewrite (proj2 (delete_spec callback _ Hnd) c). tauto.
  - intros other Hother. rewrite emitEvent_on, emitEvent_unsubscribe.
    destruct (decide (type = other)); [congruence|]. split; reflexivity.
Qed.

(** X25 on two subscriptions of one callback to FOOD_EATEN, undone once:
    the callback is not called any more. *)
Lemma EventBus_callbacks_are_a_set_witness :
  ~ In 7%nat
      (EventBus.emitEvent "FOOD_EATEN"
         (EventBus.unsubscribe "FOOD_EATEN" 7
            (EventBus.on "FOOD_EATEN" 7
               (EventBus.on "FOOD_EATEN" 7 EventBus.new)))).
Proof.
  destruct (EventBus_callbacks_are_a_set "FOOD_EATEN" 7 EventBus.new
              EventBus.reachable_new) as (_ & _ & _ & _ & H & _).
  exact H.
Defined.
